(** * UrlTool: the pipeline state codec and executor of [src/pages/UrlTool.tsx]

    A shallow embedding of the URL tool page: the transform registry
    ([TRANSFORMS], [ALL_KEYS], [TRANSFORM_MAP]), the decoders of the query
    string ([parseOrder], [parseActive], [parseConfigs]), the encoders
    ([toggle], [setConfig], [move]) and the executor ([transformResults]).

    JavaScript values are modelled as the code has them at run time:
    - a string is its sequence of UTF-16 code units ([jsstring]);
    - an exception is an abrupt completion ([Throw]) of the [completion]
      monad, and [try]/[catch] is [try_catch];
    - a [Set] is the list of its elements in insertion order;
    - a [URLSearchParams] is the list of its name/value pairs;
    - a plain object is its own properties (a [gmap]) together with its
      prototype, because [in], property reads and assignments walk the
      prototype chain;
    - the [URL] class is an interface ([URL_API]) for what holds on every
      platform, and the parser, hostname setter and serializer of the URL
      Standard ([URLStandard], [URL_standard]) for what [hostnameReplace]
      returns. *)

From Stdlib Require Import ZArith NArith List String Ascii DecimalString.
From stdpp Require Import base option list gmap.

Set Default Proof Using "Type".
Set Warnings "-clear-no-such-hyp".
Open Scope N_scope.

(** ** JavaScript strings *)

Module JS.

(** A string is a sequence of 16-bit code units. *)
Abbreviation jsstring := (list N).

(** String literals of the source (all of them ASCII). *)
Definition lit (s : string) : jsstring :=
  (λ a, N_of_ascii a) <$> list_ascii_of_string s.
Arguments lit : simpl never.

Definition COMMA : N := 44.
Definition DOT : N := 46.
Definition SLASH : N := 47.
Definition PERCENT : N := 37.
Definition COLON : N := 58.
Definition QUESTION_MARK : N := 63.
Definition HASH : N := 35.

(** [s.split(sep)] for a one-unit separator: never empty, one more segment
    than there are separators. *)
Fixpoint split (sep : N) (s : jsstring) : list jsstring :=
  match s with
  | [] => [[]]
  | c :: s' =>
      if decide (c = sep) then [] :: split sep s'
      else match split sep s' with
           | seg :: segs => (c :: seg) :: segs
           | [] => [[c]]
           end
  end.

(** [xs.join(sep)] on an array of strings. *)
Fixpoint join (sep : N) (xs : list jsstring) : jsstring :=
  match xs with
  | [] => []
  | [x] => x
  | x :: xs' => x ++ sep :: join sep xs'
  end.

(** [s.indexOf(c)] for a one-unit needle, and [xs.indexOf(x)] on an array:
    the first position, or -1. *)
Fixpoint indexOf {A} `{EqDecision A} (xs : list A) (x : A) : Z :=
  match xs with
  | [] => (-1)%Z
  | y :: xs' =>
      if decide (y = x) then 0%Z
      else let i := indexOf xs' x in
           if decide (i = (-1)%Z) then (-1)%Z else (i + 1)%Z
  end.

(** [s.slice(0, n)] and [s.slice(n)] for [0 <= n]. *)
Definition slice_to (s : jsstring) (n : Z) : jsstring := take (Z.to_nat n) s.
Definition slice_from (s : jsstring) (n : Z) : jsstring := drop (Z.to_nat n) s.

(** [xs.includes(x)] *)
Definition includes (xs : list jsstring) (x : jsstring) : bool :=
  bool_decide (x ∈ xs).

(** ** Completions: a value, or a thrown exception *)

Inductive error := TypeError | URIError.

Inductive completion (A : Type) :=
  | Normal (a : A)
  | Throw (e : error).
Arguments Normal {A} a.
Arguments Throw {A} e.

#[global] Instance completion_ret : MRet completion := λ A a, Normal a.
#[global] Instance completion_bind : MBind completion := λ A B k c,
  match c with
  | Normal a => k a
  | Throw e => Throw e
  end.

(** [try { body } catch { handler }] *)
Definition try_catch {A} (body : completion A) (handler : completion A) : completion A :=
  match body with
  | Normal a => Normal a
  | Throw _ => handler
  end.

(** ** Sets, in insertion order *)

Abbreviation JSSet := (list jsstring).

Definition Set_has (s : JSSet) (k : jsstring) : bool := bool_decide (k ∈ s).
Definition Set_add (s : JSSet) (k : jsstring) : JSSet :=
  if Set_has s k then s else s ++ [k].
Definition Set_delete (s : JSSet) (k : jsstring) : JSSet :=
  filter (λ x, x ≠ k) s.
(** [new Set(iterable)] adds the elements one after the other. *)
Definition Set_new (xs : list jsstring) : JSSet := foldl Set_add [] xs.
Definition Set_size (s : JSSet) : nat := length s.

(** ** URLSearchParams: a list of name/value pairs

    The names and values of the pairs are scalar value strings. The
    operations are modelled on such strings: the platform first converts
    their arguments to [USVString] ([URLStandard.USVString] below), which
    changes a string with an unpaired surrogate and no other one. *)

Abbreviation URLSearchParams := (list (jsstring * jsstring)).

(** [p.get(name)]: the value of the first pair with that name, or null. *)
Fixpoint USP_get (p : URLSearchParams) (name : jsstring) : option jsstring :=
  match p with
  | [] => None
  | (n, v) :: p' => if decide (n = name) then Some v else USP_get p' name
  end.

(** [p.delete(name)] removes every pair with that name. *)
Definition USP_delete (p : URLSearchParams) (name : jsstring) : URLSearchParams :=
  filter (λ nv, nv.1 ≠ name) p.

(** [p.set(name, value)]: the first pair with that name takes the value and
    the other ones are removed; without such a pair, one is appended. *)
Fixpoint USP_set (p : URLSearchParams) (name value : jsstring) : URLSearchParams :=
  match p with
  | [] => [(name, value)]
  | (n, v) :: p' =>
      if decide (n = name) then (name, value) :: USP_delete p' name
      else (n, v) :: USP_set p' name value
  end.

(** ** decodeURIComponent

    The [Decode] operation of ECMAScript with an empty reserved set. An
    escape [%XX] stands for one octet; an octet below 0x80 is the code unit
    itself, any other one has to start a well-formed UTF-8 sequence whose
    remaining octets are escapes too, and the code point it encodes is
    appended in UTF-16. Every failure throws a [URIError], so that the order
    in which [Decode] checks for them cannot be observed. *)

Definition hex_digit (c : N) : option N :=
  if (48 <=? c) && (c <=? 57) then Some (c - 48)
  else if (65 <=? c) && (c <=? 70) then Some (c - 55)
  else if (97 <=? c) && (c <=? 102) then Some (c - 87)
  else None.

(** The number of octets announced by a leading octet [b >= 0x80]: the
    number of its leading 1 bits, when that is 2, 3 or 4. *)
Definition utf8_length (b : N) : option nat :=
  if b <? 192 then None
  else if b <? 224 then Some 2%nat
  else if b <? 240 then Some 3%nat
  else if b <? 248 then Some 4%nat
  else None.

Definition continuation (b : N) : bool := (128 <=? b) && (b <=? 191).

(** The code point of a well-formed UTF-8 sequence: continuation octets in
    0x80..0xBF, shortest form, no surrogate, at most U+10FFFF. *)
Definition utf8_code_point (octets : list N) : option N :=
  match octets with
  | [b0; b1] =>
      let v := (b0 - 192) * 64 + (b1 - 128) in
      if continuation b1 && (128 <=? v) then Some v else None
  | [b0; b1; b2] =>
      let v := (b0 - 224) * 4096 + (b1 - 128) * 64 + (b2 - 128) in
      if continuation b1 && continuation b2 && (2048 <=? v)
         && negb ((55296 <=? v) && (v <=? 57343))
      then Some v else None
  | [b0; b1; b2; b3] =>
      let v := (b0 - 240) * 262144 + (b1 - 128) * 4096 + (b2 - 128) * 64 + (b3 - 128) in
      if continuation b1 && continuation b2 && continuation b3
         && (65536 <=? v) && (v <=? 1114111)
      then Some v else None
  | _ => None
  end.

Definition utf16_encode (v : N) : jsstring :=
  if v <? 65536 then [v]
  else [55296 + (v - 65536) / 1024; 56320 + (v - 65536) mod 1024].

(** Where the decoder stands inside an escape sequence. *)
Inductive decode_state :=
  | Plain
  | NeedPercent (n : nat) (octets : list N)
  | NeedHex1 (pending : option (nat * list N))
  | NeedHex2 (pending : option (nat * list N)) (hi : N).

(** An octet has been read. *)
Definition decode_octet (pending : option (nat * list N)) (b : N)
  : completion (decode_state * jsstring) :=
  match pending with
  | None =>
      if b <? 128 then Normal (Plain, [b])
      else match utf8_length b with
           | Some n => Normal (NeedPercent n [b], [])
           | None => Throw URIError
           end
  | Some (n, octets) =>
      let octets' := octets ++ [b] in
      if decide (length octets' = n) then
        match utf8_code_point octets' with
        | Some v => Normal (Plain, utf16_encode v)
        | None => Throw URIError
        end
      else Normal (NeedPercent n octets', [])
  end.

Definition decode_step (st : decode_state) (c : N)
  : completion (decode_state * jsstring) :=
  match st with
  | Plain => if decide (c = PERCENT) then Normal (NeedHex1 None, []) else Normal (Plain, [c])
  | NeedPercent n octets =>
      if decide (c = PERCENT) then Normal (NeedHex1 (Some (n, octets)), [])
      else Throw URIError
  | NeedHex1 pending =>
      match hex_digit c with
      | Some hi => Normal (NeedHex2 pending hi, [])
      | None => Throw URIError
      end
  | NeedHex2 pending hi =>
      match hex_digit c with
      | Some lo => decode_octet pending (hi * 16 + lo)
      | None => Throw URIError
      end
  end.

Fixpoint decode_from (st : decode_state) (s : jsstring) : completion jsstring :=
  match s with
  | [] => match st with Plain => Normal [] | _ => Throw URIError end
  | c :: s' =>
      '(st', out) ← decode_step st c;
      rest ← decode_from st' s';
      mret (out ++ rest)
  end.

Definition decodeURIComponent (s : jsstring) : completion jsstring :=
  decode_from Plain s.

(** ** The regular expression [/\/L0\/([^/]+)/]

    [match_L0 s] is the first capture group of [s.match(...)], or [None]
    for null: the leftmost place where [/L0/] is followed by a unit other
    than a slash, and from there the longest run without a slash. *)

Fixpoint strip_prefix (pre s : jsstring) : option jsstring :=
  match pre, s with
  | [], _ => Some s
  | p :: pre', c :: s' => if decide (p = c) then strip_prefix pre' s' else None
  | _ :: _, [] => None
  end.

Fixpoint take_segment (s : jsstring) : jsstring :=
  match s with
  | [] => []
  | c :: s' => if decide (c = SLASH) then [] else c :: take_segment s'
  end.

Definition match_L0_here (s : jsstring) : option jsstring :=
  match strip_prefix (lit "/L0/") s with
  | Some rest =>
      match take_segment rest with
      | [] => None
      | seg => Some seg
      end
  | None => None
  end.

Fixpoint match_L0 (s : jsstring) : option jsstring :=
  match match_L0_here s with
  | Some seg => Some seg
  | None =>
      match s with
      | [] => None
      | _ :: s' => match_L0 s'
      end
  end.

(** ** Values and plain objects

    The values this page stores in, and reads from, its objects: config
    records (objects whose own properties are strings), strings, and what
    every plain object inherits from [Object.prototype]. *)

Inductive jsval :=
  | VUndefined
  | VString (s : jsstring)
  | VRecord (fields : gmap jsstring jsstring)
  | VFunction
  | VObjectPrototype.

(** The properties of [Object.prototype]: its methods, and the accessor
    [__proto__]. *)
Definition OBJECT_PROTOTYPE_KEYS : list jsstring :=
  lit <$> ["constructor"; "__defineGetter__"; "__defineSetter__";
           "hasOwnProperty"; "__lookupGetter__"; "__lookupSetter__";
           "isPrototypeOf"; "propertyIsEnumerable"; "toString"; "valueOf";
           "__proto__"; "toLocaleString"]%string.

Definition PROTO : jsstring := lit "__proto__".

(** An object created by an object literal whose values are config records:
    its own properties, and its prototype, which is [Object.prototype]
    ([None]) until an assignment to [__proto__] replaces it by a record. *)
Record JSObject := {
  own : gmap jsstring (gmap jsstring jsstring);
  proto : option (gmap jsstring jsstring)
}.

Definition empty_object : JSObject := {| own := ∅; proto := None |}.

(** A property read that reached [Object.prototype]; the getter of
    [__proto__] answers with the prototype of the object the read started
    from. *)
Definition Object_prototype_get (receiver_proto : option (gmap jsstring jsstring))
    (k : jsstring) : jsval :=
  if decide (k = PROTO) then
    match receiver_proto with
    | Some r => VRecord r
    | None => VObjectPrototype
    end
  else if bool_decide (k ∈ OBJECT_PROTOTYPE_KEYS) then VFunction
  else VUndefined.

(** [o[k]] *)
Definition obj_get (o : JSObject) (k : jsstring) : jsval :=
  match own o !! k with
  | Some r => VRecord r
  | None =>
      match proto o with
      | Some p =>
          match p !! k with
          | Some s => VString s
          | None => Object_prototype_get (proto o) k
          end
      | None => Object_prototype_get None k
      end
  end.

(** [o[k] = r]: an own property is updated; a data property found on the
    prototype chain, or no property at all, makes a new own property; the
    setter of [__proto__], when the chain reaches it, replaces the
    prototype. *)
Definition obj_set (o : JSObject) (k : jsstring) (r : gmap jsstring jsstring) : JSObject :=
  let define := {| own := <[k := r]> (own o); proto := proto o |} in
  match own o !! k with
  | Some _ => define
  | None =>
      if bool_decide (is_Some (proto o ≫= (.!! k))) then define
      else if decide (k = PROTO) then {| own := own o; proto := Some r |}
      else define
  end.

(** The name of the property at index [i] of a string. *)
Definition index_key (i : nat) : jsstring :=
  lit (NilEmpty.string_of_uint (N.to_uint (N.of_nat i))).

(** The own enumerable properties that [{...v}] copies: none of undefined,
    of a function and of [Object.prototype], the fields of a record, the
    code units of a string under their indices. *)
Definition spread (v : jsval) : gmap jsstring jsstring :=
  match v with
  | VRecord r => r
  | VString s => list_to_map (imap (λ i c, (index_key i, [c])) s)
  | VUndefined | VFunction | VObjectPrototype => ∅
  end.

(** [v ?? {}] *)
Definition or_empty_record (v : jsval) : jsval :=
  match v with
  | VUndefined => VRecord ∅
  | _ => v
  end.

(** Arrays whose elements may be undefined ([None]): [xs[i]], [xs[i] = v]
    and [xs.join(sep)]. A read outside the array is undefined; a write at a
    negative index makes a property that is no element, a write past the
    end extends the array with holes. *)
Definition array_get (xs : list (option jsstring)) (i : Z) : option jsstring :=
  if decide (i < 0)%Z then None else mjoin (xs !! Z.to_nat i).

Definition array_set (xs : list (option jsstring)) (i : Z) (v : option jsstring)
  : list (option jsstring) :=
  if decide (i < 0)%Z then xs
  else if decide (Z.to_nat i < length xs)%nat then <[Z.to_nat i := v]> xs
  else xs ++ replicate (Z.to_nat i - length xs) None ++ [v].

Definition array_join (sep : N) (xs : list (option jsstring)) : jsstring :=
  join sep (default [] <$> xs).

(** ** The URL class

    What the page uses of the platform's [URL]: the constructor, which
    throws on anything but an absolute URL, the [hostname] setter and the
    serializer, with the components the setter leaves alone. The class of
    the platform itself is [URL_standard] below. *)
Record URL_API := {
  URL : Type;
  URL_new : jsstring → completion URL;
  URL_set_hostname : URL → jsstring → URL;
  URL_toString : URL → jsstring;
  URL_pathname : URL → jsstring;
  URL_search : URL → jsstring;
  URL_hash : URL → jsstring;
  URL_set_hostname_pathname u h : URL_pathname (URL_set_hostname u h) = URL_pathname u;
  URL_set_hostname_search u h : URL_search (URL_set_hostname u h) = URL_search u;
  URL_set_hostname_hash u h : URL_hash (URL_set_hostname u h) = URL_hash u
}.

End JS.

Import JS.

(** ** The transform registry *)

(** [TransformDef], without the [ConfigUI] component. The platform the
    function runs on is passed to it. *)
Record TransformDef := {
  key : jsstring;
  label : jsstring;
  fn : URL_API → jsstring → jsval → completion (option jsstring)
}.

(** [fn: (url) => ...] of [stripAwsTracking] *)
Definition stripAwsTracking_fn (api : URL_API) (url : jsstring) (config : jsval)
  : completion (option jsstring) :=
  match match_L0 url with
  | None => mret None
  | Some m1 =>
      try_catch (s ← decodeURIComponent m1; mret (Some s)) (mret None)
  end.

(** The parameter pattern [{ to }]: the property [to] of the config, which
    is undefined ([None]) unless the config is a record with that field;
    destructuring undefined throws. *)
Definition destructure_to (config : jsval) : completion (option jsstring) :=
  match config with
  | VUndefined => Throw TypeError
  | VRecord r => mret (r !! lit "to")
  | VString _ | VFunction | VObjectPrototype => mret None
  end.

(** [fn: (url, { to }) => ...] of [hostnameReplace] *)
Definition hostnameReplace_fn (api : URL_API) (url : jsstring) (config : jsval)
  : completion (option jsstring) :=
  to ← destructure_to config;
  match to with
  | None | Some [] => mret None
  | Some to =>
      try_catch
        (parsed ← URL_new api url;
         let parsed := URL_set_hostname api parsed to in
         mret (Some (URL_toString api parsed)))
        (mret None)
  end.

Definition TRANSFORMS : list TransformDef := [
  {| key := lit "stripAwsTracking";
     label := lit "Strip AWS tracking";
     fn := stripAwsTracking_fn |};
  {| key := lit "hostnameReplace";
     label := lit "Replace hostname";
     fn := hostnameReplace_fn |}
].

Definition ALL_KEYS : list jsstring := key <$> TRANSFORMS.

(** [Object.fromEntries(TRANSFORMS.map(t => [t.key, t]))]: the own
    properties of [TRANSFORM_MAP]; its prototype is [Object.prototype]. *)
Definition TRANSFORM_MAP : gmap jsstring TransformDef :=
  foldl (λ m t, <[key t := t]> m) ∅ TRANSFORMS.

(** [k in TRANSFORM_MAP]: an own or an inherited property. *)
Definition in_TRANSFORM_MAP (k : jsstring) : bool :=
  bool_decide (is_Some (TRANSFORM_MAP !! k)) || bool_decide (k ∈ OBJECT_PROTOTYPE_KEYS).

(** ** The decoders *)

Definition parseOrder (param : option jsstring) : list jsstring :=
  match param with
  | None | Some [] => ALL_KEYS
  | Some param =>
      let keys := filter (λ k, in_TRANSFORM_MAP k) (split COMMA param) in
      let missing := filter (λ k, negb (includes keys k)) ALL_KEYS in
      keys ++ missing
  end.

Definition parseActive (param : option jsstring) : JSSet :=
  match param with
  | None | Some [] => Set_new []
  | Some param => Set_new (filter (λ k, in_TRANSFORM_MAP k) (split COMMA param))
  end.

(** The body of the loop of [parseConfigs]. *)
Definition parseConfigs_step (configs : JSObject) (entry : jsstring * jsstring) : JSObject :=
  let '(param, value) := entry in
  let dotIdx := indexOf param DOT in
  if decide (dotIdx = (-1)%Z) then configs
  else
    let key := slice_to param dotIdx in
    let field := slice_from param (dotIdx + 1) in
    if negb (in_TRANSFORM_MAP key) then configs
    else obj_set configs key (<[field := value]> (spread (obj_get configs key))).

Definition parseConfigs (params : URLSearchParams) : JSObject :=
  foldl parseConfigs_step empty_object params.

(** ** The encoders

    The handlers of the component close over the values decoded from the
    [searchParams] of the render they belong to; [prev] is the parameter
    set the update is applied to. *)

Definition setUrl (value : jsstring) (prev : URLSearchParams) : URLSearchParams :=
  match value with
  | [] => USP_delete prev (lit "u")
  | _ => USP_set prev (lit "u") value
  end.

(** The set [next] that [toggle] builds. *)
Definition toggle_next (searchParams : URLSearchParams) (key : jsstring) : JSSet :=
  let selected := parseActive (USP_get searchParams (lit "active")) in
  let next := Set_new selected in
  if Set_has next key then Set_delete next key else Set_add next key.

Definition toggle (searchParams : URLSearchParams) (key : jsstring)
    (prev : URLSearchParams) : URLSearchParams :=
  let next := toggle_next searchParams key in
  if decide (0 < Set_size next)%nat
  then USP_set prev (lit "active") (join COMMA next)
  else USP_delete prev (lit "active").

(** The template literal [`${key}.${field}`] *)
Definition config_param (key field : jsstring) : jsstring := key ++ DOT :: field.

Definition setConfig (key field value : jsstring) (prev : URLSearchParams)
  : URLSearchParams :=
  match value with
  | [] => USP_delete prev (config_param key field)
  | _ => USP_set prev (config_param key field) value
  end.

(** [dir: -1 | 1] *)
Inductive direction := Up | Down.
Definition dir_value (dir : direction) : Z :=
  match dir with Up => -1 | Down => 1 end.

(** The array [next] that [move] builds, or [None] when it returns early. *)
Definition move_next (searchParams : URLSearchParams) (key : jsstring) (dir : direction)
  : option (list (option jsstring)) :=
  let order := parseOrder (USP_get searchParams (lit "order")) in
  let idx := indexOf order key in
  let swapWith := (idx + dir_value dir)%Z in
  if decide (swapWith < 0 ∨ swapWith >= Z.of_nat (length order))%Z then None
  else
    let next := Some <$> order in
    let a := array_get next swapWith in
    let b := array_get next idx in
    let next := array_set next idx a in
    let next := array_set next swapWith b in
    Some next.

(** [move]; [None] when no update is issued. *)
Definition move (searchParams : URLSearchParams) (key : jsstring) (dir : direction)
    (prev : URLSearchParams) : option URLSearchParams :=
  match move_next searchParams key dir with
  | None => None
  | Some next => Some (USP_set prev (lit "order") (array_join COMMA next))
  end.

(** ** The executor *)

Record StepResult := {
  step_key : jsstring;
  result : option jsstring;
  output : jsstring
}.

(** The callback of [reduce]. Calling [t.fn] throws when [TRANSFORM_MAP[key]]
    is undefined or inherited from [Object.prototype]. *)
Definition run_step (api : URL_API) (url : jsstring) (configs : JSObject)
    (acc : list StepResult) (key : jsstring) : completion (list StepResult) :=
  let input := match last acc with
               | Some r => output r
               | None => url
               end in
  match TRANSFORM_MAP !! key with
  | None => Throw TypeError
  | Some t =>
      result ← fn t api input (or_empty_record (obj_get configs key));
      mret (acc ++ [{| step_key := key; result := result;
                       output := default input result |}])
  end.

(** [xs.reduce(f, init)] with a callback that may throw. *)
Fixpoint reduce {A B} (f : B → A → completion B) (xs : list A) (init : B)
  : completion B :=
  match xs with
  | [] => mret init
  | x :: xs' => acc ← f init x; reduce f xs' acc
  end.

Definition transformResults (api : URL_API) (url : jsstring) (order : list jsstring)
    (selected : JSSet) (configs : JSObject) : completion (list StepResult) :=
  reduce (run_step api url configs) (filter (λ k, Set_has selected k) order) [].

(** [output] *)
Definition final_output (url : jsstring) (results : list StepResult) : jsstring :=
  match last results with
  | Some r => output r
  | None => url
  end.

(** [isValidUrl] *)
Definition isValidUrl (api : URL_API) (url : jsstring) : completion bool :=
  try_catch (_ ← URL_new api url; mret true) (mret false).

(** [urlInvalid]: [url !== '' && !isValidUrl(url)] *)
Definition urlInvalid (api : URL_API) (url : jsstring) : completion bool :=
  match url with
  | [] => mret false
  | _ => valid ← isValidUrl api url; mret (negb valid)
  end.

(** The values the component computes from [searchParams] on a render. *)
Definition UrlTool (api : URL_API) (searchParams : URLSearchParams)
  : completion (list StepResult * jsstring) :=
  let url := default [] (USP_get searchParams (lit "u")) in
  let order := parseOrder (USP_get searchParams (lit "order")) in
  let selected := parseActive (USP_get searchParams (lit "active")) in
  let configs := parseConfigs searchParams in
  results ← transformResults api url order selected configs;
  mret (results, final_output url results).

(** [resultByKey]: [Object.fromEntries(transformResults.map(r => [r.key,
    r.result]))], a later step of a key replacing an earlier one. *)
Definition resultByKey (results : list StepResult) : gmap jsstring (option jsstring) :=
  foldl (λ m r, <[step_key r := result r]> m) ∅ results.

(** The label of the row of a key, [None] when the row shows none:
    [isSelected && url && !urlInvalid && (<span>{result !== null ? 'applied'
    : 'no match'}</span>)] with [isSelected = selected.has(key)] and
    [result = resultByKey[key]], which is not null when the key has no
    step. *)
Definition row_label (api : URL_API) (url : jsstring) (selected : JSSet)
    (results : list StepResult) (key : jsstring) : completion (option jsstring) :=
  invalid ← urlInvalid api url;
  mret (if Set_has selected key && negb (bool_decide (url = [])) && negb invalid
        then Some (match resultByKey results !! key with
                   | Some None => lit "no match"
                   | _ => lit "applied"
                   end)
        else None).





(** ** The platform's URL class

    The source relies on the platform for [new URL(url)], the [hostname]
    setter and [toString]. The model follows the URL Standard
    (url.spec.whatwg.org): the basic URL parser on an input without a base
    URL, the host parser with the IPv4 and IPv6 parsers, the URL serializer
    and the [hostname] setter, state by state. The parser works on code
    points and writes ASCII.

    One step of the host parser is a parameter of the model: Unicode
    ToASCII (UTS 46) on a domain that, once percent-decoded, has an octet
    above 0x7F or a label that starts with [xn--]. On every other domain
    the standard makes domain-to-ASCII the ASCII lower-casing, as the model
    does. *)

Module URLStandard.

(** *** Code points *)

Definition leading_surrogate (u : N) : bool := (55296 <=? u) && (u <=? 56319).
Definition trailing_surrogate (u : N) : bool := (56320 <=? u) && (u <=? 57343).

(** The code points of a string converted to a [USVString]: a surrogate
    pair is one code point, an unpaired surrogate becomes U+FFFD. *)
Fixpoint code_points (s : jsstring) : list N :=
  match s with
  | [] => []
  | u :: s' =>
      if leading_surrogate u then
        match s' with
        | t :: s'' =>
            if trailing_surrogate t
            then (65536 + (u - 55296) * 1024 + (t - 56320)) :: code_points s''
            else 65533 :: code_points s'
        | [] => [65533]
        end
      else if trailing_surrogate u then 65533 :: code_points s'
      else u :: code_points s'
  end.

(** The conversion of a string to a [USVString]. *)
Definition USVString (s : jsstring) : jsstring := flat_map utf16_encode (code_points s).

Definition ascii_digit (c : N) : bool := (48 <=? c) && (c <=? 57).
Definition ascii_upper_alpha (c : N) : bool := (65 <=? c) && (c <=? 90).
Definition ascii_lower_alpha (c : N) : bool := (97 <=? c) && (c <=? 122).
Definition ascii_alpha (c : N) : bool := ascii_upper_alpha c || ascii_lower_alpha c.
Definition ascii_alphanumeric (c : N) : bool := ascii_digit c || ascii_alpha c.
Definition ascii_lowercase (c : N) : N := if ascii_upper_alpha c then c + 32 else c.
Definition c0_control_or_space (c : N) : bool := c <=? 32.
Definition ascii_tab_or_newline (c : N) : bool := (c =? 9) || (c =? 10) || (c =? 13).

Definition is_slash (c : N) : bool := (c =? 47) || (c =? 92).

(** The prefix of [s] before the first code point that [stop] holds of, and
    the rest from that code point on. *)
Fixpoint span (stop : N → bool) (s : list N) : list N * list N :=
  match s with
  | [] => ([], [])
  | c :: s' =>
      if stop c then ([], s)
      else let '(a, b) := span stop s' in (c :: a, b)
  end.

Fixpoint drop_while (p : N → bool) (s : list N) : list N :=
  match s with
  | [] => []
  | c :: s' => if p c then drop_while p s' else s
  end.

(** Leading and trailing C0 controls and spaces are removed from the input
    of the constructor, ASCII tabs and newlines from every input. *)
Definition strip (s : list N) : list N :=
  reverse (drop_while c0_control_or_space (reverse (drop_while c0_control_or_space s))).

Fixpoint remove_tab_newline (s : list N) : list N :=
  match s with
  | [] => []
  | c :: s' =>
      if ascii_tab_or_newline c then remove_tab_newline s'
      else c :: remove_tab_newline s'
  end.

(** *** Percent-encoding *)

Definition utf8_encode (c : N) : list N :=
  if c <? 128 then [c]
  else if c <? 2048 then [192 + c / 64; 128 + c mod 64]
  else if c <? 65536 then [224 + c / 4096; 128 + (c / 64) mod 64; 128 + c mod 64]
  else [240 + c / 262144; 128 + (c / 4096) mod 64; 128 + (c / 64) mod 64; 128 + c mod 64].

Definition upper_hex (d : N) : N := if d <? 10 then 48 + d else 55 + d.
Definition lower_hex (d : N) : N := if d <? 10 then 48 + d else 87 + d.

Definition percent_encode_byte (b : N) : list N :=
  [PERCENT; upper_hex (b / 16); upper_hex (b mod 16)].

Definition utf8_percent_encode (encode_set : N → bool) (c : N) : list N :=
  if encode_set c then flat_map percent_encode_byte (utf8_encode c) else [c].

Definition one_of (cs : list N) (c : N) : bool := existsb (N.eqb c) cs.

Definition c0_control_set (c : N) : bool := (c <=? 31) || (126 <? c).
Definition fragment_set (c : N) : bool := c0_control_set c || one_of [32; 34; 60; 62; 96] c.
Definition query_set (c : N) : bool := c0_control_set c || one_of [32; 34; 35; 60; 62] c.
Definition special_query_set (c : N) : bool := query_set c || (c =? 39).
Definition path_set (c : N) : bool := query_set c || one_of [63; 94; 96; 123; 125] c.
Definition userinfo_set (c : N) : bool :=
  path_set c || one_of [47; 58; 59; 61; 64; 91; 92; 93; 124] c.

Fixpoint percent_decode (octets : list N) : list N :=
  match octets with
  | [] => []
  | b :: rest =>
      if b =? PERCENT then
        match rest with
        | h :: l :: rest' =>
            match hex_digit h, hex_digit l with
            | Some x, Some y => (16 * x + y) :: percent_decode rest'
            | _, _ => b :: percent_decode rest
            end
        | _ => b :: percent_decode rest
        end
      else b :: percent_decode rest
  end.

(** *** Numbers *)

(** The digits of [n] in a radix, most significant first. *)
Fixpoint digits_of (fuel : nat) (radix n : N) (acc : list N) : list N :=
  let acc := lower_hex (n mod radix) :: acc in
  match fuel with
  | O => acc
  | S fuel' => if n / radix =? 0 then acc else digits_of fuel' radix (n / radix) acc
  end.

Definition number_to_string (radix n : N) : list N :=
  digits_of (N.size_nat n) radix n [].

Definition digit_value (radix c : N) : option N :=
  v ← hex_digit c; if v <? radix then Some v else None.

Fixpoint parse_digits (radix acc : N) (s : list N) : option N :=
  match s with
  | [] => Some acc
  | c :: s' => v ← digit_value radix c; parse_digits radix (acc * radix + v) s'
  end.

(** *** Hosts *)

Inductive Host :=
  | Domain (name : list N)
  | IPv4 (address : N)
  | IPv6 (pieces : list N)
  | OpaqueHost (name : list N)
  | EmptyHost.

Definition forbidden_host_code_point (c : N) : bool :=
  one_of [0; 9; 10; 13; 32; 35; 47; 58; 60; 62; 63; 64; 91; 92; 93; 94; 124] c.

Definition forbidden_domain_code_point (c : N) : bool :=
  forbidden_host_code_point c || (c <=? 31) || (c =? 37) || (c =? 127).

(** The IPv4 number parser: hexadecimal after [0x], octal after [0],
    decimal otherwise. *)
Definition ipv4_number (input : list N) : option N :=
  match input with
  | [] => None
  | c0 :: rest =>
      match rest with
      | [] => parse_digits 10 0 input
      | c1 :: rest' =>
          if (c0 =? 48) && ((c1 =? 120) || (c1 =? 88)) then parse_digits 16 0 rest'
          else if c0 =? 48 then parse_digits 8 0 rest
          else parse_digits 10 0 input
      end
  end.

Definition ends_in_a_number (input : list N) : bool :=
  let parts := split DOT input in
  let parts := match last parts with
               | Some [] => if decide (length parts = 1%nat) then [] else removelast parts
               | _ => parts
               end in
  match last parts with
  | None => false
  | Some l =>
      (negb (bool_decide (l = [])) && forallb ascii_digit l)
      || bool_decide (is_Some (ipv4_number l))
  end.

Fixpoint ipv4_sum (counter : N) (numbers : list N) : N :=
  match numbers with
  | [] => 0
  | n :: numbers' => n * 256 ^ (3 - counter) + ipv4_sum (counter + 1) numbers'
  end.

Definition ipv4_parse (input : list N) : option N :=
  let parts := split DOT input in
  let parts := match last parts with
               | Some [] => if decide (1 < length parts)%nat then removelast parts else parts
               | _ => parts
               end in
  if decide (4 < length parts)%nat then None
  else
    numbers ← mapM ipv4_number parts;
    l ← last numbers;
    let others := removelast numbers in
    if existsb (λ n, 255 <? n) others then None
    else if 256 ^ (5 - N.of_nat (length numbers)) <=? l then None
    else Some (l + ipv4_sum 0 others).

Definition ipv4_serialize (address : N) : list N :=
  number_to_string 10 (address / 16777216) ++ DOT
    :: number_to_string 10 ((address / 65536) mod 256) ++ DOT
    :: number_to_string 10 ((address / 256) mod 256) ++ DOT
    :: number_to_string 10 (address mod 256).

(** At most [n] hexadecimal digits: their value, their number and the rest. *)
Fixpoint read_hex (n : nat) (value : N) (len : nat) (s : list N) : N * nat * list N :=
  match n, s with
  | S n', c :: s' =>
      match hex_digit c with
      | Some v => read_hex n' (value * 16 + v) (S len) s'
      | None => (value, len, s)
      end
  | _, _ => (value, len, s)
  end.

(** One decimal number of an IPv4 address inside an IPv6 one: no leading
    zero, at most 255. *)
Fixpoint read_ipv4_piece (piece : option N) (s : list N) : option (N * list N) :=
  match s with
  | c :: s' =>
      if ascii_digit c then
        match piece with
        | None => read_ipv4_piece (Some (c - 48)) s'
        | Some 0 => None
        | Some p =>
            let p := p * 10 + (c - 48) in
            if 255 <? p then None else read_ipv4_piece (Some p) s'
        end
      else (λ p, (p, s)) <$> piece
  | [] => (λ p, (p, s)) <$> piece
  end.

Fixpoint ipv4_in_ipv6 (fuel : nat) (seen : nat) (s : list N) : option (list N) :=
  match fuel, s with
  | _, [] => Some []
  | O, _ => None
  | S fuel', c :: s' =>
      s1 ← (if decide (0 < seen)%nat
            then if (c =? DOT) && bool_decide (seen < 4)%nat then Some s' else None
            else Some s);
      '(p, rest) ← read_ipv4_piece None s1;
      ps ← ipv4_in_ipv6 fuel' (S seen) rest;
      Some (p :: ps)
  end.

(** The loop of the IPv6 parser: the pieces read so far and the index at
    which [::] was met. *)
Fixpoint ipv6_loop (fuel : nat) (pieces : list N) (compress : option nat) (s : list N)
  : option (list N * option nat) :=
  match fuel, s with
  | _, [] => Some (pieces, compress)
  | O, _ => None
  | S fuel', c :: s' =>
      if decide (length pieces = 8%nat) then None
      else if c =? COLON then
        match compress with
        | Some _ => None
        | None => ipv6_loop fuel' (pieces ++ [0]) (Some (S (length pieces))) s'
        end
      else
        let '(value, len, rest) := read_hex 4 0 0 s in
        match rest with
        | [] => Some (pieces ++ [value], compress)
        | d :: rest' =>
            if d =? DOT then
              if decide (len = 0%nat) then None
              else if decide (6 < length pieces)%nat then None
              else
                match ipv4_in_ipv6 (length s) 0 s with
                | Some [a; b; c; d] => Some (pieces ++ [a * 256 + b; c * 256 + d], compress)
                | _ => None
                end
            else if d =? COLON then
              match rest' with
              | [] => None
              | _ => ipv6_loop fuel' (pieces ++ [value]) compress rest'
              end
            else None
        end
  end.

Definition ipv6_parse (input : list N) : option (list N) :=
  '(pieces, compress) ←
    match input with
    | c :: rest =>
        if c =? COLON then
          match rest with
          | c' :: rest' =>
              if c' =? COLON then ipv6_loop (length input) [0] (Some 1%nat) rest' else None
          | [] => None
          end
        else ipv6_loop (length input) [] None input
    | [] => Some ([], None)
    end;
  match compress with
  | Some k =>
      Some (take k pieces ++ replicate (8 - length pieces) 0 ++ drop k pieces)
  | None => if decide (length pieces = 8%nat) then Some pieces else None
  end.

Fixpoint zero_run (pieces : list N) : nat :=
  match pieces with
  | 0 :: pieces' => S (zero_run pieces')
  | _ => O
  end.

(** The start of the first longest run of more than one zero piece. *)
Fixpoint find_compress (i : nat) (pieces : list N) (best : option (nat * nat))
  : option nat :=
  match pieces with
  | [] => fst <$> best
  | _ :: pieces' =>
      let n := zero_run pieces in
      let best :=
        if decide (1 < n ∧ default 1 (snd <$> best) < n)%nat then Some (i, n) else best in
      find_compress (S i) pieces' best
  end.

Fixpoint ipv6_pieces (i : nat) (compress : option nat) (ignore0 : bool) (pieces : list N)
  : list N :=
  match pieces with
  | [] => []
  | p :: pieces' =>
      if ignore0 && (p =? 0) then ipv6_pieces (S i) compress ignore0 pieces'
      else if decide (compress = Some i) then
        (if decide (i = 0%nat) then [COLON; COLON] else [COLON])
          ++ ipv6_pieces (S i) compress true pieces'
      else
        number_to_string 16 p
          ++ (if decide (i = 7%nat) then [] else [COLON])
          ++ ipv6_pieces (S i) compress false pieces'
  end.

Definition ipv6_serialize (pieces : list N) : list N :=
  ipv6_pieces 0 (find_compress 0 pieces None) false pieces.

Definition host_serialize (h : Host) : list N :=
  match h with
  | Domain name | OpaqueHost name => name
  | IPv4 address => ipv4_serialize address
  | IPv6 pieces => 91 :: ipv6_serialize pieces ++ [93]
  | EmptyHost => []
  end.

Definition opaque_host_parse (input : list N) : option Host :=
  if existsb forbidden_host_code_point input then None
  else match input with
       | [] => Some EmptyHost
       | _ => Some (OpaqueHost (flat_map (utf8_percent_encode c0_control_set) input))
       end.

Definition punycode_label (l : list N) : bool :=
  match l with
  | x :: n :: h1 :: h2 :: _ =>
      (ascii_lowercase x =? 120) && (ascii_lowercase n =? 110) && (h1 =? 45) && (h2 =? 45)
  | _ => false
  end.

(** *** URL records *)

Inductive Path :=
  | OpaquePath (p : list N)
  | PathSegments (segments : list (list N)).

Record url_record := {
  url_scheme : list N;
  url_username : list N;
  url_password : list N;
  url_host : option Host;
  url_port : option N;
  url_path : Path;
  url_query : option (list N);
  url_fragment : option (list N)
}.

Definition SPECIAL_SCHEMES : list (list N * option N) :=
  [(lit "ftp", Some 21); (lit "file", None); (lit "http", Some 80);
   (lit "https", Some 443); (lit "ws", Some 80); (lit "wss", Some 443)].

Definition is_special (scheme : list N) : bool :=
  bool_decide (scheme ∈ SPECIAL_SCHEMES.*1).

Definition default_port (scheme : list N) : option N :=
  (list_find (λ sp, sp.1 = scheme) SPECIAL_SCHEMES) ≫= (λ r, r.2.2).

Section host_parser.

(** Unicode ToASCII on the octets of a percent-decoded domain that is not
    ASCII or has a punycode label. *)
Variable unicode_ToASCII : list N → option (list N).

Definition domain_to_ASCII (octets : list N) : option (list N) :=
  if forallb (λ b, b <? 128) octets && negb (existsb punycode_label (split DOT octets))
  then Some (ascii_lowercase <$> octets)
  else unicode_ToASCII octets.

Definition host_parse (isOpaque : bool) (input : list N) : option Host :=
  if bool_decide (head input = Some 91) then
    if bool_decide (last input = Some 93)
    then IPv6 <$> ipv6_parse (removelast (drop 1 input))
    else None
  else if isOpaque then opaque_host_parse input
  else
    asciiDomain ← domain_to_ASCII (percent_decode (flat_map utf8_encode input));
    if bool_decide (asciiDomain = []) || existsb forbidden_domain_code_point asciiDomain
    then None
    else if ends_in_a_number asciiDomain then IPv4 <$> ipv4_parse asciiDomain
    else Some (Domain asciiDomain).

(** *** The states of the basic URL parser *)

(** Scheme start state and scheme state. Without a base URL the no scheme
    state is a failure. *)
Definition scheme_code_point (c : N) : bool :=
  ascii_alphanumeric c || (c =? 43) || (c =? 45) || (c =? 46).

Fixpoint scheme_state (buffer : list N) (s : list N) : option (list N * list N) :=
  match s with
  | [] => None
  | c :: s' =>
      if scheme_code_point c then scheme_state (buffer ++ [ascii_lowercase c]) s'
      else if c =? COLON then Some (buffer, s')
      else None
  end.

Definition scheme_start_state (s : list N) : option (list N * list N) :=
  match s with
  | c :: s' => if ascii_alpha c then scheme_state [ascii_lowercase c] s' else None
  | [] => None
  end.

(** Fragment state *)
Definition fragment_state (s : list N) : list N :=
  flat_map (utf8_percent_encode fragment_set) s.

(** Query state: the query, and the fragment after it. *)
Definition query_state (special : bool) (s : list N)
  : option (list N) * option (list N) :=
  let '(buffer, rest) := span (λ c, c =? HASH) s in
  (Some (flat_map (utf8_percent_encode (if special then special_query_set else query_set))
           buffer),
   match rest with
   | [] => None
   | _ :: f => Some (fragment_state f)
   end).

Definition single_dot_segment (b : list N) : bool :=
  bool_decide (b = lit "." ∨ ascii_lowercase <$> b = lit "%2e").

Definition double_dot_segment (b : list N) : bool :=
  bool_decide (ascii_lowercase <$> b ∈ [lit ".."; lit ".%2e"; lit "%2e."; lit "%2e%2e"]).

Definition windows_drive_letter (b : list N) : bool :=
  match b with
  | [a; c] => ascii_alpha a && ((c =? COLON) || (c =? 124))
  | _ => false
  end.

Definition normalized_windows_drive_letter (b : list N) : bool :=
  match b with
  | [a; c] => ascii_alpha a && (c =? COLON)
  | _ => false
  end.

Definition shorten (file : bool) (path : list (list N)) : list (list N) :=
  match path with
  | [p] => if file && normalized_windows_drive_letter p then path else []
  | _ => removelast path
  end.

(** What the path state does with its buffer at the end of a segment;
    [slash] tells whether the segment ends at a slash. *)
Definition end_of_segment (file slash : bool) (buffer : list N) (path : list (list N))
  : list (list N) :=
  if double_dot_segment buffer then
    let path := shorten file path in
    if slash then path else path ++ [[]]
  else if single_dot_segment buffer then
    if slash then path else path ++ [[]]
  else
    let buffer :=
      match buffer, path with
      | [a; _], [] => if file && windows_drive_letter buffer then [a; COLON] else buffer
      | _, _ => buffer
      end in
    path ++ [buffer].

Abbreviation url_tail := (list (list N) * option (list N) * option (list N))%type.

(** Path state *)
Fixpoint path_state (file special : bool) (buffer : list N) (path : list (list N))
    (s : list N) : url_tail :=
  match s with
  | [] => (end_of_segment file false buffer path, None, None)
  | c :: s' =>
      if (c =? SLASH) || (special && (c =? 92)) then
        path_state file special [] (end_of_segment file true buffer path) s'
      else if c =? QUESTION_MARK then
        let '(q, f) := query_state special s' in
        (end_of_segment file false buffer path, q, f)
      else if c =? HASH then
        (end_of_segment file false buffer path, None, Some (fragment_state s'))
      else path_state file special (buffer ++ utf8_percent_encode path_set c) path s'
  end.

(** Path start state *)
Definition path_start_state (file special : bool) (s : list N) : url_tail :=
  match s with
  | [] => if special then path_state file special [] [] [] else ([], None, None)
  | c :: s' =>
      if special then
        if is_slash c then path_state file special [] [] s'
        else path_state file special [] [] s
      else if c =? QUESTION_MARK then
        let '(q, f) := query_state special s' in ([], q, f)
      else if c =? HASH then ([], None, Some (fragment_state s'))
      else if c =? SLASH then path_state file special [] [] s'
      else path_state file special [] [] s
  end.

(** Opaque path state *)
Fixpoint opaque_path_state (s : list N) : list N * option (list N) * option (list N) :=
  match s with
  | [] => ([], None, None)
  | c :: s' =>
      if c =? QUESTION_MARK then
        let '(q, f) := query_state false s' in ([], q, f)
      else if c =? HASH then ([], None, Some (fragment_state s'))
      else
        let encoded :=
          if c =? 32 then
            match s' with
            | d :: _ => if (d =? QUESTION_MARK) || (d =? HASH) then lit "%20" else [c]
            | [] => [c]
            end
          else utf8_percent_encode c0_control_set c in
        let '(p, q, f) := opaque_path_state s' in
        (encoded ++ p, q, f)
  end.

Definition is_delimiter (special : bool) (c : N) : bool :=
  (c =? SLASH) || (c =? QUESTION_MARK) || (c =? HASH) || (special && (c =? 92)).

(** The buffer of the host state: up to a colon outside brackets, or to the
    end of the authority. *)
Fixpoint span_host (special insideBrackets : bool) (s : list N) : list N * list N :=
  match s with
  | [] => ([], [])
  | c :: s' =>
      if ((c =? COLON) && negb insideBrackets) || is_delimiter special c then ([], s)
      else
        let insideBrackets :=
          if c =? 91 then true else if c =? 93 then false else insideBrackets in
        let '(a, b) := span_host special insideBrackets s' in (c :: a, b)
  end.

(** Port state: the port, [None] for the default one of the scheme, and
    the rest of the input. *)
Definition port_state (scheme : list N) (special : bool) (s : list N)
  : option (option N * list N) :=
  let '(buffer, rest) := span (λ c, negb (ascii_digit c)) s in
  if match rest with [] => true | c :: _ => is_delimiter special c end then
    match buffer with
    | [] => Some (None, rest)
    | _ =>
        port ← parse_digits 10 0 buffer;
        if 65535 <? port then None
        else Some (if decide (default_port scheme = Some port) then None else Some port,
                   rest)
    end
  else None.

Definition with_tail (scheme username password : list N) (host : option Host)
    (port : option N) (t : url_tail) : url_record :=
  {| url_scheme := scheme; url_username := username; url_password := password;
     url_host := host; url_port := port;
     url_path := PathSegments t.1.1; url_query := t.1.2; url_fragment := t.2 |}.

(** Host state, then port state and path start state *)
Definition host_state (scheme username password : list N) (s : list N)
  : option url_record :=
  let special := is_special scheme in
  let '(buffer, rest) := span_host special false s in
  match rest with
  | c :: rest' =>
      if c =? COLON then
        match buffer with
        | [] => None
        | _ =>
            host ← host_parse (negb special) buffer;
            '(port, rest) ← port_state scheme special rest';
            Some (with_tail scheme username password (Some host) port
                    (path_start_state false special rest))
        end
      else if special && bool_decide (buffer = []) then None
      else
        host ← host_parse (negb special) buffer;
        Some (with_tail scheme username password (Some host) None
                (path_start_state false special rest))
  | [] =>
      if special && bool_decide (buffer = []) then None
      else
        host ← host_parse (negb special) buffer;
        Some (with_tail scheme username password (Some host) None
                (path_start_state false special rest))
  end.

(** The input before its last [c], and after it. *)
Fixpoint split_at_last (c : N) (s : list N) : option (list N * list N) :=
  match s with
  | [] => None
  | x :: s' =>
      match split_at_last c s' with
      | Some (a, b) => Some (x :: a, b)
      | None => if x =? c then Some ([], s') else None
      end
  end.

(** Authority state: the credentials are what stands before the last [@]
    of the authority, the password after their first colon. *)
Definition authority_state (scheme : list N) (s : list N) : option url_record :=
  let special := is_special scheme in
  let '(authority, rest) := span (is_delimiter special) s in
  match split_at_last 64 authority with
  | Some (credentials, hostport) =>
      match hostport with
      | [] => None
      | _ =>
          let '(user, pass) := span (λ c, c =? COLON) credentials in
          host_state scheme
            (flat_map (utf8_percent_encode userinfo_set) user)
            (flat_map (utf8_percent_encode userinfo_set) (drop 1 pass))
            (hostport ++ rest)
      end
  | None => host_state scheme [] [] s
  end.

(** The host of a file URL: [localhost] is the empty host. *)
Definition file_host (h : Host) : Host :=
  match h with
  | Domain name => if decide (name = lit "localhost") then EmptyHost else h
  | _ => h
  end.

(** File state, file slash state and file host state *)
Definition file_host_state (s : list N) : option url_record :=
  let scheme := lit "file" in
  let '(buffer, rest) := span (λ c, is_slash c || (c =? QUESTION_MARK) || (c =? HASH)) s in
  if windows_drive_letter buffer then
    Some (with_tail scheme [] [] (Some EmptyHost) None (path_state true true buffer [] rest))
  else
    match buffer with
    | [] =>
        Some (with_tail scheme [] [] (Some EmptyHost) None (path_start_state true true rest))
    | _ =>
        host ← host_parse false buffer;
        Some (with_tail scheme [] [] (Some (file_host host)) None
                (path_start_state true true rest))
    end.

Definition file_state (s : list N) : option url_record :=
  let scheme := lit "file" in
  let in_path s :=
    Some (with_tail scheme [] [] (Some EmptyHost) None (path_state true true [] [] s)) in
  match s with
  | c :: s' =>
      if is_slash c then
        match s' with
        | c' :: s'' => if is_slash c' then file_host_state s'' else in_path s'
        | [] => in_path s'
        end
      else in_path s
  | [] => in_path s
  end.

(** The basic URL parser on an input without a base URL *)
Definition basic_URL_parser (input : list N) : option url_record :=
  let input := remove_tab_newline (strip input) in
  '(scheme, rest) ← scheme_start_state input;
  if decide (scheme = lit "file") then file_state rest
  else if is_special scheme then
    (* special authority slashes state, special authority ignore slashes state *)
    authority_state scheme (drop_while is_slash rest)
  else
    match rest with
    | c :: rest' =>
        if c =? SLASH then
          (* path or authority state *)
          match rest' with
          | c' :: rest'' =>
              if c' =? SLASH then authority_state scheme rest''
              else Some (with_tail scheme [] [] None None
                           (path_state false false [] [] rest'))
          | [] => Some (with_tail scheme [] [] None None (path_state false false [] [] rest'))
          end
        else
          let '(p, q, f) := opaque_path_state rest in
          Some {| url_scheme := scheme; url_username := []; url_password := [];
                  url_host := None; url_port := None; url_path := OpaquePath p;
                  url_query := q; url_fragment := f |}
    | [] =>
        Some {| url_scheme := scheme; url_username := []; url_password := [];
                url_host := None; url_port := None; url_path := OpaquePath [];
                url_query := None; url_fragment := None |}
    end.

(** The basic URL parser on [input] with the hostname state as state
    override: the host it gives the URL, or [None] when it returns early or
    fails, which both leave the URL as it is. *)
Definition hostname_state_override (u : url_record) (input : list N) : option Host :=
  let input := remove_tab_newline input in
  if decide (url_scheme u = lit "file") then
    (* file host state *)
    let '(buffer, _) := span (λ c, is_slash c || (c =? QUESTION_MARK) || (c =? HASH)) input in
    match buffer with
    | [] => Some EmptyHost
    | _ =>
        host ← host_parse false buffer;
        Some (file_host host)
    end
  else
    let special := is_special (url_scheme u) in
    let '(buffer, rest) := span_host special false input in
    let credentials_or_port :=
      negb (bool_decide (url_username u = [] ∧ url_password u = []))
      || bool_decide (is_Some (url_port u)) in
    if match rest with c :: _ => c =? COLON | [] => false end then None
    else if special && bool_decide (buffer = []) then None
    else if bool_decide (buffer = []) && credentials_or_port then None
    else host_parse (negb special) buffer.

(** The [hostname] setter: nothing happens on a URL with an opaque path;
    on another one the parser is run on the value, and only the host of the
    URL can change. *)
Definition new_host (u : url_record) (value : jsstring) : option Host :=
  match url_path u with
  | OpaquePath _ => url_host u
  | PathSegments _ =>
      match hostname_state_override u (code_points value) with
      | Some h => Some h
      | None => url_host u
      end
  end.

Definition set_host (u : url_record) (h : option Host) : url_record :=
  {| url_scheme := url_scheme u; url_username := url_username u;
     url_password := url_password u; url_host := h; url_port := url_port u;
     url_path := url_path u; url_query := url_query u; url_fragment := url_fragment u |}.

Definition set_hostname (u : url_record) (value : jsstring) : url_record :=
  set_host u (new_host u value).

(** *** The URL serializer and the getters *)

Definition path_serialize (p : Path) : list N :=
  match p with
  | OpaquePath p => p
  | PathSegments segments => flat_map (λ seg, SLASH :: seg) segments
  end.

Definition serialize (u : url_record) : list N :=
  url_scheme u ++ COLON
    :: match url_host u with
       | Some h =>
           lit "//"
             ++ (if bool_decide (url_username u = [] ∧ url_password u = []) then []
                 else url_username u
                        ++ match url_password u with
                           | [] => []
                           | p => COLON :: p
                           end ++ [64])
             ++ host_serialize h
             ++ match url_port u with
                | Some p => COLON :: number_to_string 10 p
                | None => []
                end
       | None =>
           match url_path u with
           | PathSegments ([] :: _ :: _) => lit "/."
           | _ => []
           end
       end
    ++ path_serialize (url_path u)
    ++ match url_query u with Some q => QUESTION_MARK :: q | None => [] end
    ++ match url_fragment u with Some f => HASH :: f | None => [] end.

Definition hostname (u : url_record) : jsstring :=
  from_option host_serialize [] (url_host u).

Definition pathname (u : url_record) : jsstring := path_serialize (url_path u).

Definition search (u : url_record) : jsstring :=
  match url_query u with
  | None | Some [] => []
  | Some q => QUESTION_MARK :: q
  end.

Definition hash (u : url_record) : jsstring :=
  match url_fragment u with
  | None | Some [] => []
  | Some f => HASH :: f
  end.

(** [new URL(url)] throws a [TypeError] when the parser fails. *)
Definition new_URL (url : jsstring) : completion url_record :=
  match basic_URL_parser (code_points url) with
  | Some u => Normal u
  | None => Throw TypeError
  end.

End host_parser.

End URLStandard.

(** The [URL] class of the platform as the page uses it. *)
Definition URL_standard (unicode_ToASCII : list N → option (list N)) : URL_API := {|
  URL := URLStandard.url_record;
  URL_new := URLStandard.new_URL unicode_ToASCII;
  URL_set_hostname := URLStandard.set_hostname unicode_ToASCII;
  URL_toString := URLStandard.serialize;
  URL_pathname := URLStandard.pathname;
  URL_search := URLStandard.search;
  URL_hash := URLStandard.hash;
  URL_set_hostname_pathname := λ _ _, eq_refl;
  URL_set_hostname_search := λ _ _, eq_refl;
  URL_set_hostname_hash := λ _ _, eq_refl
|}.

(** The instance on which the page is run on concrete inputs. Their hosts
    are ASCII without punycode labels: Unicode ToASCII is not consulted, and
    the instance lets it fail. *)
Definition platform_URL : URL_API := URL_standard (λ _, None).


(** ** Notions of the statements *)

(** Query strings of the examples. *)
Definition query (l : list (string * string)) : URLSearchParams :=
  (λ p, (lit p.1, lit p.2)) <$> l.

(** The segments of the raw parameter: none when it is absent. *)
Definition segments (param : option jsstring) : list jsstring :=
  match param with
  | None => []
  | Some raw => split COMMA raw
  end.

(** The split of a parameter name at its first dot, as the loop does it. *)
Definition decode_param (param : jsstring) : option (jsstring * jsstring) :=
  let dotIdx := indexOf param DOT in
  if decide (dotIdx = (-1)%Z) then None
  else Some (slice_to param dotIdx, slice_from param (dotIdx + 1)).

(** The input of step [i]: the base input for the first step, the output of
    the step before for the others. *)
Definition step_input (url : jsstring) (results : list StepResult) (i : nat) : jsstring :=
  match i with
  | O => url
  | S j => match results !! j with
           | Some r => output r
           | None => url
           end
  end.

(** Step [i] of a run is the call of the transform of its key on the input
    of the step, with the config of the key; its output is the result, or
    the input when the result is null. *)
Definition step_ok (api : URL_API) (url : jsstring) (configs : JSObject)
    (results : list StepResult) (i : nat) (r : StepResult) : Prop :=
  ∃ t, TRANSFORM_MAP !! step_key r = Some t
       ∧ fn t api (step_input url results i) (or_empty_record (obj_get configs (step_key r)))
         = Normal (result r)
       ∧ output r = default (step_input url results i) (result r).

(** The values of the parameters of a name, in the order of the entries. *)
Definition values_of (params : URLSearchParams) (name : jsstring) : list jsstring :=
  snd <$> filter (λ nv, nv.1 = name) params.

(** Field [f] of the record that the config object has for [k]. *)
Definition config_field (configs : JSObject) (k f : jsstring) : option jsstring :=
  own configs !! k ≫= (.!! f).

(** The value that [toggle] gives the parameter [active] for a set, [None]
    when it deletes the parameter. *)
Definition active_param (s : JSSet) : option jsstring :=
  if decide (0 < Set_size s)%nat then Some (join COMMA s) else None.

(** No parameter name has, before its first dot, a name inherited from
    [Object.prototype]. *)
Definition plain_names (params : URLSearchParams) : Prop :=
  Forall (λ e, ∀ k f, decode_param e.1 = Some (k, f) → k ∉ OBJECT_PROTOTYPE_KEYS) params.

(** What [hostnameReplace] returns on the config decoded from a query. *)
Definition hostnameReplace_result (api : URL_API) (params : URLSearchParams)
    (url : jsstring) : option jsstring :=
  match last (values_of params (lit "hostnameReplace.to")) with
  | Some (c :: to) =>
      match URL_new api url with
      | Normal parsed => Some (URL_toString api (URL_set_hostname api parsed (c :: to)))
      | Throw _ => None
      end
  | _ => None
  end.

(** The schemes of the platform with a host and a default port. *)
Definition NETWORK_SCHEMES : list jsstring :=
  [lit "http"; lit "https"; lit "ws"; lit "wss"; lit "ftp"].

(** ASCII letters, digits and the code points of [-._~!$&()*+,;=:@%]: the
    parser leaves them as they are in a path segment, a query and a
    fragment. *)
Definition url_code_point (c : N) : bool :=
  URLStandard.ascii_alphanumeric c
  || URLStandard.one_of [45; 46; 95; 126; 33; 36; 38; 40; 41; 42; 43; 44; 59; 61; 58; 64; 37] c.

Definition domain_code_point (c : N) : bool :=
  URLStandard.ascii_lower_alpha c || URLStandard.ascii_digit c || (c =? 45) || (c =? DOT).

(** A domain in lower case: letters, digits, hyphens and dots, without a
    label that starts with [xn--], and not ending in a number. *)
Definition plain_domain (h : jsstring) : bool :=
  negb (bool_decide (h = [])) && forallb domain_code_point h
  && negb (existsb URLStandard.punycode_label (split DOT h))
  && negb (URLStandard.ends_in_a_number h).

(** A path segment that needs no escape and is no dot segment. *)
Definition plain_segment (s : jsstring) : bool :=
  forallb url_code_point s
  && negb (URLStandard.single_dot_segment s) && negb (URLStandard.double_dot_segment s).

(** A query or a fragment that needs no escape. *)
Definition plain_query (q : jsstring) : bool :=
  forallb (λ c, url_code_point c || (c =? SLASH) || (c =? QUESTION_MARK)) q.

(** The string [scheme://host/segment/...?query#fragment]. *)
Definition url_string (scheme host : jsstring) (segments : list jsstring)
    (q f : option jsstring) : jsstring :=
  scheme ++ lit "://" ++ host ++ flat_map (λ s, SLASH :: s) segments
    ++ from_option (cons QUESTION_MARK) [] q ++ from_option (cons HASH) [] f.

(** Such a string as the serializer writes it: a scheme with a host, a
    plain domain, plain segments, query and fragment. *)
Definition serialized_form (scheme host : jsstring) (segments : list jsstring)
    (q f : option jsstring) : Prop :=
  scheme ∈ NETWORK_SCHEMES ∧ plain_domain host = true
  ∧ Forall (λ s, plain_segment s = true) segments
  ∧ (∀ x, q = Some x → plain_query x = true)
  ∧ (∀ x, f = Some x → plain_query x = true).

(** The path of a URL with a host is never empty. *)
Definition path_of (segments : list jsstring) : list jsstring :=
  match segments with
  | [] => [[]]
  | _ => segments
  end.

(** * Properties *)

(** ** The registry *)

Lemma ALL_KEYS_eq : ALL_KEYS = [lit "stripAwsTracking"; lit "hostnameReplace"].
Proof. reflexivity. Qed.

Lemma ALL_KEYS_NoDup : NoDup ALL_KEYS.
Proof. apply (bool_decide_unpack _). vm_compute. exact I. Qed.

Lemma TRANSFORM_MAP_own (k : jsstring) : is_Some (TRANSFORM_MAP !! k) ↔ k ∈ ALL_KEYS.
Proof.
  unfold TRANSFORM_MAP, ALL_KEYS, TRANSFORMS. cbn [foldl fmap list_fmap key].
  rewrite !lookup_insert, lookup_empty.
  repeat case_decide; subst.
  - split; [intros _; set_solver | eauto].
  - split; [intros _; set_solver | eauto].
  - split; [intros [? [=]] | set_solver].
Qed.

Lemma TRANSFORM_MAP_key (k : jsstring) (t : TransformDef) :
  TRANSFORM_MAP !! k = Some t → key t = k ∧ t ∈ TRANSFORMS.
Proof.
  unfold TRANSFORM_MAP, TRANSFORMS. cbn [foldl].
  rewrite !lookup_insert, lookup_empty.
  repeat case_decide; intros [= <-]; subst; split; try done; set_solver.
Qed.

Lemma TRANSFORM_MAP_stripAwsTracking (t : TransformDef) :
  TRANSFORM_MAP !! lit "stripAwsTracking" = Some t → fn t = stripAwsTracking_fn.
Proof.
  intros [Hkey Ht]%TRANSFORM_MAP_key. unfold TRANSFORMS in Ht.
  rewrite !elem_of_cons, elem_of_nil in Ht. destruct Ht as [-> | [-> | []]]; [done |].
  cbn [key] in Hkey. vm_compute in Hkey. discriminate.
Qed.

Lemma TRANSFORM_MAP_hostnameReplace (t : TransformDef) :
  TRANSFORM_MAP !! lit "hostnameReplace" = Some t → fn t = hostnameReplace_fn.
Proof.
  intros [Hkey Ht]%TRANSFORM_MAP_key. unfold TRANSFORMS in Ht.
  rewrite !elem_of_cons, elem_of_nil in Ht. destruct Ht as [-> | [-> | []]]; [| done].
  cbn [key] in Hkey. vm_compute in Hkey. discriminate.
Qed.

Lemma in_TRANSFORM_MAP_spec (k : jsstring) :
  in_TRANSFORM_MAP k ↔ k ∈ ALL_KEYS ∨ k ∈ OBJECT_PROTOTYPE_KEYS.
Proof.
  unfold in_TRANSFORM_MAP.
  rewrite orb_True, !bool_decide_spec, TRANSFORM_MAP_own. done.
Qed.

Lemma ALL_KEYS_in_TRANSFORM_MAP (k : jsstring) : k ∈ ALL_KEYS → in_TRANSFORM_MAP k.
Proof. rewrite in_TRANSFORM_MAP_spec. auto. Qed.

Lemma ALL_KEYS_not_inherited (k : jsstring) : k ∈ ALL_KEYS → k ∉ OBJECT_PROTOTYPE_KEYS.
Proof.
  rewrite ALL_KEYS_eq, !elem_of_cons, elem_of_nil.
  intros [-> | [-> | []]]; apply (bool_decide_unpack _); vm_compute; exact I.
Qed.

Lemma ALL_KEYS_not_PROTO (k : jsstring) : k ∈ ALL_KEYS → k ≠ PROTO.
Proof.
  intros Hk ->. apply (ALL_KEYS_not_inherited _ Hk).
  apply (bool_decide_unpack _). vm_compute. exact I.
Qed.

Lemma ALL_KEYS_no_dot (k : jsstring) : k ∈ ALL_KEYS → DOT ∉ k.
Proof.
  rewrite ALL_KEYS_eq, !elem_of_cons, elem_of_nil.
  intros [-> | [-> | []]]; apply (bool_decide_unpack _); vm_compute; exact I.
Qed.

(** ** [parseOrder] *)

Section completion_of_an_order.
Context {A : Type} `{EqDecision A}.
Implicit Types all keys : list A.

(** Keys of [all] in any order, followed by the keys of [all] they miss:
    a permutation of [all]. *)
Lemma complete_Permutation all keys :
  NoDup all → NoDup keys → keys ⊆ all →
  keys ++ filter (.∉ keys) all ≡ₚ all.
Proof.
  intros Hall Hkeys Hsub. apply NoDup_Permutation; [| done |].
  - apply NoDup_app. split_and!; [done | | by apply NoDup_filter].
    intros x Hx [Hnot _]%list_elem_of_filter. done.
  - intros x. rewrite elem_of_app, list_elem_of_filter.
    destruct (decide (x ∈ keys)); naive_solver.
Qed.
End completion_of_an_order.

Lemma filter_ext_in {A} (P Q : A → Prop) `{∀ x, Decision (P x)} `{∀ x, Decision (Q x)}
    (l : list A) :
  (∀ x, x ∈ l → P x ↔ Q x) → filter P l = filter Q l.
Proof.
  induction l as [| x l IH]; intros HPQ; [done |].
  rewrite !filter_cons.
  rewrite IH by (intros; apply HPQ; set_solver).
  destruct (decide (P x)), (decide (Q x)); try done; exfalso;
    (pose proof (HPQ x ltac:(set_solver)); tauto).
Qed.

(** What [parseOrder] computes, for every parameter: the segments that are
    properties of [TRANSFORM_MAP], each as often as it occurs, then the keys
    of [ALL_KEYS] not among them. *)
Lemma parseOrder_unfold (param : option jsstring) :
  let keys := filter (λ k, in_TRANSFORM_MAP k) (segments param) in
  parseOrder param = keys ++ filter (.∉ keys) ALL_KEYS.
Proof.
  destruct param as [[| c raw] |]; cbn [parseOrder segments].
  - cbn. done.
  - f_equal. apply filter_ext_in. intros k _. unfold includes.
    rewrite negb_True, bool_decide_spec. done.
  - cbn. done.
Qed.

(** No key is ever omitted, whatever the parameter. *)
Lemma parseOrder_total (param : option jsstring) (k : jsstring) :
  k ∈ ALL_KEYS → k ∈ parseOrder param.
Proof.
  intros Hk. rewrite parseOrder_unfold. cbn zeta.
  rewrite elem_of_app, !list_elem_of_filter.
  destruct (decide (k ∈ segments param)) as [Hin | Hout].
  - left. split; [by apply ALL_KEYS_in_TRANSFORM_MAP | done].
  - right. split; [| done]. by intros [_ ?].
Qed.

(** C1, as the code has it. For every raw [order] parameter (absent and empty
    included) whose comma-separated segments name no property inherited from
    [Object.prototype], [parseOrder] returns the keys of [ALL_KEYS] that the
    parameter names, in the order and as often as it names them, then the
    keys of [ALL_KEYS] it does not name, in registration order; the result
    is a permutation of [ALL_KEYS] (same set, no duplicates, same length)
    exactly when the parameter names no key twice. *)
Theorem parseOrder_permutation (param : option jsstring) :
  Forall (.∉ OBJECT_PROTOTYPE_KEYS) (segments param) →
  parseOrder param =
    filter (.∈ ALL_KEYS) (segments param) ++ filter (.∉ segments param) ALL_KEYS
  ∧ (NoDup (filter (.∈ ALL_KEYS) (segments param)) ↔ parseOrder param ≡ₚ ALL_KEYS)
  ∧ (parseOrder param ≡ₚ ALL_KEYS →
     NoDup (parseOrder param) ∧ length (parseOrder param) = length ALL_KEYS).
Proof.
  intros Hown.
  assert (Hkeys : filter (λ k, in_TRANSFORM_MAP k) (segments param)
                  = filter (.∈ ALL_KEYS) (segments param)).
  { apply filter_ext_in. intros k Hk. rewrite in_TRANSFORM_MAP_spec.
    rewrite Forall_forall in Hown. specialize (Hown k Hk). tauto. }
  assert (Heq : parseOrder param =
    filter (.∈ ALL_KEYS) (segments param) ++ filter (.∉ segments param) ALL_KEYS).
  { rewrite parseOrder_unfold. cbn zeta. rewrite Hkeys. f_equal.
    apply filter_ext_in. intros k Hk. rewrite list_elem_of_filter. tauto. }
  assert (Hnodup : parseOrder param ≡ₚ ALL_KEYS → NoDup (parseOrder param)).
  { intros ->. apply ALL_KEYS_NoDup. }
  split_and!; [done | split | ].
  - intros Hnd. rewrite parseOrder_unfold. cbn zeta. rewrite Hkeys.
    apply complete_Permutation; [apply ALL_KEYS_NoDup | done |].
    intros k [Hk _]%list_elem_of_filter. done.
  - intros Hperm%Hnodup. rewrite Heq in Hperm. by apply NoDup_app in Hperm as [? _].
  - intros Hperm. split; [by apply Hnodup | by rewrite Hperm].
Qed.

(** Scenario E, through the theorem: a parameter that names one key. *)
Lemma parseOrder_permutation_witness :
  Forall (.∉ OBJECT_PROTOTYPE_KEYS) (segments (Some (lit "hostnameReplace")))
  ∧ parseOrder (Some (lit "hostnameReplace"))
    = [lit "hostnameReplace"; lit "stripAwsTracking"].
Proof.
  assert (Hown : Forall (.∉ OBJECT_PROTOTYPE_KEYS) (segments (Some (lit "hostnameReplace")))).
  { apply (bool_decide_unpack _). vm_compute. exact I. }
  split; [exact Hown |].
  exact (proj1 (parseOrder_permutation (Some (lit "hostnameReplace")) Hown)).
Defined.

(** Counterexample to C1 as the specification states it: a key that the
    parameter names twice stays twice in the result, which is no permutation
    of [ALL_KEYS]. *)
Lemma parseOrder_keeps_duplicates :
  parseOrder (Some (lit "stripAwsTracking,stripAwsTracking"))
  = [lit "stripAwsTracking"; lit "stripAwsTracking"; lit "hostnameReplace"]
  ∧ ¬ (parseOrder (Some (lit "stripAwsTracking,stripAwsTracking")) ≡ₚ ALL_KEYS).
Proof.
  split; [vm_compute; reflexivity |].
  intros H%Permutation_length. vm_compute in H. discriminate.
Qed.

(** ** [parseActive] *)

Lemma Set_add_elem_of (s : JSSet) (k x : jsstring) :
  x ∈ Set_add s k ↔ x ∈ s ∨ x = k.
Proof.
  unfold Set_add, Set_has. case_bool_decide.
  - split; [auto | intros [? | ->]; done].
  - rewrite elem_of_app, list_elem_of_singleton. done.
Qed.

Lemma Set_add_NoDup (s : JSSet) (k : jsstring) : NoDup s → NoDup (Set_add s k).
Proof.
  intros Hs. unfold Set_add, Set_has. case_bool_decide; [done |].
  apply NoDup_app. split_and!; [done | | apply NoDup_singleton].
  intros x Hx ->%list_elem_of_singleton. done.
Qed.

Lemma foldl_Set_add_elem_of (xs : list jsstring) (s : JSSet) (x : jsstring) :
  x ∈ foldl Set_add s xs ↔ x ∈ s ∨ x ∈ xs.
Proof.
  revert s. induction xs as [| y xs IH]; intros s; cbn [foldl].
  - rewrite elem_of_nil. tauto.
  - rewrite IH, Set_add_elem_of, elem_of_cons. tauto.
Qed.

Lemma foldl_Set_add_NoDup (xs : list jsstring) (s : JSSet) :
  NoDup s → NoDup (foldl Set_add s xs).
Proof.
  revert s. induction xs as [| y xs IH]; intros s Hs; cbn [foldl]; [done |].
  by apply IH, Set_add_NoDup.
Qed.

Lemma Set_new_elem_of (xs : list jsstring) (x : jsstring) : x ∈ Set_new xs ↔ x ∈ xs.
Proof. unfold Set_new. rewrite foldl_Set_add_elem_of, elem_of_nil. tauto. Qed.

Lemma Set_new_NoDup (xs : list jsstring) : NoDup (Set_new xs).
Proof. apply foldl_Set_add_NoDup, NoDup_nil_2. Qed.

(** What [parseActive] returns, for every parameter: each segment that is a
    property of [TRANSFORM_MAP], once. *)
Lemma parseActive_elem_of (param : option jsstring) (k : jsstring) :
  k ∈ parseActive param ↔ in_TRANSFORM_MAP k ∧ k ∈ segments param.
Proof.
  destruct param as [[| c raw] |]; cbn [parseActive segments].
  - cbn. rewrite elem_of_nil, list_elem_of_singleton.
    split; [done | intros [Hk ->]; vm_compute in Hk; done].
  - by rewrite Set_new_elem_of, list_elem_of_filter.
  - cbn. rewrite !elem_of_nil. tauto.
Qed.

Lemma parseActive_NoDup (param : option jsstring) : NoDup (parseActive param).
Proof. destruct param as [[| c raw] |]; apply Set_new_NoDup. Qed.

(** For the parameters that name no property inherited from
    [Object.prototype], the active set is a set of keys of [ALL_KEYS]. *)
Lemma parseActive_subset (param : option jsstring) :
  Forall (.∉ OBJECT_PROTOTYPE_KEYS) (segments param) →
  parseActive param ⊆ ALL_KEYS.
Proof.
  intros Hown k [Hk Hseg]%parseActive_elem_of.
  rewrite Forall_forall in Hown. specialize (Hown k Hseg).
  apply in_TRANSFORM_MAP_spec in Hk. tauto.
Qed.

(** C3 fails on the code. The filter of [parseActive] is [k in TRANSFORM_MAP],
    which also holds of the names that [TRANSFORM_MAP] inherits from
    [Object.prototype]: the raw parameter [toString] yields a set with the
    element [toString], which is no key of [ALL_KEYS]. *)
Theorem parseActive_inherited_name :
  parseActive (Some (lit "toString")) = [lit "toString"]
  ∧ (lit "toString" ∉ ALL_KEYS)
  ∧ ¬ (parseActive (Some (lit "toString")) ⊆ ALL_KEYS).
Proof.
  assert (Hnot : lit "toString" ∉ ALL_KEYS).
  { apply (bool_decide_unpack _). vm_compute. exact I. }
  split_and!; [vm_compute; reflexivity | done |].
  intros Hsub. apply Hnot, Hsub. vm_compute. left.
Qed.

(** ** [parseConfigs] *)

Lemma indexOf_range {A} `{EqDecision A} (xs : list A) (x : A) :
  (-1 ≤ indexOf xs x < Z.of_nat (length xs))%Z.
Proof.
  induction xs as [| y xs IH]; cbn [indexOf length]; [lia |].
  repeat case_decide; lia.
Qed.

Lemma indexOf_None {A} `{EqDecision A} (xs : list A) (x : A) :
  indexOf xs x = (-1)%Z ↔ x ∉ xs.
Proof.
  induction xs as [| y xs IH]; cbn [indexOf].
  - rewrite elem_of_nil. tauto.
  - pose proof (indexOf_range xs x). rewrite not_elem_of_cons. cbn zeta.
    destruct (decide (y = x)) as [-> | Hne].
    + split; [lia | intros [? _]; done].
    + case_decide as Hi.
      * apply IH in Hi. split; [intros _; split; [congruence | done] | done].
      * split; [lia | intros [_ Hx]]. by apply IH in Hx.
Qed.

(** [indexOf] finds the first occurrence. *)
Lemma indexOf_Some {A} `{EqDecision A} (xs : list A) (x : A) (i : nat) :
  indexOf xs x = Z.of_nat i ↔ xs !! i = Some x ∧ x ∉ take i xs.
Proof.
  revert i. induction xs as [| y xs IH]; intros i; cbn [indexOf].
  - rewrite lookup_nil. split; [lia | intros [[=] _]].
  - pose proof (indexOf_range xs x).
    destruct (decide (y = x)) as [-> | Hne].
    + destruct i as [| i]; cbn.
      * split; [intros _; split; [done | apply not_elem_of_nil] | done].
      * split; [lia | intros [_ Hnot]]. exfalso. apply Hnot. left.
    + destruct i as [| i]; cbn.
      * case_decide; split; try lia; intros [[=] _]; done.
      * rewrite not_elem_of_cons. specialize (IH i). case_decide as Hi.
        -- split; [lia | intros [Hat [_ Hnot]]].
           assert (indexOf xs x = Z.of_nat i) by (by apply IH). lia.
        -- split.
           ++ intros Heq. assert (indexOf xs x = Z.of_nat i) as Hi' by lia.
              apply IH in Hi' as [? ?]. split_and!; [done | congruence | done].
           ++ intros [Hat [_ Hnot]].
              assert (indexOf xs x = Z.of_nat i) by (by apply IH). lia.
Qed.

Lemma indexOf_app_first (k f : jsstring) (c : N) :
  c ∉ k → indexOf (k ++ c :: f) c = Z.of_nat (length k).
Proof.
  intros Hk. apply indexOf_Some. split.
  - by rewrite list_lookup_middle.
  - by rewrite take_app_length.
Qed.

(** A parameter name splits into [(k, f)] exactly when it is [k.f] and [k]
    has no dot: the split is at the first dot. *)
Lemma decode_param_Some (param k f : jsstring) :
  decode_param param = Some (k, f) ↔ param = config_param k f ∧ DOT ∉ k.
Proof.
  unfold decode_param, config_param, slice_to, slice_from. split.
  - case_decide as Hidx; [done |]. intros [= <- <-].
    pose proof (indexOf_range param DOT).
    destruct (indexOf_Some param DOT (Z.to_nat (indexOf param DOT))) as [[Hat Hbefore] _];
      [lia |].
    split; [| done].
    rewrite <- (take_drop_middle _ _ _ Hat) at 1. do 2 f_equal. f_equal. lia.
  - intros [-> Hk]. rewrite (indexOf_app_first _ _ _ Hk).
    case_decide; [lia |]. do 2 f_equal.
    + by rewrite Nat2Z.id, take_app_length.
    + replace (Z.to_nat (Z.of_nat (length k) + 1)) with (length k + 1)%nat by lia.
      rewrite <- drop_drop, drop_app_length. done.
Qed.

Lemma decode_param_None (param : jsstring) :
  decode_param param = None ↔ DOT ∉ param.
Proof.
  unfold decode_param. rewrite <- indexOf_None.
  case_decide; split; done.
Qed.

Lemma parseConfigs_step_decode (configs : JSObject) (param value : jsstring) :
  parseConfigs_step configs (param, value) =
    match decode_param param with
    | Some (k, f) =>
        if in_TRANSFORM_MAP k
        then obj_set configs k (<[f := value]> (spread (obj_get configs k)))
        else configs
    | None => configs
    end.
Proof.
  unfold parseConfigs_step, decode_param. case_decide; [done |].
  by destruct (in_TRANSFORM_MAP _).
Qed.

Lemma parseConfigs_snoc (params : URLSearchParams) (entry : jsstring * jsstring) :
  parseConfigs (params ++ [entry]) = parseConfigs_step (parseConfigs params) entry.
Proof. apply foldl_snoc. Qed.

Lemma parseConfigs_app (before after : URLSearchParams) :
  parseConfigs (before ++ after) = foldl parseConfigs_step (parseConfigs before) after.
Proof. apply foldl_app. Qed.

(** Assignments to the config object. *)
Lemma obj_set_own_eq (o : JSObject) (k : jsstring) (r : gmap jsstring jsstring) :
  k ≠ PROTO ∨ is_Some (own o !! k) → own (obj_set o k r) !! k = Some r.
Proof.
  unfold obj_set. intros Hk.
  destruct (own o !! k) eqn:Hown; cbn; [by rewrite lookup_insert_eq |].
  case_bool_decide; cbn; [by rewrite lookup_insert_eq |].
  case_decide; cbn; [| by rewrite lookup_insert_eq].
  destruct Hk as [? | [? [=]]]; done.
Qed.

Lemma obj_set_own_ne (o : JSObject) (k k' : jsstring) (r : gmap jsstring jsstring) :
  k' ≠ k → own (obj_set o k' r) !! k = own o !! k.
Proof.
  unfold obj_set. intros Hne.
  destruct (own o !! k'); cbn; [by rewrite lookup_insert_ne |].
  case_bool_decide; cbn; [by rewrite lookup_insert_ne |].
  case_decide; cbn; [done | by rewrite lookup_insert_ne].
Qed.

Lemma obj_get_own (o : JSObject) (k : jsstring) (r : gmap jsstring jsstring) :
  own o !! k = Some r → obj_get o k = VRecord r.
Proof. unfold obj_get. by intros ->. Qed.

(** A parameter [k.f] of a transform key is recorded as field [f] of the
    record of [k], next to the fields the record had. *)
Lemma parseConfigs_step_known (configs : JSObject) (k f v : jsstring) :
  k ∈ ALL_KEYS →
  own (parseConfigs_step configs (config_param k f, v)) !! k
  = Some (<[f := v]> (spread (obj_get configs k))).
Proof.
  intros Hk. rewrite parseConfigs_step_decode.
  rewrite (proj2 (decode_param_Some _ k f)) by (split; [done | by apply ALL_KEYS_no_dot]).
  rewrite (Is_true_true_1 _ (ALL_KEYS_in_TRANSFORM_MAP _ Hk)).
  apply obj_set_own_eq. left. by apply ALL_KEYS_not_PROTO.
Qed.

(** A parameter with another name leaves what is recorded for [k.f]. *)
Lemma parseConfigs_step_preserves (configs : JSObject) (param value k f v : jsstring)
    (r : gmap jsstring jsstring) :
  param ≠ config_param k f →
  own configs !! k = Some r → r !! f = Some v →
  ∃ r', own (parseConfigs_step configs (param, value)) !! k = Some r' ∧ r' !! f = Some v.
Proof.
  intros Hname Hown Hf. rewrite parseConfigs_step_decode.
  destruct (decode_param param) as [[k' f'] |] eqn:Hdec; [| by eauto].
  destruct (in_TRANSFORM_MAP k'); [| by eauto].
  apply decode_param_Some in Hdec as [-> Hdot].
  destruct (decide (k' = k)) as [-> | Hne].
  - rewrite obj_set_own_eq by eauto.
    rewrite (obj_get_own _ _ _ Hown). cbn [spread].
    eexists. split; [done |]. rewrite lookup_insert_ne; [done | congruence].
  - rewrite obj_set_own_ne by done. eauto.
Qed.

Lemma foldl_parseConfigs_step_preserves (after : URLSearchParams) (configs : JSObject)
    (k f v : jsstring) (r : gmap jsstring jsstring) :
  (∀ v', (config_param k f, v') ∉ after) →
  own configs !! k = Some r → r !! f = Some v →
  ∃ r', own (foldl parseConfigs_step configs after) !! k = Some r' ∧ r' !! f = Some v.
Proof.
  revert configs r. induction after as [| [param value] after IH];
    intros configs r Hlast Hown Hf; cbn [foldl]; [by eauto |].
  destruct (parseConfigs_step_preserves configs param value k f v r) as (r' & Hown' & Hf');
    [| done | done |].
  - intros ->. apply (Hlast value). left.
  - apply (IH _ r'); [| done | done].
    intros v' Hin. apply (Hlast v'). by right.
Qed.

(** C9. When several parameters of the flat mapping decode to the same pair
    of a transform key [k] and a field [f], [parseConfigs] records the value
    of the last one in the order of the entries; such a parameter overwrites
    field [f] of the record of [k] and keeps the other fields of the record. *)
Theorem parseConfigs_last_wins (k f : jsstring) :
  k ∈ ALL_KEYS →
  (∀ before after v,
     (∀ v', (config_param k f, v') ∉ after) →
     ∃ r, own (parseConfigs (before ++ (config_param k f, v) :: after)) !! k = Some r
          ∧ r !! f = Some v)
  ∧ (∀ params v r,
       own (parseConfigs params) !! k = Some r →
       own (parseConfigs (params ++ [(config_param k f, v)])) !! k = Some (<[f := v]> r)).
Proof.
  intros Hk. split.
  - intros before after v Hlast.
    rewrite (parseConfigs_app before (_ :: after)). cbn [foldl].
    eapply foldl_parseConfigs_step_preserves; [done | by apply parseConfigs_step_known |].
    apply lookup_insert_eq.
  - intros params v r Hown.
    rewrite parseConfigs_snoc, parseConfigs_step_known by done.
    by rewrite (obj_get_own _ _ _ Hown).
Qed.

Lemma parseConfigs_last_wins_witness :
  lit "hostnameReplace" ∈ ALL_KEYS
  ∧ ∃ r, own (parseConfigs (query [("hostnameReplace.to", "a"); ("hostnameReplace.x", "1");
                                    ("hostnameReplace.to", "b"); ("u", "z")]%string))
           !! lit "hostnameReplace" = Some r
         ∧ r !! lit "to" = Some (lit "b").
Proof.
  assert (Hk : lit "hostnameReplace" ∈ ALL_KEYS) by (right; left).
  split; [exact Hk |].
  apply (proj1 (parseConfigs_last_wins (lit "hostnameReplace") (lit "to") Hk)
           (query [("hostnameReplace.to", "a"); ("hostnameReplace.x", "1")]%string)
           (query [("u", "z")]%string) (lit "b")).
  intros v' Hin. apply list_elem_of_singleton in Hin. vm_compute in Hin. discriminate Hin.
Defined.

(** Parameters that [parseConfigs] ignores: a name without a dot, and a name
    whose part before the first dot is no property of [TRANSFORM_MAP]. *)
Lemma parseConfigs_step_no_dot (configs : JSObject) (param value : jsstring) :
  DOT ∉ param → parseConfigs_step configs (param, value) = configs.
Proof.
  intros Hdot%decode_param_None. by rewrite parseConfigs_step_decode, Hdot.
Qed.

Lemma parseConfigs_step_unknown (configs : JSObject) (k f value : jsstring) :
  DOT ∉ k → ¬ in_TRANSFORM_MAP k →
  parseConfigs_step configs (config_param k f, value) = configs.
Proof.
  intros Hdot Hk. rewrite parseConfigs_step_decode.
  rewrite (proj2 (decode_param_Some _ k f)) by done.
  by destruct (in_TRANSFORM_MAP k).
Qed.

(** The decoded mapping has own properties for properties of [TRANSFORM_MAP]
    only. *)
Lemma parseConfigs_own_in_TRANSFORM_MAP (params : URLSearchParams) (k : jsstring) :
  is_Some (own (parseConfigs params) !! k) → in_TRANSFORM_MAP k.
Proof.
  induction params as [| [param value] params IH] using rev_ind.
  - cbn. rewrite lookup_empty. by intros [? [=]].
  - rewrite parseConfigs_snoc, parseConfigs_step_decode.
    destruct (decode_param param) as [[k' f'] |]; [| done].
    destruct (in_TRANSFORM_MAP k') eqn:Hk'; [| done].
    destruct (decide (k' = k)) as [<- | Hne]; [by rewrite Hk' |].
    by rewrite obj_set_own_ne.
Qed.

(** When no parameter has a name inherited from [Object.prototype] before its
    first dot, the decoded mapping keeps [Object.prototype] as its prototype
    and has own properties for keys of [ALL_KEYS] only. *)
Lemma parseConfigs_known_only (params : URLSearchParams) :
  Forall (λ e, ∀ k f, decode_param e.1 = Some (k, f) → k ∉ OBJECT_PROTOTYPE_KEYS) params →
  proto (parseConfigs params) = None
  ∧ ∀ k, is_Some (own (parseConfigs params) !! k) → k ∈ ALL_KEYS.
Proof.
  induction params as [| [param value] params IH] using rev_ind; intros Hparams.
  - split; [done |]. intros k. cbn. rewrite lookup_empty. by intros [? [=]].
  - apply Forall_app in Hparams as [Hparams Hlast].
    rewrite Forall_singleton in Hlast. cbn [fst] in Hlast.
    destruct (IH Hparams) as [Hproto Hown].
    rewrite parseConfigs_snoc, parseConfigs_step_decode.
    destruct (decode_param param) as [[k' f'] |]; [| done].
    destruct (in_TRANSFORM_MAP k') eqn:Hk'; [| done].
    assert (Hkey : k' ∈ ALL_KEYS).
    { apply Is_true_true_2, in_TRANSFORM_MAP_spec in Hk' as [? | Hin]; [done |].
      by destruct (Hlast k' f' eq_refl). }
    pose proof (ALL_KEYS_not_PROTO _ Hkey) as Hne.
    unfold obj_set. rewrite Hproto. cbn.
    rewrite decide_False by done.
    destruct (own (parseConfigs params) !! k'); cbn; (split; [done |]);
      intros k; rewrite lookup_insert; case_decide; subst; auto.
Qed.

(** C4 fails on the code. [parseConfigs] tests the part before the first dot
    with [key in TRANSFORM_MAP], which holds of the names inherited from
    [Object.prototype] too: the parameter [toString.bar=baz], whose prefix
    is no transform key, is recorded in the decoded mapping. *)
Theorem parseConfigs_inherited_name :
  parseConfigs (query [("toString.bar", "baz")]%string)
  = {| own := {[ lit "toString" := {[ lit "bar" := lit "baz" ]} ]}; proto := None |}
  ∧ (lit "toString" ∉ ALL_KEYS).
Proof.
  split; [vm_compute; reflexivity |].
  apply (bool_decide_unpack _). vm_compute. exact I.
Qed.

(** Counterexample to C5 as the specification states it: [parseConfigs]
    records a parameter with the empty string as its value, so that the
    decoded mapping is not the one of the mapping without the parameter;
    when an earlier parameter has the same name, the empty value even
    replaces the value that the mapping without it decodes to. *)
Lemma parseConfigs_records_empty_value :
  parseConfigs (query [("hostnameReplace.to", "")]%string) ≠ parseConfigs []
  ∧ own (parseConfigs (query [("hostnameReplace.to", "a"); ("hostnameReplace.to", "")]%string))
      !! lit "hostnameReplace" = Some {[ lit "to" := [] ]}
  ∧ own (parseConfigs (query [("hostnameReplace.to", "a")]%string))
      !! lit "hostnameReplace" = Some {[ lit "to" := lit "a" ]}.
Proof.
  split_and!; [| vm_compute; reflexivity ..].
  intros H. apply (f_equal (λ o, own o !! lit "hostnameReplace")) in H.
  vm_compute in H. discriminate H.
Qed.

(** C5, as the code has it. [parseOrder] and [parseActive] return the same
    value for null and for the empty string. [parseConfigs] does not drop a
    parameter whose value is the empty string: for a transform key [k], the
    parameter [k.f] with the empty value is recorded as any other value is,
    field [f] of the record of [k] being the empty string. *)
Theorem decoders_on_empty_string (params : URLSearchParams) (k f : jsstring) :
  k ∈ ALL_KEYS →
  parseOrder (Some []) = parseOrder None
  ∧ parseActive (Some []) = parseActive None
  ∧ ∃ r, own (parseConfigs (params ++ [(config_param k f, [])])) !! k = Some r
         ∧ r !! f = Some [].
Proof.
  intros Hk. split_and!; [done | done |].
  rewrite parseConfigs_snoc, parseConfigs_step_known by done.
  eexists. split; [done |]. apply lookup_insert_eq.
Qed.

Lemma decoders_on_empty_string_witness :
  lit "hostnameReplace" ∈ ALL_KEYS
  ∧ ∃ r, own (parseConfigs (query [("u", "x"); ("hostnameReplace.to", "")]%string))
           !! lit "hostnameReplace" = Some r
         ∧ r !! lit "to" = Some [].
Proof.
  assert (Hk : lit "hostnameReplace" ∈ ALL_KEYS) by (right; left).
  split; [exact Hk |].
  exact (proj2 (proj2 (decoders_on_empty_string (query [("u", "x")]%string)
                         (lit "hostnameReplace") (lit "to") Hk))).
Defined.

(** ** The encoders *)

Lemma USP_get_delete (p : URLSearchParams) (name : jsstring) :
  USP_get (USP_delete p name) name = None.
Proof.
  unfold USP_delete. induction p as [| [n v] p IH]; [done |].
  rewrite filter_cons. cbn [fst]. case_decide; [| done].
  cbn [USP_get]. by case_decide.
Qed.

Lemma USP_get_set (p : URLSearchParams) (name value : jsstring) :
  USP_get (USP_set p name value) name = Some value.
Proof.
  induction p as [| [n v] p IH]; cbn [USP_set USP_get].
  - by case_decide.
  - case_decide; cbn [USP_get]; by case_decide.
Qed.

(** The other parameters keep their first value. *)
Lemma USP_get_delete_ne (p : URLSearchParams) (name other : jsstring) :
  other ≠ name → USP_get (USP_delete p name) other = USP_get p other.
Proof.
  intros Hne. unfold USP_delete. induction p as [| [n v] p IH]; [done |].
  rewrite filter_cons. cbn [fst USP_get].
  repeat case_decide; subst; cbn [USP_get]; try done; by case_decide.
Qed.

Lemma USP_get_set_ne (p : URLSearchParams) (name value other : jsstring) :
  other ≠ name → USP_get (USP_set p name value) other = USP_get p other.
Proof.
  intros Hne. induction p as [| [n v] p IH]; cbn [USP_set USP_get].
  - by case_decide.
  - repeat case_decide; subst; cbn [USP_get]; repeat case_decide; try done.
    by apply USP_get_delete_ne.
Qed.

Lemma array_join_Some (sep : N) (xs : list jsstring) :
  array_join sep (Some <$> xs) = join sep xs.
Proof.
  unfold array_join. f_equal. rewrite <- list_fmap_compose.
  induction xs as [| x xs IH]; [done |]. cbn. by rewrite IH.
Qed.

(** The array that [move] builds when the key is at position [i] of the
    order and its neighbour [x] at position [j]: the two are exchanged. *)
Lemma move_next_swap (searchParams : URLSearchParams) (key x : jsstring)
    (dir : direction) (i j : nat) :
  let order := parseOrder (USP_get searchParams (lit "order")) in
  indexOf order key = Z.of_nat i →
  Z.of_nat j = (Z.of_nat i + dir_value dir)%Z →
  order !! j = Some x →
  move_next searchParams key dir = Some (Some <$> <[j := key]> (<[i := x]> order)).
Proof.
  intros order Hi Hj Hx. unfold move_next. fold order. rewrite Hi, <- Hj.
  apply indexOf_Some in Hi as [Hkey _].
  pose proof (lookup_lt_Some _ _ _ Hx) as Hjlt.
  pose proof (lookup_lt_Some _ _ _ Hkey) as Hilt.
  case_decide as Hrange; [lia |]. f_equal.
  unfold array_get, array_set.
  repeat (case_decide; try lia).
  all: rewrite ?length_insert, ?length_fmap in *; try lia.
  rewrite !Nat2Z.id, !list_lookup_fmap, Hx, Hkey. cbn.
  by rewrite !list_fmap_insert.
Qed.

Lemma move_next_out_of_range (searchParams : URLSearchParams) (key : jsstring)
    (dir : direction) :
  let order := parseOrder (USP_get searchParams (lit "order")) in
  let swapWith := (indexOf order key + dir_value dir)%Z in
  (swapWith < 0 ∨ Z.of_nat (length order) ≤ swapWith)%Z →
  move_next searchParams key dir = None.
Proof.
  intros order swapWith Hout. unfold move_next. fold order. fold swapWith.
  case_decide; [done | lia].
Qed.

(** C6, as the code has it. [setConfig] writes the parameter [key.field] when
    the value is not empty and deletes it otherwise; [toggle] omits the
    parameter [active] exactly when the set it has built is empty; [move],
    for a key of the order, issues no update when the neighbour position is
    out of range and otherwise writes the parameter [order] with the key and
    its neighbour exchanged, whatever the resulting order is. *)
Theorem encoders_minimality :
  (∀ key field value prev,
     USP_get (setConfig key field value prev) (config_param key field)
     = match value with [] => None | _ => Some value end)
  ∧ (∀ searchParams key prev,
       USP_get (toggle searchParams key prev) (lit "active") = None
       ↔ toggle_next searchParams key = [])
  ∧ (∀ searchParams key dir prev,
       let order := parseOrder (USP_get searchParams (lit "order")) in
       let swapWith := (indexOf order key + dir_value dir)%Z in
       ((swapWith < 0 ∨ Z.of_nat (length order) ≤ swapWith)%Z →
        move searchParams key dir prev = None)
       ∧ (∀ (i j : nat) x,
            indexOf order key = Z.of_nat i → Z.of_nat j = swapWith →
            order !! j = Some x →
            ∃ p, move searchParams key dir prev = Some p
                 ∧ USP_get p (lit "order")
                   = Some (join COMMA (<[j := key]> (<[i := x]> order))))).
Proof.
  split_and!.
  - intros key field [| c value] prev; cbn [setConfig].
    + apply USP_get_delete.
    + apply USP_get_set.
  - intros searchParams key prev. unfold toggle, Set_size.
    destruct (toggle_next searchParams key) as [| k next]; cbn [length].
    + case_decide; [lia |]. by rewrite USP_get_delete.
    + case_decide; [| lia]. by rewrite USP_get_set.
  - intros searchParams key dir prev order swapWith. split.
    + intros Hout. unfold move.
      by rewrite (move_next_out_of_range searchParams key dir Hout).
    + intros i j x Hi Hj Hx. unfold move.
      rewrite (move_next_swap searchParams key x dir i j Hi) by (done || (subst swapWith; lia)).
      eexists. split; [done |]. by rewrite USP_get_set, array_join_Some.
Qed.

(** The third part at a concrete input: from the order
    [hostnameReplace,stripAwsTracking], moving [hostnameReplace] down. *)
Lemma encoders_minimality_witness :
  ∃ p, move (query [("order", "hostnameReplace,stripAwsTracking")]%string)
         (lit "hostnameReplace") Down [] = Some p
       ∧ USP_get p (lit "order") = Some (lit "stripAwsTracking,hostnameReplace").
Proof.
  exact (proj2 (proj2 (proj2 encoders_minimality)
                  (query [("order", "hostnameReplace,stripAwsTracking")]%string)
                  (lit "hostnameReplace") Down [])
           0%nat 1%nat (lit "stripAwsTracking") eq_refl eq_refl eq_refl).
Defined.

(** Counterexample to C6 as the specification states it: [move] does not
    compare the order it writes with the default one; moving
    [hostnameReplace] down from [hostnameReplace,stripAwsTracking] builds the
    registration order, and writes it. *)
Lemma move_writes_default_order :
  let searchParams := query [("order", "hostnameReplace,stripAwsTracking")]%string in
  move_next searchParams (lit "hostnameReplace") Down = Some (Some <$> ALL_KEYS)
  ∧ move searchParams (lit "hostnameReplace") Down searchParams
    = Some (query [("order", "stripAwsTracking,hostnameReplace")]%string).
Proof. split; vm_compute; reflexivity. Qed.

(** ** The reference transforms *)

Lemma try_catch_Normal {A} (body : completion A) (a : A) :
  ∃ r, try_catch body (mret a) = Normal r.
Proof. destruct body; cbn; eauto. Qed.

Lemma stripAwsTracking_fn_total (api : URL_API) (url : jsstring) (config : jsval) :
  ∃ r, stripAwsTracking_fn api url config = Normal r.
Proof.
  unfold stripAwsTracking_fn. destruct (match_L0 url); [| by eexists].
  apply try_catch_Normal.
Qed.

Lemma hostnameReplace_fn_total (api : URL_API) (url : jsstring) (config : jsval) :
  config ≠ VUndefined → ∃ r, hostnameReplace_fn api url config = Normal r.
Proof.
  intros Hdef. unfold hostnameReplace_fn.
  destruct config as [| s | r | |]; [done | ..]; cbn; try by eexists.
  destruct (r !! lit "to") as [[| c to] |]; try by eexists.
  apply try_catch_Normal.
Qed.

Lemma or_empty_record_defined (v : jsval) : or_empty_record v ≠ VUndefined.
Proof. by destruct v. Qed.

(** Every call that the executor makes to a registered transform returns. *)
Lemma registered_fn_total (api : URL_API) (t : TransformDef) (input : jsstring)
    (configs : JSObject) (k : jsstring) :
  t ∈ TRANSFORMS →
  ∃ r, fn t api input (or_empty_record (obj_get configs k)) = Normal r.
Proof.
  unfold TRANSFORMS. rewrite !elem_of_cons, elem_of_nil.
  intros [-> | [-> | []]]; cbn [fn].
  - apply stripAwsTracking_fn_total.
  - apply hostnameReplace_fn_total, or_empty_record_defined.
Qed.

(** C8. The two reference transforms are total: for every input string and
    every config mapping each of them returns a string or null, and throws
    nothing; so does every call of a registered transform by the executor,
    whatever the decoded configs are. *)
Theorem transforms_total (api : URL_API) (url : jsstring) (config : gmap jsstring jsstring) :
  (∃ r, stripAwsTracking_fn api url (VRecord config) = Normal r)
  ∧ (∃ r, hostnameReplace_fn api url (VRecord config) = Normal r)
  ∧ Forall (λ t, ∀ configs k,
              ∃ r, fn t api url (or_empty_record (obj_get configs k)) = Normal r)
      TRANSFORMS.
Proof.
  split_and!.
  - apply stripAwsTracking_fn_total.
  - by apply hostnameReplace_fn_total.
  - apply Forall_forall. intros t Ht configs k. by apply registered_fn_total.
Qed.

(** ** The executor *)

Lemma step_input_last (url : jsstring) (acc : list StepResult) :
  match last acc with Some r => output r | None => url end
  = step_input url acc (length acc).
Proof.
  rewrite last_lookup. destruct acc as [| r acc]; [done |]. done.
Qed.

Lemma step_input_app (url : jsstring) (acc more : list StepResult) (i : nat) :
  (i ≤ length acc)%nat → step_input url (acc ++ more) i = step_input url acc i.
Proof.
  intros Hi. destruct i as [| j]; [done |]. cbn [step_input].
  rewrite lookup_app_l by lia. done.
Qed.

Lemma step_ok_app (api : URL_API) (url : jsstring) (configs : JSObject)
    (acc more : list StepResult) (i : nat) (r : StepResult) :
  (i ≤ length acc)%nat →
  step_ok api url configs acc i r → step_ok api url configs (acc ++ more) i r.
Proof.
  intros Hi (t & Ht & Hfn & Hout). exists t. by rewrite step_input_app.
Qed.

Lemma run_step_registered (api : URL_API) (url : jsstring) (configs : JSObject)
    (acc : list StepResult) (key : jsstring) :
  key ∈ ALL_KEYS →
  ∃ r, run_step api url configs acc key = Normal (acc ++ [r])
       ∧ step_key r = key
       ∧ step_ok api url configs acc (length acc) r.
Proof.
  intros [t Ht]%TRANSFORM_MAP_own. unfold run_step. rewrite Ht, step_input_last.
  destruct (registered_fn_total api t (step_input url acc (length acc)) configs key)
    as [res Hres]; [by eapply TRANSFORM_MAP_key |].
  rewrite Hres. cbn.
  eexists. split_and!; [done | done |]. exists t. by cbn.
Qed.

Lemma reduce_run_step (api : URL_API) (url : jsstring) (configs : JSObject)
    (keys : list jsstring) (acc : list StepResult) :
  Forall (.∈ ALL_KEYS) keys →
  (∀ i r, acc !! i = Some r → step_ok api url configs acc i r) →
  ∃ results,
    reduce (run_step api url configs) keys acc = Normal results
    ∧ step_key <$> results = (step_key <$> acc) ++ keys
    ∧ (∀ i r, results !! i = Some r → step_ok api url configs results i r).
Proof.
  revert acc. induction keys as [| key keys IH]; intros acc Hkeys Hacc; cbn [reduce].
  - exists acc. by rewrite app_nil_r.
  - apply Forall_cons in Hkeys as [Hkey Hkeys].
    destruct (run_step_registered api url configs acc key Hkey) as (r & -> & Hr & Hok).
    cbn. destruct (IH (acc ++ [r]) Hkeys) as (results & Hrun & Hmap & Hsteps).
    + intros i r' Hi. destruct (decide (i < length acc)%nat) as [Hlt | Hge].
      * rewrite lookup_app_l in Hi by done.
        apply step_ok_app; [lia | by apply Hacc].
      * pose proof (lookup_lt_Some _ _ _ Hi) as Hlen.
        rewrite length_app in Hlen. cbn in Hlen.
        assert (i = length acc) as -> by lia.
        rewrite list_lookup_middle in Hi by done. injection Hi as <-.
        by apply step_ok_app.
    + exists results. split_and!; [done | | done].
      by rewrite Hmap, fmap_app, <- app_assoc, <- Hr.
Qed.

Lemma filter_Set_has (selected order : list jsstring) :
  filter (λ k, Set_has selected k) order = filter (.∈ selected) order.
Proof.
  apply filter_ext_in. intros k _. unfold Set_has. by rewrite bool_decide_spec.
Qed.

(** A run over keys of [ALL_KEYS]: one step for each active key. *)
Lemma transformResults_steps (api : URL_API) (url : jsstring) (order selected : list jsstring)
    (configs : JSObject) :
  Forall (.∈ ALL_KEYS) (filter (.∈ selected) order) →
  ∃ results,
    transformResults api url order selected configs = Normal results
    ∧ step_key <$> results = filter (.∈ selected) order
    ∧ (∀ i r, results !! i = Some r → step_ok api url configs results i r).
Proof.
  intros Hkeys. unfold transformResults. rewrite filter_Set_has.
  destruct (reduce_run_step api url configs _ [] Hkeys) as (results & Hrun & Hmap & Hsteps);
    [by intros i r [=] |].
  by exists results.
Qed.

(** Either invariant of a pipeline state, the order being a permutation of
    [ALL_KEYS] or the active set a subset of it, makes the active keys of
    the order keys of [ALL_KEYS]. *)
Lemma active_order_keys (order selected : list jsstring) :
  order ≡ₚ ALL_KEYS ∨ selected ⊆ ALL_KEYS →
  Forall (.∈ ALL_KEYS) (filter (.∈ selected) order).
Proof.
  intros Hstate. apply Forall_forall. intros k [Hsel Hord]%list_elem_of_filter.
  destruct Hstate as [Hperm | Hsub]; [by rewrite <- Hperm | by apply Hsub].
Qed.

Lemma final_output_step_input (url : jsstring) (results : list StepResult) :
  final_output url results = step_input url results (length results).
Proof. apply step_input_last. Qed.

(** C2. On a pipeline state whose active keys are keys of [ALL_KEYS], the
    executor runs exactly the keys of the order that are active, in the
    order they have there, as a left fold from the base input: step [i]
    calls the transform of its key on the output of step [i-1] (on the base
    input for [i = 0]); when the transform returns null the output of the
    step is that input, and step [i+1] receives it; the final output is the
    output of the last step, or the base input when no step is active. *)
Theorem transformResults_fold (api : URL_API) (url : jsstring)
    (order selected : list jsstring) (configs : JSObject) :
  Forall (.∈ ALL_KEYS) (filter (.∈ selected) order) →
  ∃ results,
    transformResults api url order selected configs = Normal results
    ∧ step_key <$> results = filter (.∈ selected) order
    ∧ (∀ i r, results !! i = Some r →
         let input := match i with
                      | O => url
                      | S j => default url (output <$> results !! j)
                      end in
         (∃ t, TRANSFORM_MAP !! step_key r = Some t
               ∧ fn t api input (or_empty_record (obj_get configs (step_key r)))
                 = Normal (result r))
         ∧ output r = default input (result r)
         ∧ (result r = None → output r = input))
    ∧ (∀ i r r', results !! i = Some r → results !! S i = Some r' →
         ∃ t', TRANSFORM_MAP !! step_key r' = Some t'
               ∧ fn t' api (output r) (or_empty_record (obj_get configs (step_key r')))
                 = Normal (result r'))
    ∧ final_output url results = default url (output <$> last results).
Proof.
  intros Hkeys.
  destruct (transformResults_steps api url order selected configs Hkeys)
    as (results & Hrun & Hmap & Hsteps).
  exists results. split_and!; [done | done | | | ].
  - intros i r Hi input.
    assert (Hinput : input = step_input url results i).
    { subst input. destruct i as [| j]; [done |]. cbn. by destruct (results !! j). }
    destruct (Hsteps i r Hi) as (t & Ht & Hfn & Hout). rewrite Hinput.
    split_and!; [by exists t | done |].
    intros Hnull. by rewrite Hout, Hnull.
  - intros i r r' Hi Hi'.
    destruct (Hsteps (S i) r' Hi') as (t' & Ht' & Hfn' & _).
    cbn [step_input] in Hfn'. rewrite Hi in Hfn'. by exists t'.
  - unfold final_output. by destruct (last results).
Qed.

(** Scenario C, through the theorem. *)
Lemma transformResults_fold_witness :
  let url := lit "https://ex.com/L0/https%3A%2F%2Fexample.com" in
  let configs := parseConfigs (query [("hostnameReplace.to", "foo.com")]%string) in
  Forall (.∈ ALL_KEYS) (filter (.∈ ALL_KEYS) ALL_KEYS)
  ∧ ∃ results,
      transformResults platform_URL url ALL_KEYS ALL_KEYS configs = Normal results
      ∧ step_key <$> results = ALL_KEYS
      ∧ final_output url results = default url (output <$> last results).
Proof.
  intros url configs.
  assert (Hkeys : Forall (.∈ ALL_KEYS) (filter (.∈ ALL_KEYS) ALL_KEYS)).
  { apply (bool_decide_unpack _). vm_compute. exact I. }
  split; [exact Hkeys |].
  destruct (transformResults_fold platform_URL url ALL_KEYS ALL_KEYS configs Hkeys)
    as (results & Hrun & Hmap & _ & _ & Hfinal).
  exists results. split; [exact Hrun | split; [exact Hmap | exact Hfinal]].
Defined.

(** ** The platform's URL on a URL in serialized form *)

Module URLStandardFacts.
Import URLStandard.

Ltac to_prop H :=
  repeat first
    [ rewrite orb_true_iff in H | rewrite andb_true_iff in H
    | rewrite orb_false_iff in H | rewrite andb_false_iff in H
    | rewrite negb_true_iff in H | rewrite negb_false_iff in H
    | rewrite N.eqb_eq in H | rewrite N.eqb_neq in H
    | rewrite N.leb_le in H | rewrite N.leb_gt in H
    | rewrite N.ltb_lt in H | rewrite N.ltb_ge in H ].

Ltac unfold_code_points :=
  unfold url_code_point, domain_code_point, ascii_alphanumeric, ascii_alpha,
    ascii_upper_alpha, ascii_lower_alpha, ascii_digit,
    c0_control_or_space, ascii_tab_or_newline, is_slash, is_delimiter,
    leading_surrogate, trailing_surrogate,
    userinfo_set, path_set, special_query_set, query_set, fragment_set, c0_control_set,
    forbidden_domain_code_point, forbidden_host_code_point, one_of,
    COLON, SLASH, DOT, PERCENT, QUESTION_MARK, HASH in *;
  cbn [existsb] in *.

(** Decides a fact on a code point from the classes it is in. *)
Ltac code_point_solver :=
  unfold_code_points;
  repeat match goal with
         | H : _ = true |- _ => progress to_prop H
         | H : _ = false |- _ => progress to_prop H
         end;
  lazymatch goal with
  | |- ?b = false => destruct b eqn:Hgoal; [exfalso; to_prop Hgoal; lia | reflexivity]
  | |- ?b = true => destruct b eqn:Hgoal; [reflexivity | exfalso; to_prop Hgoal; lia]
  | |- _ => lia
  end.

Lemma domain_code_point_spec (c : N) :
  domain_code_point c = true →
  32 < c ∧ c < 127 ∧ c ≠ PERCENT ∧ c ≠ 64 ∧ c ≠ COLON ∧ c ≠ 91.
Proof. intros H. code_point_solver. Qed.

Lemma domain_code_point_lowercase (c : N) :
  domain_code_point c = true → ascii_lowercase c = c.
Proof.
  intros H. unfold ascii_lowercase. destruct (ascii_upper_alpha c) eqn:Hu; [| done].
  exfalso. code_point_solver.
Qed.

Lemma domain_code_point_host (c : N) (special insideBrackets : bool) :
  domain_code_point c = true →
  is_delimiter special c = false ∧ is_slash c = false
  ∧ forbidden_domain_code_point c = false ∧ forbidden_host_code_point c = false
  ∧ c0_control_set c = false.
Proof. intros H. destruct special; split_and!; code_point_solver. Qed.

Lemma url_code_point_spec (c : N) (special : bool) :
  url_code_point c = true →
  32 < c ∧ c < 127 ∧ c ≠ SLASH ∧ c ≠ QUESTION_MARK ∧ c ≠ HASH ∧ c ≠ 92.
Proof. intros H. code_point_solver. Qed.

Lemma url_code_point_sets (c : N) :
  url_code_point c = true →
  path_set c = false ∧ special_query_set c = false ∧ fragment_set c = false.
Proof. intros H. split_and!; code_point_solver. Qed.


Lemma flat_map_singleton {A} (g : A → list A) (l : list A) :
  Forall (λ c, g c = [c]) l → flat_map g l = l.
Proof. induction 1 as [| c l Hc _ IH]; cbn; [done |]. by rewrite Hc, IH. Qed.

Lemma percent_encode_id (encode_set : N → bool) (s : list N) :
  Forall (λ c, encode_set c = false) s →
  flat_map (utf8_percent_encode encode_set) s = s.
Proof.
  intros H. apply flat_map_singleton. eapply Forall_impl; [exact H |].
  intros c Hc. unfold utf8_percent_encode. by rewrite Hc.
Qed.

Lemma code_points_id (s : jsstring) :
  Forall (λ c, c < 128) s → code_points s = s.
Proof.
  induction 1 as [| c s Hc _ IH]; [done |]. cbn [code_points].
  assert (leading_surrogate c = false) as -> by code_point_solver.
  assert (trailing_surrogate c = false) as -> by code_point_solver.
  by rewrite IH.
Qed.

(** The conversion to a [USVString] leaves a string without surrogates as
    it is, and replaces an unpaired surrogate. *)
Lemma USVString_id (s : jsstring) :
  Forall (λ u, u < 55296 ∨ 57343 < u ∧ u < 65536) s → USVString s = s.
Proof.
  unfold USVString. induction 1 as [| u s Hu _ IH]; [done |]. cbn [code_points].
  assert (leading_surrogate u = false) as -> by code_point_solver.
  assert (trailing_surrogate u = false) as -> by code_point_solver.
  cbn [flat_map]. rewrite IH. unfold utf16_encode.
  assert ((u <? 65536) = true) as -> by (apply N.ltb_lt; lia). done.
Qed.

Example USVString_unpaired_surrogate :
  USVString (lit "a" ++ [55296] ++ lit "b") = lit "a" ++ [65533] ++ lit "b".
Proof. reflexivity. Qed.

Lemma drop_while_id (s : list N) :
  Forall (λ c, 32 < c) s → drop_while c0_control_or_space s = s.
Proof.
  destruct 1 as [| c s Hc _]; [done |]. cbn.
  assert (c0_control_or_space c = false) as -> by code_point_solver. done.
Qed.

Lemma strip_id (s : list N) : Forall (λ c, 32 < c) s → strip s = s.
Proof.
  intros H. unfold strip. rewrite (drop_while_id s H), drop_while_id.
  - apply reverse_involutive.
  - by apply Forall_reverse.
Qed.

Lemma remove_tab_newline_id (s : list N) :
  Forall (λ c, 32 < c) s → remove_tab_newline s = s.
Proof.
  induction 1 as [| c s Hc _ IH]; [done |]. cbn.
  assert (ascii_tab_or_newline c = false) as -> by code_point_solver.
  by rewrite IH.
Qed.

Lemma span_app (stop : N → bool) (a r : list N) :
  Forall (λ c, stop c = false) a →
  match r with [] => True | c :: _ => stop c = true end →
  span stop (a ++ r) = (a, r).
Proof.
  intros Ha Hr. induction Ha as [| c a Hc _ IH]; cbn.
  - destruct r as [| c r]; [done |]. cbn. by rewrite Hr.
  - by rewrite Hc, IH.
Qed.

Lemma span_host_app (special : bool) (a r : list N) :
  Forall (λ c, domain_code_point c = true) a →
  match r with [] => True | c :: _ => is_delimiter special c = true end →
  span_host special false (a ++ r) = (a, r).
Proof.
  intros Ha Hr. induction Ha as [| c a Hc _ IH]; cbn.
  - destruct r as [| c r]; [done |]. cbn. rewrite Hr. by rewrite orb_true_r.
  - destruct (domain_code_point_host c special false Hc) as (-> & _).
    destruct (domain_code_point_spec c Hc) as (_ & _ & _ & _ & Hcolon & Hbracket).
    assert ((c =? COLON) = false) as -> by (by apply N.eqb_neq).
    assert ((c =? 91) = false) as -> by (by apply N.eqb_neq).
    destruct (c =? 93); cbn; by rewrite IH.
Qed.

Lemma split_at_last_None (c : N) (s : list N) : c ∉ s → split_at_last c s = None.
Proof.
  induction s as [| x s IH]; [done |]. intros Hc. cbn.
  rewrite IH by (intros ?; apply Hc; by right).
  assert ((x =? c) = false) as ->; [| done].
  apply N.eqb_neq. intros ->. apply Hc. left.
Qed.

Lemma percent_decode_id (s : list N) : PERCENT ∉ s → percent_decode s = s.
Proof.
  induction s as [| b s IH]; [done |]. intros Hs. cbn [percent_decode].
  assert ((b =? PERCENT) = false) as ->.
  { apply N.eqb_neq. intros ->. apply Hs. left. }
  rewrite IH; [done |]. intros ?. apply Hs. by right.
Qed.

(** *** Plain domains *)

Lemma plain_domain_spec (h : jsstring) :
  plain_domain h = true →
  h ≠ [] ∧ Forall (λ c, domain_code_point c = true) h
  ∧ existsb punycode_label (split DOT h) = false
  ∧ ends_in_a_number h = false.
Proof.
  unfold plain_domain. rewrite !andb_true_iff, !negb_true_iff.
  intros [[[Hne Hall] Hpuny] Hnum]. split_and!; try done.
  - intros ->. done.
  - apply Forall_forall. intros c Hc. rewrite forallb_forall in Hall.
    apply Hall. by apply list_elem_of_In.
Qed.

Lemma plain_domain_visible (h : jsstring) :
  plain_domain h = true → Forall (λ c, 32 < c ∧ c < 127) h.
Proof.
  intros (_ & Hall & _)%plain_domain_spec. eapply Forall_impl; [exact Hall |].
  intros c Hc. destruct (domain_code_point_spec c Hc) as (? & ? & _). done.
Qed.

(** The host parser returns a plain domain as it is. *)
Lemma host_parse_plain_domain (unicode_ToASCII : list N → option (list N)) (h : jsstring) :
  plain_domain h = true → host_parse unicode_ToASCII false h = Some (Domain h).
Proof.
  intros Hplain. pose proof (plain_domain_visible h Hplain) as Hvisible.
  destruct (plain_domain_spec h Hplain) as (Hne & Hall & Hpuny & Hnum).
  unfold host_parse.
  rewrite bool_decide_eq_false_2.
  2:{ destruct Hall as [| c h Hc _]; [done |]. cbn. intros [= ->]. by vm_compute in Hc. }
  assert (flat_map utf8_encode h = h) as ->.
  { apply flat_map_singleton. eapply Forall_impl; [exact Hvisible |].
    intros c [_ Hc]. unfold utf8_encode.
    assert ((c <? 128) = true) as -> by (apply N.ltb_lt; lia). done. }
  rewrite percent_decode_id.
  2:{ intros Hin. rewrite Forall_forall in Hall.
      by destruct (domain_code_point_spec _ (Hall _ Hin)) as (_ & _ & ? & _). }
  unfold domain_to_ASCII. rewrite Hpuny.
  assert (forallb (λ b, b <? 128) h = true) as ->.
  { apply forallb_forall. intros c Hc%list_elem_of_In. rewrite Forall_forall in Hvisible.
    apply N.ltb_lt. destruct (Hvisible c Hc). lia. }
  cbn [andb negb mbind option_bind].
  assert (ascii_lowercase <$> h = h) as ->.
  { clear -Hall. induction Hall as [| c h Hc _ IH]; [done |]. cbn.
    by rewrite (domain_code_point_lowercase c Hc), IH. }
  rewrite bool_decide_eq_false_2 by done. rewrite Hnum.
  assert (existsb forbidden_domain_code_point h = false) as ->; [| done].
  clear -Hall. induction Hall as [| c h Hc _ IH]; [done |]. cbn [existsb].
  destruct (domain_code_point_host c true false Hc) as (_ & _ & -> & _). done.
Qed.

(** The opaque-host parser too. *)
Lemma host_parse_plain_opaque (unicode_ToASCII : list N → option (list N)) (h : jsstring) :
  plain_domain h = true → host_parse unicode_ToASCII true h = Some (OpaqueHost h).
Proof.
  intros Hplain. destruct (plain_domain_spec h Hplain) as (Hne & Hall & _).
  unfold host_parse.
  rewrite bool_decide_eq_false_2.
  2:{ destruct Hall as [| c h Hc _]; [done |]. cbn. intros [= ->]. by vm_compute in Hc. }
  unfold opaque_host_parse.
  assert (existsb forbidden_host_code_point h = false) as ->.
  { clear -Hall. induction Hall as [| c h Hc _ IH]; [done |]. cbn [existsb].
    destruct (domain_code_point_host c true false Hc) as (_ & _ & _ & -> & _). done. }
  rewrite percent_encode_id.
  - by destruct h.
  - eapply Forall_impl; [exact Hall |]. intros c Hc.
    by destruct (domain_code_point_host c true false Hc) as (_ & _ & _ & _ & ->).
Qed.


(** *** Paths, queries and fragments *)

Lemma query_code_point_spec (c : N) :
  url_code_point c || (c =? SLASH) || (c =? QUESTION_MARK) = true →
  32 < c ∧ c < 127 ∧ c ≠ HASH.
Proof. intros H. code_point_solver. Qed.

Lemma query_code_point_sets (c : N) :
  url_code_point c || (c =? SLASH) || (c =? QUESTION_MARK) = true →
  special_query_set c = false ∧ fragment_set c = false.
Proof. intros H. split; code_point_solver. Qed.

Lemma plain_segment_spec (s : jsstring) :
  plain_segment s = true →
  Forall (λ c, url_code_point c = true) s
  ∧ single_dot_segment s = false ∧ double_dot_segment s = false.
Proof.
  unfold plain_segment. rewrite !andb_true_iff, !negb_true_iff.
  intros [[Hall Hsingle] Hdouble]. split_and!; try done.
  apply Forall_forall. intros c Hc. rewrite forallb_forall in Hall.
  apply Hall. by apply list_elem_of_In.
Qed.

Lemma plain_query_spec (q : jsstring) :
  plain_query q = true →
  Forall (λ c, url_code_point c || (c =? SLASH) || (c =? QUESTION_MARK) = true) q.
Proof.
  unfold plain_query. intros Hall.
  apply Forall_forall. intros c Hc. rewrite forallb_forall in Hall.
  apply Hall. by apply list_elem_of_In.
Qed.

Lemma fragment_state_plain (y : jsstring) :
  plain_query y = true → fragment_state y = y.
Proof.
  intros Hy%plain_query_spec. apply percent_encode_id.
  eapply Forall_impl; [exact Hy |]. intros c Hc.
  by destruct (query_code_point_sets c Hc).
Qed.

(** The query and the fragment of the tail [?query#fragment]. *)
Lemma query_state_plain (x : jsstring) (f : option jsstring) :
  plain_query x = true → (∀ y, f = Some y → plain_query y = true) →
  query_state true (x ++ from_option (cons HASH) [] f) = (Some x, f).
Proof.
  intros Hx%plain_query_spec Hf. unfold query_state.
  rewrite (span_app (λ c, c =? HASH)).
  - rewrite percent_encode_id.
    + destruct f as [y |]; cbn; [| done]. by rewrite fragment_state_plain by auto.
    + eapply Forall_impl; [exact Hx |]. intros c Hc.
      by destruct (query_code_point_sets c Hc).
  - eapply Forall_impl; [exact Hx |]. intros c Hc.
    apply N.eqb_neq. by destruct (query_code_point_spec c Hc) as (_ & _ & ?).
  - by destruct f.
Qed.

Lemma end_of_segment_plain (slash : bool) (seg : jsstring) (path : list jsstring) :
  plain_segment seg = true → end_of_segment false slash seg path = path ++ [seg].
Proof.
  intros (_ & Hsingle & Hdouble)%plain_segment_spec. unfold end_of_segment.
  rewrite Hsingle, Hdouble. by destruct seg as [| a [| b [| c seg]]], path.
Qed.

(** The path state copies plain code points to its buffer. *)
Lemma path_state_code_points (file special : bool) (buffer : jsstring)
    (path : list jsstring) (seg r : jsstring) :
  Forall (λ c, url_code_point c = true) seg →
  path_state file special buffer path (seg ++ r)
  = path_state file special (buffer ++ seg) path r.
Proof.
  intros Hseg. revert buffer.
  induction Hseg as [| c seg Hc _ IH]; intros buffer; [by rewrite app_nil_r |].
  cbn [app path_state].
  destruct (url_code_point_spec c special Hc) as (_ & _ & Hslash & Hq & Hhash & Hback).
  destruct (url_code_point_sets c Hc) as (Hpath & _).
  rewrite (proj2 (N.eqb_neq c SLASH)), (proj2 (N.eqb_neq c 92)),
    (proj2 (N.eqb_neq c QUESTION_MARK)), (proj2 (N.eqb_neq c HASH)) by done.
  rewrite andb_false_r. cbn [orb]. unfold utf8_percent_encode. rewrite Hpath.
  by rewrite IH, <- app_assoc.
Qed.

(** The path state at the end of the path. *)
Lemma path_state_end (seg : jsstring) (path : list jsstring) (q f : option jsstring) :
  plain_segment seg = true →
  (∀ x, q = Some x → plain_query x = true) →
  (∀ y, f = Some y → plain_query y = true) →
  path_state false true seg path
    (from_option (cons QUESTION_MARK) [] q ++ from_option (cons HASH) [] f)
  = (path ++ [seg], q, f).
Proof.
  intros Hseg Hq Hf. destruct q as [x |]; cbn [from_option app].
  - cbn [path_state]. change (QUESTION_MARK =? SLASH) with false.
    change (QUESTION_MARK =? 92) with false.
    change (QUESTION_MARK =? QUESTION_MARK) with true. cbn [andb orb].
    rewrite query_state_plain by auto. by rewrite end_of_segment_plain.
  - destruct f as [y |]; cbn [from_option app path_state].
    + change (HASH =? SLASH) with false. change (HASH =? 92) with false.
      change (HASH =? QUESTION_MARK) with false. change (HASH =? HASH) with true.
      cbn [andb orb]. rewrite fragment_state_plain by auto.
      by rewrite end_of_segment_plain.
    + by rewrite end_of_segment_plain.
Qed.

(** The path state on plain segments: the path is the list of them. *)
Lemma path_state_segments (segs : list jsstring) (seg : jsstring) (path : list jsstring)
    (q f : option jsstring) :
  plain_segment seg = true → Forall (λ s, plain_segment s = true) segs →
  (∀ x, q = Some x → plain_query x = true) →
  (∀ y, f = Some y → plain_query y = true) →
  path_state false true [] path
    (seg ++ flat_map (λ s, SLASH :: s) segs
         ++ from_option (cons QUESTION_MARK) [] q ++ from_option (cons HASH) [] f)
  = (path ++ seg :: segs, q, f).
Proof.
  intros Hseg Hsegs Hq Hf. revert seg path Hseg.
  induction Hsegs as [| s segs Hs _ IH]; intros seg path Hseg.
  - rewrite path_state_code_points by (by apply plain_segment_spec).
    cbn [flat_map app]. by apply path_state_end.
  - rewrite path_state_code_points by (by apply plain_segment_spec).
    cbn [flat_map app path_state]. change (SLASH =? SLASH) with true. cbn [orb].
    rewrite end_of_segment_plain by done. rewrite <- !app_assoc.
    rewrite IH by done. by rewrite <- app_assoc.
Qed.

Lemma path_start_state_serialized (segs : list jsstring) (q f : option jsstring) :
  Forall (λ s, plain_segment s = true) segs →
  (∀ x, q = Some x → plain_query x = true) →
  (∀ y, f = Some y → plain_query y = true) →
  path_start_state false true
    (flat_map (λ s, SLASH :: s) segs
       ++ from_option (cons QUESTION_MARK) [] q ++ from_option (cons HASH) [] f)
  = (path_of segs, q, f).
Proof.
  intros Hsegs Hq Hf. destruct Hsegs as [| seg segs Hseg Hsegs].
  - pose proof (path_state_end [] [] q f eq_refl Hq Hf) as Hend.
    cbn [flat_map app]. destruct q as [x |]; [exact Hend |].
    destruct f as [y |]; [exact Hend | done].
  - cbn [flat_map app path_start_state]. change (is_slash SLASH) with true. cbn match.
    rewrite <- app_assoc. by rewrite path_state_segments.
Qed.

(** *** The parser on a URL in serialized form *)

Lemma NETWORK_SCHEMES_spec (scheme : jsstring) (r : list N) :
  scheme ∈ NETWORK_SCHEMES →
  scheme_start_state (scheme ++ COLON :: r) = Some (scheme, r)
  ∧ is_special scheme = true ∧ scheme ≠ lit "file"
  ∧ Forall (λ c, 32 < c ∧ c < 127) scheme.
Proof.
  unfold NETWORK_SCHEMES. rewrite !elem_of_cons, elem_of_nil.
  intros [-> | [-> | [-> | [-> | [-> | []]]]]];
    (split_and!;
     [ reflexivity | reflexivity | by vm_compute
     | apply (bool_decide_unpack _); vm_compute; exact I ]).
Qed.

Lemma url_string_visible (scheme host : jsstring) (segs : list jsstring)
    (q f : option jsstring) :
  serialized_form scheme host segs q f →
  Forall (λ c, 32 < c ∧ c < 127) (url_string scheme host segs q f).
Proof.
  intros (Hscheme & Hhost & Hsegs & Hq & Hf). unfold url_string.
  destruct (NETWORK_SCHEMES_spec scheme [] Hscheme) as (_ & _ & _ & Hvisible).
  repeat apply Forall_app_2; try done.
  - apply (bool_decide_unpack _). vm_compute. exact I.
  - by apply plain_domain_visible.
  - induction Hsegs as [| s segs Hs _ IH]; cbn [flat_map]; [done |].
    apply Forall_cons_2; [by vm_compute |]. apply Forall_app_2; [| done].
    apply plain_segment_spec in Hs as (Hs & _).
    eapply Forall_impl; [exact Hs |]. intros c Hc.
    destruct (url_code_point_spec c true Hc) as (? & ? & _). done.
  - destruct q as [x |]; cbn; [| done]. apply Forall_cons_2; [by vm_compute |].
    eapply Forall_impl; [exact (plain_query_spec x (Hq x eq_refl)) |]. intros c Hc.
    destruct (query_code_point_spec c Hc) as (? & ? & _). done.
  - destruct f as [y |]; cbn; [| done]. apply Forall_cons_2; [by vm_compute |].
    eapply Forall_impl; [exact (plain_query_spec y (Hf y eq_refl)) |]. intros c Hc.
    destruct (query_code_point_spec c Hc) as (? & ? & _). done.
Qed.

(** The parser reads a URL in serialized form as its components. *)
Lemma basic_URL_parser_serialized (unicode_ToASCII : list N → option (list N))
    (scheme host : jsstring) (segs : list jsstring) (q f : option jsstring) :
  serialized_form scheme host segs q f →
  basic_URL_parser unicode_ToASCII (code_points (url_string scheme host segs q f))
  = Some {| url_scheme := scheme; url_username := []; url_password := [];
            url_host := Some (Domain host); url_port := None;
            url_path := PathSegments (path_of segs); url_query := q;
            url_fragment := f |}.
Proof.
  intros Hform. pose proof (url_string_visible _ _ _ _ _ Hform) as Hvisible.
  destruct Hform as (Hscheme & Hhost & Hsegs & Hq & Hf).
  set (rest := flat_map (λ s, SLASH :: s) segs
                 ++ from_option (cons QUESTION_MARK) [] q ++ from_option (cons HASH) [] f).
  assert (Hrest : match rest with
                  | [] => True
                  | c :: _ => is_delimiter true c = true ∧ c ≠ COLON
                  end).
  { subst rest. destruct segs as [| s segs]; [| by vm_compute].
    destruct q as [x |]; [by vm_compute |]. destruct f as [y |]; by vm_compute. }
  destruct (plain_domain_spec host Hhost) as (Hne & Hall & _).
  unfold basic_URL_parser.
  rewrite code_points_id by (eapply Forall_impl; [exact Hvisible |]; cbn; lia).
  rewrite strip_id by (eapply Forall_impl; [exact Hvisible |]; cbn; lia).
  rewrite remove_tab_newline_id by (eapply Forall_impl; [exact Hvisible |]; cbn; lia).
  unfold url_string. fold rest. change (lit "://") with [COLON; SLASH; SLASH].
  cbn [app].
  destruct (NETWORK_SCHEMES_spec scheme (SLASH :: SLASH :: host ++ rest) Hscheme)
    as (-> & Hspecial & Hfile & _).
  cbn [mbind option_bind]. rewrite decide_False by done. rewrite Hspecial.
  assert (drop_while is_slash (SLASH :: SLASH :: host ++ rest) = host ++ rest) as ->.
  { cbn. destruct Hall as [| c host Hc _]; [done |]. cbn.
    by destruct (domain_code_point_host c true false Hc) as (_ & -> & _). }
  unfold authority_state. rewrite Hspecial.
  rewrite (span_app (is_delimiter true)).
  2:{ eapply Forall_impl; [exact Hall |]. intros c Hc.
      by destruct (domain_code_point_host c true false Hc) as (-> & _). }
  2:{ destruct rest; [done | apply Hrest]. }
  rewrite split_at_last_None.
  2:{ intros Hin. rewrite Forall_forall in Hall.
      by destruct (domain_code_point_spec _ (Hall _ Hin)) as (_ & _ & _ & ? & _). }
  unfold host_state. rewrite Hspecial.
  rewrite span_host_app; [| done | destruct rest; [done | apply Hrest]].
  cbn [negb]. rewrite host_parse_plain_domain by done.
  rewrite bool_decide_eq_false_2 by done. cbn [andb mbind option_bind].
  subst rest. rewrite path_start_state_serialized by done.
  set (rest := flat_map (λ s, SLASH :: s) segs
                 ++ from_option (cons QUESTION_MARK) [] q ++ from_option (cons HASH) [] f)
    in *.
  destruct rest as [| c rest]; [done |].
  destruct Hrest as [_ Hcolon]. by rewrite (proj2 (N.eqb_neq c COLON)).
Qed.

(** *** The hostname setter and the serializer *)

(** On a URL with a hierarchical path and another scheme than [file], the
    setter makes a plain domain the host. *)
Lemma new_host_plain_domain (unicode_ToASCII : list N → option (list N))
    (u : url_record) (to : jsstring) :
  plain_domain to = true → url_scheme u ≠ lit "file" →
  (∃ segments, url_path u = PathSegments segments) →
  new_host unicode_ToASCII u to
  = Some (if is_special (url_scheme u) then Domain to else OpaqueHost to).
Proof.
  intros Hto Hfile [segments Hpath]. unfold new_host. rewrite Hpath.
  pose proof (plain_domain_visible to Hto) as Hvisible.
  destruct (plain_domain_spec to Hto) as (Hne & Hall & _).
  unfold hostname_state_override.
  rewrite code_points_id by (eapply Forall_impl; [exact Hvisible |]; cbn; lia).
  rewrite remove_tab_newline_id by (eapply Forall_impl; [exact Hvisible |]; cbn; lia).
  rewrite decide_False by done.
  rewrite <- (app_nil_r to) at 1. rewrite span_host_app by done.
  rewrite (bool_decide_eq_false_2 (to = [])) by done.
  rewrite andb_false_r. cbn [andb].
  destruct (is_special (url_scheme u)); cbn [negb].
  - by rewrite host_parse_plain_domain.
  - by rewrite host_parse_plain_opaque.
Qed.

Lemma serialize_url_string (scheme host : jsstring) (segs : list jsstring)
    (q f : option jsstring) :
  serialize {| url_scheme := scheme; url_username := []; url_password := [];
               url_host := Some (Domain host); url_port := None;
               url_path := PathSegments segs; url_query := q; url_fragment := f |}
  = url_string scheme host segs q f.
Proof.
  unfold serialize, url_string. cbn.
  change (lit "://") with ([COLON] ++ lit "//"). rewrite <- !app_assoc. cbn [app].
  by destruct q, f.
Qed.

End URLStandardFacts.

(** ** [hostnameReplace] *)

Lemma hostnameReplace_fn_no_to (api : URL_API) (url : jsstring) (config : jsval) :
  destructure_to config = Normal None ∨ destructure_to config = Normal (Some []) →
  hostnameReplace_fn api url config = Normal None.
Proof. unfold hostnameReplace_fn. by intros [-> | ->]. Qed.

Lemma hostnameReplace_fn_not_a_URL (api : URL_API) (url : jsstring) (config : jsval)
    (e : error) :
  config ≠ VUndefined → URL_new api url = Throw e →
  hostnameReplace_fn api url config = Normal None.
Proof.
  intros Hdef Hnew. unfold hostnameReplace_fn.
  destruct config as [| s | r | |]; [done | ..]; cbn; try done.
  destruct (r !! lit "to") as [[| c to] |]; try done.
  by rewrite Hnew.
Qed.

(** When [to] is empty or absent for every record the config object has for
    [hostnameReplace], a run with that transform alone active leaves the
    input as it is. *)
Lemma transformResults_hostnameReplace_no_to (api : URL_API) (url : jsstring)
    (order : list jsstring) (configs : JSObject) :
  (∀ r, obj_get configs (lit "hostnameReplace") = VRecord r →
        r !! lit "to" = None ∨ r !! lit "to" = Some []) →
  ∃ results,
    transformResults api url order [lit "hostnameReplace"] configs = Normal results
    ∧ Forall (λ r, result r = None) results
    ∧ final_output url results = url.
Proof.
  intros Hto.
  destruct (transformResults_steps api url order [lit "hostnameReplace"] configs)
    as (results & Hrun & Hmap & Hsteps).
  { apply Forall_forall. intros k [->%list_elem_of_singleton _]%list_elem_of_filter.
    right. left. }
  exists results. split; [done |].
  assert (Hstep : ∀ i r, results !! i = Some r →
            step_input url results i = url → result r = None ∧ output r = url).
  { intros i r Hi Hinput.
    assert (Hkey : step_key r = lit "hostnameReplace").
    { assert (step_key r ∈ step_key <$> results) as Hin
        by (apply list_elem_of_fmap; eauto using list_elem_of_lookup_2).
      rewrite Hmap in Hin.
      by apply list_elem_of_filter in Hin as [->%list_elem_of_singleton _]. }
    destruct (Hsteps i r Hi) as (t & Ht & Hfn & Hout).
    rewrite Hkey in Ht, Hfn. rewrite (TRANSFORM_MAP_hostnameReplace t Ht) in Hfn.
    rewrite hostnameReplace_fn_no_to in Hfn.
    - injection Hfn as Hres. by rewrite Hout, <- Hres, Hinput.
    - destruct (obj_get configs (lit "hostnameReplace")) as [| s | r0 | |] eqn:Hget;
        cbn [or_empty_record destructure_to]; try (by left).
      destruct (Hto r0 eq_refl) as [-> | ->]; [by left | by right]. }
  assert (Hall : ∀ i, (i ≤ length results)%nat → step_input url results i = url).
  { induction i as [| i IH]; intros Hi; [done |]. cbn [step_input].
    destruct (results !! i) as [r |] eqn:Hr; [| done].
    apply (Hstep i r Hr). apply IH. lia. }
  split.
  - apply Forall_forall. intros r [i Hi]%list_elem_of_lookup_1.
    apply (Hstep i r Hi), Hall. apply lookup_lt_Some in Hi. lia.
  - rewrite final_output_step_input. by apply Hall.
Qed.

Lemma hostnameReplace_fn_parsed (api : URL_API) (url to : jsstring)
    (config : gmap jsstring jsstring) (parsed : URL api) :
  config !! lit "to" = Some to → to ≠ [] → URL_new api url = Normal parsed →
  hostnameReplace_fn api url (VRecord config)
  = Normal (Some (URL_toString api (URL_set_hostname api parsed to))).
Proof.
  intros Hto Hne Hnew. unfold hostnameReplace_fn. cbn. rewrite Hto.
  destruct to as [| c to]; [done |]. by rewrite Hnew.
Qed.

(** On the platform's [URL], a URL in serialized form is parsed, and the
    serialization after the hostname has been set to a plain domain is the
    same string with that domain as its host. *)
Lemma URL_standard_serialized (unicode_ToASCII : list N → option (list N))
    (scheme host : jsstring) (segs : list jsstring) (q f : option jsstring)
    (to : jsstring) :
  serialized_form scheme host segs q f → plain_domain to = true →
  ∃ parsed,
    URL_new (URL_standard unicode_ToASCII) (url_string scheme host segs q f)
    = Normal parsed
    ∧ URL_toString (URL_standard unicode_ToASCII)
        (URL_set_hostname (URL_standard unicode_ToASCII) parsed to)
      = url_string scheme to (path_of segs) q f.
Proof.
  intros Hform Hto. eexists. split.
  - cbn [URL_new URL_standard]. unfold URLStandard.new_URL.
    by rewrite URLStandardFacts.basic_URL_parser_serialized.
  - cbn [URL_toString URL_set_hostname URL_standard]. unfold URLStandard.set_hostname.
    destruct Hform as (Hscheme & _).
    destruct (URLStandardFacts.NETWORK_SCHEMES_spec scheme [] Hscheme)
      as (_ & Hspecial & Hfile & _).
    rewrite URLStandardFacts.new_host_plain_domain; [| done | done | by eexists].
    cbn [URLStandard.url_scheme]. rewrite Hspecial.
    apply URLStandardFacts.serialize_url_string.
Qed.

(** C7. [hostnameReplace] returns null when the config field [to] is empty
    or absent, so that a run with [hostnameReplace] alone active and such a
    config leaves the input as it is; it returns null when the URL parser
    of the platform rejects the input; otherwise it returns the
    serialization of the parsed URL after the [hostname] setter has run
    with [to], in which only the host can differ from the parsed URL. The
    hostname of that URL is [to] when [to] is a plain domain and the URL
    has a hierarchical path and another scheme than [file]; and for an
    input [scheme://host/path?query#fragment] in serialized form the
    result is the input with [to] as its host, with path, query and
    fragment as they are written, the path being [/] when the input has
    none. *)
Theorem hostnameReplace_fn_spec (url : jsstring) (config : gmap jsstring jsstring) :
  (∀ api, config !! lit "to" = None ∨ config !! lit "to" = Some [] →
          hostnameReplace_fn api url (VRecord config) = Normal None)
  ∧ (∀ api order configs,
       (∀ r, obj_get configs (lit "hostnameReplace") = VRecord r →
             r !! lit "to" = None ∨ r !! lit "to" = Some []) →
       ∃ results,
         transformResults api url order [lit "hostnameReplace"] configs = Normal results
         ∧ Forall (λ r, result r = None) results
         ∧ final_output url results = url)
  ∧ (∀ unicode_ToASCII,
       URLStandard.basic_URL_parser unicode_ToASCII (URLStandard.code_points url) = None →
       hostnameReplace_fn (URL_standard unicode_ToASCII) url (VRecord config) = Normal None)
  ∧ (∀ unicode_ToASCII to parsed,
       config !! lit "to" = Some to → to ≠ [] →
       URLStandard.basic_URL_parser unicode_ToASCII (URLStandard.code_points url)
       = Some parsed →
       let replaced := URLStandard.set_hostname unicode_ToASCII parsed to in
       hostnameReplace_fn (URL_standard unicode_ToASCII) url (VRecord config)
       = Normal (Some (URLStandard.serialize replaced))
       ∧ replaced = URLStandard.set_host parsed (URLStandard.url_host replaced)
       ∧ (plain_domain to = true →
          URLStandard.url_scheme parsed ≠ lit "file" →
          (∃ segments, URLStandard.url_path parsed = URLStandard.PathSegments segments) →
          URLStandard.hostname replaced = to))
  ∧ (∀ unicode_ToASCII scheme host segs q f to,
       url = url_string scheme host segs q f → serialized_form scheme host segs q f →
       config !! lit "to" = Some to → plain_domain to = true →
       hostnameReplace_fn (URL_standard unicode_ToASCII) url (VRecord config)
       = Normal (Some (url_string scheme to (path_of segs) q f))).
Proof.
  split_and!.
  - intros api Hto. apply hostnameReplace_fn_no_to. cbn. destruct Hto as [-> | ->]; auto.
  - intros api order configs. apply transformResults_hostnameReplace_no_to.
  - intros unicode_ToASCII Hnone.
    apply (hostnameReplace_fn_not_a_URL _ _ _ TypeError); [done |].
    cbn [URL_new URL_standard]. unfold URLStandard.new_URL. by rewrite Hnone.
  - intros unicode_ToASCII to parsed Hto Hne Hsome replaced. split_and!.
    + apply (hostnameReplace_fn_parsed (URL_standard unicode_ToASCII)); [done | done |].
      cbn [URL_new URL_standard]. unfold URLStandard.new_URL. by rewrite Hsome.
    + done.
    + intros Hplain Hfile Hpath. subst replaced.
      unfold URLStandard.hostname, URLStandard.set_hostname.
      rewrite URLStandardFacts.new_host_plain_domain by done.
      cbn. by destruct (URLStandard.is_special _).
  - intros unicode_ToASCII scheme host segs q f to -> Hform Hto Hplain.
    destruct (URL_standard_serialized unicode_ToASCII scheme host segs q f to Hform Hplain)
      as (parsed & Hnew & Hstring).
    rewrite <- Hstring. apply hostnameReplace_fn_parsed; [done | | done].
    intros ->. done.
Qed.

(** Scenarios B and D and an input that is no URL, through the theorem. *)
Lemma hostnameReplace_fn_spec_witness :
  hostnameReplace_fn platform_URL (lit "https://bar.com/path?x=1")
    (VRecord {[ lit "to" := lit "foo.com" ]})
  = Normal (Some (lit "https://foo.com/path?x=1"))
  ∧ hostnameReplace_fn platform_URL (lit "https://bar.com/path?x=1")
      (VRecord {[ lit "to" := [] ]})
    = Normal None
  ∧ hostnameReplace_fn platform_URL (lit "bar.com/path?x=1")
      (VRecord {[ lit "to" := lit "foo.com" ]})
    = Normal None.
Proof.
  split_and!.
  - destruct (hostnameReplace_fn_spec (lit "https://bar.com/path?x=1")
                {[ lit "to" := lit "foo.com" ]}) as (_ & _ & _ & _ & H).
    apply (H (λ _, None) (lit "https") (lit "bar.com") [lit "path"] (Some (lit "x=1"))
             None (lit "foo.com")).
    + vm_compute. reflexivity.
    + split_and!.
      * apply (bool_decide_unpack _). vm_compute. exact I.
      * vm_compute. reflexivity.
      * apply (bool_decide_unpack _). vm_compute. exact I.
      * intros x [= <-]. vm_compute. reflexivity.
      * intros x [=].
    + vm_compute. reflexivity.
    + vm_compute. reflexivity.
  - destruct (hostnameReplace_fn_spec (lit "https://bar.com/path?x=1")
                {[ lit "to" := [] ]}) as (H & _).
    apply H. right. vm_compute. reflexivity.
  - destruct (hostnameReplace_fn_spec (lit "bar.com/path?x=1")
                {[ lit "to" := lit "foo.com" ]}) as (_ & _ & H & _).
    apply H. vm_compute. reflexivity.
Defined.

(** The claim as the specification has it fails on the platform: an input
    without a path comes back with the path [/] (the intermediate value of
    scenario C, for which the specification expects [https://foo.com]);
    dot segments of the path are resolved; a [to] that is no host, or has a
    port, leaves the hostname as it is; and so does any [to] on a URL with
    an opaque path. *)
Lemma hostnameReplace_fn_not_verbatim :
  hostnameReplace_fn platform_URL (lit "https://example.com")
    (VRecord {[ lit "to" := lit "foo.com" ]})
  = Normal (Some (lit "https://foo.com/"))
  ∧ hostnameReplace_fn platform_URL (lit "https://example.com")
      (VRecord {[ lit "to" := lit "foo.com" ]})
    ≠ Normal (Some (lit "https://foo.com"))
  ∧ hostnameReplace_fn platform_URL (lit "https://bar.com/a/../b?x=1")
      (VRecord {[ lit "to" := lit "foo.com" ]})
    = Normal (Some (lit "https://foo.com/b?x=1"))
  ∧ hostnameReplace_fn platform_URL (lit "https://bar.com/path?x=1")
      (VRecord {[ lit "to" := lit "foo bar" ]})
    = Normal (Some (lit "https://bar.com/path?x=1"))
  ∧ hostnameReplace_fn platform_URL (lit "https://bar.com/path?x=1")
      (VRecord {[ lit "to" := lit "foo.com:8080" ]})
    = Normal (Some (lit "https://bar.com/path?x=1"))
  ∧ hostnameReplace_fn platform_URL (lit "mailto:someone@bar.com")
      (VRecord {[ lit "to" := lit "foo.com" ]})
    = Normal (Some (lit "mailto:someone@bar.com")).
Proof. vm_compute. split_and!; done. Qed.

(** ** [stripAwsTracking] *)

Lemma reduce_ext_in {A B} (f g : B → A → completion B) (xs : list A) (init : B) :
  (∀ acc x, x ∈ xs → f acc x = g acc x) → reduce f xs init = reduce g xs init.
Proof.
  revert init. induction xs as [| x xs IH]; intros init Hfg; cbn [reduce]; [done |].
  rewrite Hfg by left. destruct (g init x) as [acc | e]; cbn; [| done].
  apply IH. intros acc' x' Hx'. apply Hfg. by right.
Qed.

(** C10. The result of [stripAwsTracking] does not depend on its config
    argument: on the same input it is the same for any two configs, and so
    is a run in which no other transform is active, for any two decoded
    config objects. *)
Theorem stripAwsTracking_ignores_config (api : URL_API) (url : jsstring) :
  (∀ config1 config2 : jsval,
     stripAwsTracking_fn api url config1 = stripAwsTracking_fn api url config2)
  ∧ (∀ order (configs1 configs2 : JSObject),
       transformResults api url order [lit "stripAwsTracking"] configs1
       = transformResults api url order [lit "stripAwsTracking"] configs2).
Proof.
  split; [done |].
  intros order configs1 configs2. unfold transformResults.
  apply reduce_ext_in. intros acc k [Hk _]%list_elem_of_filter.
  unfold Set_has in Hk. rewrite bool_decide_spec, list_elem_of_singleton in Hk.
  subst k. unfold run_step.
  destruct (TRANSFORM_MAP !! lit "stripAwsTracking") as [t |] eqn:Ht; [| done].
  by rewrite (TRANSFORM_MAP_stripAwsTracking t Ht).
Qed.

(** ** The page

    A render throws nothing when the parameter [active] names no property
    inherited from [Object.prototype]. *)
Lemma UrlTool_total (api : URL_API) (searchParams : URLSearchParams) :
  Forall (.∉ OBJECT_PROTOTYPE_KEYS) (segments (USP_get searchParams (lit "active"))) →
  ∃ results, UrlTool api searchParams
             = Normal (results, final_output (default [] (USP_get searchParams (lit "u"))) results).
Proof.
  intros Hactive%parseActive_subset. unfold UrlTool.
  destruct (transformResults_steps api (default [] (USP_get searchParams (lit "u")))
              (parseOrder (USP_get searchParams (lit "order")))
              (parseActive (USP_get searchParams (lit "active")))
              (parseConfigs searchParams)) as (results & -> & _).
  - apply Forall_forall. intros k [Hk _]%list_elem_of_filter. by apply Hactive.
  - by exists results.
Qed.

(** ** The page on concrete query strings *)

(** Scenario A: the tracking link is unwrapped. *)
Example scenario_A (api : URL_API) :
  ∃ results,
    UrlTool api (query [("u", "https://ex.com/L0/https%3A%2F%2Fexample.com");
                        ("active", "stripAwsTracking")]%string)
    = Normal (results, lit "https://example.com").
Proof. eexists. vm_compute. reflexivity. Qed.

(** Scenario D: an empty [to] leaves the input. *)
Example scenario_D (api : URL_API) :
  UrlTool api (query [("u", "https://bar.com/path?x=1"); ("active", "hostnameReplace");
                      ("hostnameReplace.to", "")]%string)
  = Normal ([{| step_key := lit "hostnameReplace"; result := None;
                output := lit "https://bar.com/path?x=1" |}],
            lit "https://bar.com/path?x=1").
Proof. vm_compute. reflexivity. Qed.

(** A bad escape sequence is no match either. *)
Example bad_escape (api : URL_API) :
  stripAwsTracking_fn api (lit "https://ex.com/L0/100%25%zz/x") VUndefined = Normal None
  ∧ stripAwsTracking_fn api (lit "https://ex.com/L0/100%25%C3%A9/x") VUndefined
    = Normal (Some (lit "100%" ++ [233])).
Proof. split; vm_compute; reflexivity. Qed.

(** A name inherited from [Object.prototype] that is both in the order and
    active reaches the executor, where [TRANSFORM_MAP[key].fn] is no
    function: the render throws. *)
Lemma UrlTool_inherited_name_throws (api : URL_API) :
  UrlTool api (query [("order", "toString"); ("active", "toString")]%string)
  = Throw TypeError.
Proof. vm_compute. reflexivity. Qed.

(** * Further properties of the page *)

(** ** Splitting and joining *)

Lemma split_not_nil (sep : N) (s : jsstring) : split sep s ≠ [].
Proof.
  destruct s as [| c s]; cbn [split]; [done |].
  case_decide; [done |]. by destruct (split sep s).
Qed.

Lemma split_no_sep (sep : N) (s : jsstring) : sep ∉ s → split sep s = [s].
Proof.
  induction s as [| c s IH]; intros Hs; cbn [split]; [done |].
  apply not_elem_of_cons in Hs as [Hc Hs].
  rewrite decide_False by done. by rewrite IH.
Qed.

Lemma split_app_sep (sep : N) (a b : jsstring) :
  sep ∉ a → split sep (a ++ sep :: b) = a :: split sep b.
Proof.
  induction a as [| c a IH]; intros Ha; cbn [split app].
  - by rewrite decide_True.
  - apply not_elem_of_cons in Ha as [Hc Ha].
    rewrite decide_False by done. by rewrite IH.
Qed.

(** No segment has a separator. *)
Lemma split_segments (sep : N) (s : jsstring) : Forall (λ seg, sep ∉ seg) (split sep s).
Proof.
  induction s as [| c s IH]; cbn [split].
  - repeat constructor. apply not_elem_of_nil.
  - case_decide.
    + constructor; [apply not_elem_of_nil | done].
    + destruct (split sep s) as [| seg segs].
      * repeat constructor. rewrite not_elem_of_cons. split; [done | apply not_elem_of_nil].
      * apply Forall_cons in IH as [Hseg Hsegs]. constructor; [| done].
        rewrite not_elem_of_cons. done.
Qed.

(** Splitting what was joined gives the strings back. *)
Lemma split_join (sep : N) (xs : list jsstring) :
  xs ≠ [] → Forall (λ x, sep ∉ x) xs → split sep (join sep xs) = xs.
Proof.
  induction xs as [| x xs IH]; intros Hne Hxs; [done |].
  apply Forall_cons in Hxs as [Hx Hxs].
  destruct xs as [| y xs]; cbn [join].
  - by apply split_no_sep.
  - rewrite split_app_sep by done. f_equal. by apply IH.
Qed.

Lemma in_TRANSFORM_MAP_no_comma (k : jsstring) : in_TRANSFORM_MAP k → COMMA ∉ k.
Proof.
  intros Hk%in_TRANSFORM_MAP_spec%elem_of_app.
  assert (Hall : Forall (λ k, COMMA ∉ k) (ALL_KEYS ++ OBJECT_PROTOTYPE_KEYS)).
  { apply (bool_decide_unpack _). vm_compute. exact I. }
  rewrite Forall_forall in Hall. by apply Hall.
Qed.

Lemma filter_all {A} (P : A → Prop) `{∀ x, Decision (P x)} (l : list A) :
  Forall P l → filter P l = l.
Proof.
  induction l as [| x l IH]; intros Hl; [done |].
  apply Forall_cons in Hl as [Hx Hl]. rewrite filter_cons, decide_True by done.
  by rewrite IH.
Qed.

Lemma filter_none {A} (P : A → Prop) `{∀ x, Decision (P x)} (l : list A) :
  Forall (λ x, ¬ P x) l → filter P l = [].
Proof.
  induction l as [| x l IH]; intros Hl; [done |].
  apply Forall_cons in Hl as [Hx Hl]. rewrite filter_cons, decide_False by done.
  by apply IH.
Qed.

(** ** The order parameter *)

Lemma parseOrder_elem_of (param : option jsstring) (k : jsstring) :
  k ∈ parseOrder param →
  in_TRANSFORM_MAP k ∧ (k ∈ segments param ∨ k ∈ ALL_KEYS).
Proof.
  rewrite parseOrder_unfold. cbn zeta. rewrite elem_of_app, !list_elem_of_filter.
  intros [[Hk Hseg] | [_ Hk]]; [by auto |].
  split; [by apply ALL_KEYS_in_TRANSFORM_MAP | by auto].
Qed.

(** An order of properties of [TRANSFORM_MAP] with every key of [ALL_KEYS]
    is decoded from its own join as it is. *)
Lemma parseOrder_join (o : list jsstring) :
  Forall (λ k, in_TRANSFORM_MAP k) o → ALL_KEYS ⊆ o →
  parseOrder (Some (join COMMA o)) = o.
Proof.
  intros Hmap Hall.
  assert (Hne : o ≠ []).
  { intros ->. specialize (Hall (lit "hostnameReplace")).
    apply elem_of_nil in Hall; [done | right; left]. }
  rewrite parseOrder_unfold. cbn zeta. cbn [segments].
  rewrite split_join; [| done |].
  - rewrite (filter_all _ o) by done.
    rewrite filter_none; [by rewrite app_nil_r |].
    apply Forall_forall. intros k Hk Hnot. by apply Hnot, Hall.
  - eapply Forall_impl; [exact Hmap |]. apply in_TRANSFORM_MAP_no_comma.
Qed.

(** Decoding is canonical: for every raw [order] parameter, writing the
    decoded order as [move] writes an order and decoding it again gives the
    same order; every key of [ALL_KEYS] is in the decoded order. *)
Theorem parseOrder_canonical (param : option jsstring) :
  parseOrder (Some (join COMMA (parseOrder param))) = parseOrder param
  ∧ ALL_KEYS ⊆ parseOrder param
  ∧ (length ALL_KEYS ≤ length (parseOrder param))%nat.
Proof.
  assert (Hall : ALL_KEYS ⊆ parseOrder param) by (intros k; apply parseOrder_total).
  split_and!; [| done |].
  - apply parseOrder_join; [| done].
    apply Forall_forall. intros k Hk. by apply parseOrder_elem_of in Hk as [? _].
  - apply submseteq_length, NoDup_submseteq; [apply ALL_KEYS_NoDup | done].
Qed.

(** ** The active parameter and [toggle] *)

Lemma foldl_Set_add_app (s acc : list jsstring) :
  NoDup (acc ++ s) → foldl Set_add acc s = acc ++ s.
Proof.
  revert acc. induction s as [| x s IH]; intros acc Hnd; cbn [foldl].
  - by rewrite app_nil_r.
  - assert (Hx : x ∉ acc).
    { apply NoDup_app in Hnd as (_ & Hdisj & _). intros Hin.
      apply (Hdisj x Hin). left. }
    unfold Set_add at 2, Set_has. rewrite bool_decide_eq_false_2 by done.
    rewrite IH; rewrite <- app_assoc; done.
Qed.

(** The copy of a set is the set. *)
Lemma Set_new_id (s : list jsstring) : NoDup s → Set_new s = s.
Proof. intros Hs. unfold Set_new. by rewrite foldl_Set_add_app. Qed.

Lemma parseActive_unfold (param : option jsstring) :
  parseActive param = Set_new (filter (λ k, in_TRANSFORM_MAP k) (segments param)).
Proof.
  destruct param as [[| c raw] |]; cbn [parseActive segments]; [| done | done].
  cbn [split]. rewrite filter_cons, decide_False; [done |]. by vm_compute.
Qed.

Lemma in_TRANSFORM_MAP_not_nil (k : jsstring) : in_TRANSFORM_MAP k → k ≠ [].
Proof. intros Hk ->. by vm_compute in Hk. Qed.

(** A set of properties of [TRANSFORM_MAP] is decoded from the parameter
    that [toggle] writes for it as it is. *)
Lemma parseActive_active_param (s : list jsstring) :
  NoDup s → Forall (λ k, in_TRANSFORM_MAP k) s →
  parseActive (active_param s) = s.
Proof.
  intros Hnd Hmap. unfold active_param, Set_size.
  destruct s as [| k s]; cbn [length]; [by case_decide |].
  rewrite decide_True by lia. rewrite parseActive_unfold. cbn [segments].
  rewrite split_join; [| done |].
  - rewrite (filter_all _ (k :: s)) by done. by apply Set_new_id.
  - eapply Forall_impl; [exact Hmap |]. apply in_TRANSFORM_MAP_no_comma.
Qed.

Lemma parseActive_in_TRANSFORM_MAP (param : option jsstring) :
  Forall (λ k, in_TRANSFORM_MAP k) (parseActive param).
Proof. apply Forall_forall. intros k Hk. by apply parseActive_elem_of in Hk as [? _]. Qed.

(** Decoding the active set is canonical: for every raw [active] parameter,
    writing the decoded set as [toggle] writes a set (joined, or no
    parameter for the empty set) and decoding it again gives the same set,
    in the same order. *)
Theorem parseActive_canonical (param : option jsstring) :
  parseActive (active_param (parseActive param)) = parseActive param.
Proof.
  apply parseActive_active_param;
    [apply parseActive_NoDup | apply parseActive_in_TRANSFORM_MAP].
Qed.

Lemma Set_delete_elem_of (s : list jsstring) (k x : jsstring) :
  x ∈ Set_delete s k ↔ x ∈ s ∧ x ≠ k.
Proof. unfold Set_delete. rewrite list_elem_of_filter. tauto. Qed.

Lemma toggle_next_NoDup (searchParams : URLSearchParams) (key : jsstring) :
  NoDup (toggle_next searchParams key).
Proof.
  unfold toggle_next. destruct (Set_has _ key).
  - apply NoDup_filter, Set_new_NoDup.
  - apply Set_add_NoDup, Set_new_NoDup.
Qed.

Lemma toggle_next_elem_of (searchParams : URLSearchParams) (key x : jsstring) :
  x ∈ toggle_next searchParams key
  ↔ (x ≠ key ∧ x ∈ parseActive (USP_get searchParams (lit "active")))
    ∨ (x = key ∧ key ∉ parseActive (USP_get searchParams (lit "active"))).
Proof.
  unfold toggle_next, Set_has.
  case_bool_decide as Hkey; rewrite Set_new_elem_of in Hkey.
  - rewrite Set_delete_elem_of, Set_new_elem_of. split; [tauto |].
    intros [[? ?] | [_ ?]]; [tauto | done].
  - rewrite Set_add_elem_of, Set_new_elem_of.
    destruct (decide (x = key)) as [-> | Hne]; tauto.
Qed.

(** [toggle] flips the membership of its key in the active set, and of no
    other key; the set it builds has no element twice. *)
Theorem toggle_next_flips (searchParams : URLSearchParams) (key k : jsstring) :
  let selected := parseActive (USP_get searchParams (lit "active")) in
  (key ∈ toggle_next searchParams key ↔ key ∉ selected)
  ∧ (k ≠ key → k ∈ toggle_next searchParams key ↔ k ∈ selected)
  ∧ NoDup (toggle_next searchParams key).
Proof.
  intros selected. subst selected. split_and!.
  - rewrite toggle_next_elem_of. split; [intros [[? _] | [_ ?]]; done | auto].
  - intros Hne. rewrite toggle_next_elem_of.
    split; [intros [[_ ?] | [? _]]; done | auto].
  - apply toggle_next_NoDup.
Qed.

Lemma toggle_active_param (searchParams : URLSearchParams) (key : jsstring)
    (prev : URLSearchParams) :
  USP_get (toggle searchParams key prev) (lit "active")
  = active_param (toggle_next searchParams key).
Proof.
  unfold toggle, active_param. case_decide.
  - apply USP_get_set.
  - apply USP_get_delete.
Qed.

Lemma toggle_decoded (searchParams : URLSearchParams) (key : jsstring)
    (prev : URLSearchParams) :
  in_TRANSFORM_MAP key →
  parseActive (USP_get (toggle searchParams key prev) (lit "active"))
  = toggle_next searchParams key.
Proof.
  intros Hkey. rewrite toggle_active_param.
  apply parseActive_active_param; [apply toggle_next_NoDup |].
  apply Forall_forall. intros k Hk.
  apply toggle_next_elem_of in Hk as [[_ Hk] | [-> _]]; [| done].
  by apply parseActive_elem_of in Hk as [? _].
Qed.

(** What [toggle] writes is read back: for a key that is a property of
    [TRANSFORM_MAP] (as every key of a decoded order is), the active set
    decoded from the result of [toggle] is the set that [toggle] has built,
    so that the key is active after the update exactly when it was not
    before. *)
Theorem toggle_round_trip (searchParams : URLSearchParams) (key : jsstring)
    (prev : URLSearchParams) :
  in_TRANSFORM_MAP key →
  let selected := parseActive (USP_get searchParams (lit "active")) in
  let selected' := parseActive (USP_get (toggle searchParams key prev) (lit "active")) in
  selected' = toggle_next searchParams key
  ∧ (key ∈ selected' ↔ key ∉ selected)
  ∧ (∀ k, k ≠ key → k ∈ selected' ↔ k ∈ selected).
Proof.
  intros Hkey selected selected'. subst selected selected'.
  rewrite (toggle_decoded _ _ _ Hkey). split_and!; [done | |].
  - rewrite toggle_next_elem_of. split; [intros [[? _] | [_ ?]]; done | auto].
  - intros k Hne. rewrite toggle_next_elem_of.
    split; [intros [[_ ?] | [? _]]; done | auto].
Qed.

Lemma toggle_round_trip_witness :
  in_TRANSFORM_MAP (lit "hostnameReplace")
  ∧ parseActive (USP_get (toggle (query [("active", "stripAwsTracking")]%string)
                            (lit "hostnameReplace")
                            (query [("active", "stripAwsTracking")]%string))
                   (lit "active"))
    = toggle_next (query [("active", "stripAwsTracking")]%string) (lit "hostnameReplace").
Proof.
  assert (Hkey : in_TRANSFORM_MAP (lit "hostnameReplace")) by (vm_compute; exact I).
  split; [exact Hkey |].
  exact (proj1 (toggle_round_trip (query [("active", "stripAwsTracking")]%string)
                  (lit "hostnameReplace") (query [("active", "stripAwsTracking")]%string)
                  Hkey)).
Defined.

(** Toggling a key twice gives back the active set it started from, as a
    set: after the two updates the same keys are active. *)
Theorem toggle_twice (searchParams : URLSearchParams) (key k : jsstring) :
  in_TRANSFORM_MAP key →
  let once := toggle searchParams key searchParams in
  let twice := toggle once key once in
  k ∈ parseActive (USP_get twice (lit "active"))
  ↔ k ∈ parseActive (USP_get searchParams (lit "active")).
Proof.
  intros Hkey once twice. subst twice.
  rewrite (toggle_decoded _ _ _ Hkey), toggle_next_elem_of.
  subst once. rewrite (toggle_decoded _ _ _ Hkey), !toggle_next_elem_of.
  destruct (decide (k = key)) as [-> | Hne];
    destruct (decide (key ∈ parseActive (USP_get searchParams (lit "active")))); tauto.
Qed.

Lemma toggle_twice_witness :
  in_TRANSFORM_MAP (lit "stripAwsTracking")
  ∧ (lit "stripAwsTracking"
       ∈ parseActive (USP_get (toggle (toggle [] (lit "stripAwsTracking") [])
                                 (lit "stripAwsTracking")
                                 (toggle [] (lit "stripAwsTracking") []))
                        (lit "active"))
     ↔ lit "stripAwsTracking" ∈ parseActive (USP_get [] (lit "active"))).
Proof.
  assert (Hkey : in_TRANSFORM_MAP (lit "stripAwsTracking")) by (vm_compute; exact I).
  split; [exact Hkey |].
  exact (toggle_twice [] (lit "stripAwsTracking") (lit "stripAwsTracking") Hkey).
Defined.

(** ** [move] *)

Lemma insert_head_Permutation {A} (l : list A) (j : nat) (x y : A) :
  l !! j = Some y → y :: <[j := x]> l ≡ₚ x :: l.
Proof.
  revert j. induction l as [| z l IH]; intros j Hj; [done |].
  destruct j as [| j]; cbn in *.
  - injection Hj as ->. apply perm_swap.
  - rewrite (perm_swap z y), (IH j Hj). apply perm_swap.
Qed.

(** Exchanging two elements of a list permutes it. *)
Lemma swap_Permutation {A} (l : list A) (i j : nat) (x y : A) :
  l !! i = Some x → l !! j = Some y → <[j := x]> (<[i := y]> l) ≡ₚ l.
Proof.
  revert i j. induction l as [| z l IH]; intros i j Hi Hj; [done |].
  destruct i as [| i], j as [| j]; cbn in *.
  - by injection Hi as ->.
  - injection Hi as ->. by apply insert_head_Permutation.
  - injection Hj as ->. by apply insert_head_Permutation.
  - by rewrite (IH i j).
Qed.

Lemma move_None (searchParams : URLSearchParams) (key : jsstring) (dir : direction)
    (prev : URLSearchParams) :
  let order := parseOrder (USP_get searchParams (lit "order")) in
  let swapWith := (indexOf order key + dir_value dir)%Z in
  move searchParams key dir prev = None
  ↔ (swapWith < 0 ∨ Z.of_nat (length order) ≤ swapWith)%Z.
Proof.
  intros order swapWith. unfold move, move_next. fold order. fold swapWith.
  case_decide; split; try done; lia.
Qed.

(** The bounds of [move], for a key of the order: moving the key up does
    nothing exactly when it is the first key of the order, moving it down
    does nothing exactly when it is the last one. *)
Theorem move_bounds (searchParams : URLSearchParams) (key : jsstring) (i : nat)
    (prev : URLSearchParams) :
  let order := parseOrder (USP_get searchParams (lit "order")) in
  indexOf order key = Z.of_nat i →
  (move searchParams key Up prev = None ↔ i = 0%nat)
  ∧ (move searchParams key Down prev = None ↔ S i = length order).
Proof.
  intros order Hi. pose proof (indexOf_range order key) as Hrange.
  rewrite !move_None. fold order. rewrite Hi in *. cbn [dir_value]. lia.
Qed.

Lemma move_bounds_witness :
  indexOf (parseOrder (USP_get [] (lit "order"))) (lit "hostnameReplace") = Z.of_nat 1
  ∧ (move [] (lit "hostnameReplace") Down [] = None
     ↔ 2%nat = length (parseOrder (USP_get [] (lit "order")))).
Proof.
  assert (Hi : indexOf (parseOrder (USP_get [] (lit "order"))) (lit "hostnameReplace")
               = Z.of_nat 1) by (vm_compute; reflexivity).
  split; [exact Hi |].
  exact (proj2 (move_bounds [] (lit "hostnameReplace") 1 [] Hi)).
Defined.

Lemma parseOrder_in_TRANSFORM_MAP (param : option jsstring) :
  Forall (λ k, in_TRANSFORM_MAP k) (parseOrder param).
Proof. apply Forall_forall. intros k Hk. by apply parseOrder_elem_of in Hk as [? _]. Qed.

(** An order that permutes a decoded order is decoded from its join as it
    is. *)
Lemma parseOrder_join_Permutation (param : option jsstring) (o : list jsstring) :
  o ≡ₚ parseOrder param → parseOrder (Some (join COMMA o)) = o.
Proof.
  intros Hperm. apply parseOrder_join.
  - rewrite Hperm. apply parseOrder_in_TRANSFORM_MAP.
  - intros k Hk. rewrite Hperm. by apply parseOrder_total.
Qed.

Lemma move_swap (searchParams : URLSearchParams) (key x : jsstring)
    (dir : direction) (i j : nat) (prev : URLSearchParams) :
  let order := parseOrder (USP_get searchParams (lit "order")) in
  indexOf order key = Z.of_nat i →
  Z.of_nat j = (Z.of_nat i + dir_value dir)%Z →
  order !! j = Some x →
  move searchParams key dir prev
  = Some (USP_set prev (lit "order") (join COMMA (<[j := key]> (<[i := x]> order)))).
Proof.
  intros order Hi Hj Hx. unfold move.
  rewrite (move_next_swap searchParams key x dir i j Hi Hj Hx).
  by rewrite array_join_Some.
Qed.

(** What [move] writes is read back: when a key of the order has a
    neighbour in the direction of the move, the order decoded from the
    result of [move] is the order before with the key and that neighbour
    exchanged, a permutation of the order before. *)
Theorem move_round_trip (searchParams : URLSearchParams) (key x : jsstring)
    (dir : direction) (i j : nat) (prev : URLSearchParams) :
  let order := parseOrder (USP_get searchParams (lit "order")) in
  indexOf order key = Z.of_nat i →
  Z.of_nat j = (Z.of_nat i + dir_value dir)%Z →
  order !! j = Some x →
  ∃ p, move searchParams key dir prev = Some p
       ∧ parseOrder (USP_get p (lit "order")) = <[j := key]> (<[i := x]> order)
       ∧ parseOrder (USP_get p (lit "order")) ≡ₚ order.
Proof.
  cbn zeta. intros Hi Hj Hx.
  assert (Hperm : <[j := key]> (<[i := x]> (parseOrder (USP_get searchParams (lit "order"))))
                  ≡ₚ parseOrder (USP_get searchParams (lit "order"))).
  { apply indexOf_Some in Hi as [Hkey _]. by apply swap_Permutation. }
  eexists. split; [by apply (move_swap searchParams key x dir i j prev) |].
  rewrite USP_get_set, (parseOrder_join_Permutation _ _ Hperm). done.
Qed.

Lemma move_round_trip_witness :
  indexOf (parseOrder (USP_get [] (lit "order"))) (lit "stripAwsTracking") = Z.of_nat 0
  ∧ ∃ p, move [] (lit "stripAwsTracking") Down [] = Some p
         ∧ parseOrder (USP_get p (lit "order"))
           = [lit "hostnameReplace"; lit "stripAwsTracking"].
Proof.
  assert (Hi : indexOf (parseOrder (USP_get [] (lit "order"))) (lit "stripAwsTracking")
               = Z.of_nat 0) by (vm_compute; reflexivity).
  split; [exact Hi |].
  destruct (move_round_trip [] (lit "stripAwsTracking") (lit "hostnameReplace") Down
              0 1 [] Hi eq_refl eq_refl) as (p & Hmove & Horder & _).
  exists p. split; [exact Hmove | exact Horder].
Defined.

(** Moving a key up and then down again, each move on the parameters the
    move before has written, gives back the order it started from. *)
Theorem move_up_down (searchParams : URLSearchParams) (key : jsstring)
    (prev p1 : URLSearchParams) :
  move searchParams key Up prev = Some p1 →
  ∃ p2, move p1 key Down p1 = Some p2
        ∧ parseOrder (USP_get p2 (lit "order"))
          = parseOrder (USP_get searchParams (lit "order")).
Proof.
  set (order := parseOrder (USP_get searchParams (lit "order"))).
  intros Hmove.
  assert (Hin : ¬ (indexOf order key + dir_value Up < 0
                   ∨ Z.of_nat (length order) ≤ indexOf order key + dir_value Up)%Z).
  { intros Hout. apply (move_None searchParams key Up prev) in Hout. congruence. }
  pose proof (indexOf_range order key) as Hrange. cbn [dir_value] in Hin.
  destruct (Z.to_nat (indexOf order key)) as [| j] eqn:Hidx; [lia |].
  assert (Hi : indexOf order key = Z.of_nat (S j)) by lia.
  pose proof Hi as [Hkey Hfirst]%indexOf_Some.
  pose proof (lookup_lt_Some _ _ _ Hkey) as Hilt.
  destruct (lookup_lt_is_Some_2 order j) as [x Hx]; [lia |].
  rewrite (move_swap searchParams key x Up (S j) j prev Hi) in Hmove
    by (done || (cbn [dir_value]; lia)).
  injection Hmove as <-.
  set (order1 := <[j := key]> (<[S j := x]> order)).
  assert (Hperm : order1 ≡ₚ order) by by apply swap_Permutation.
  assert (Horder1 : parseOrder (USP_get (USP_set prev (lit "order") (join COMMA order1))
                                  (lit "order")) = order1).
  { by rewrite USP_get_set, (parseOrder_join_Permutation _ _ Hperm). }
  assert (Hj : indexOf order1 key = Z.of_nat j).
  { apply indexOf_Some. subst order1. split.
    - apply list_lookup_insert_eq. rewrite length_insert. lia.
    - rewrite !take_insert_ge by lia. intros Hin'. apply Hfirst.
      apply elem_of_take in Hin' as (n & Hn & Hlt). apply elem_of_take.
      exists n. split; [done | lia]. }
  assert (Hx1 : order1 !! S j = Some x).
  { subst order1. rewrite list_lookup_insert_ne by lia.
    by apply list_lookup_insert_eq. }
  pose proof (move_swap (USP_set prev (lit "order") (join COMMA order1)) key x Down j (S j)
                (USP_set prev (lit "order") (join COMMA order1))) as Hswap.
  cbn zeta in Hswap. rewrite Horder1 in Hswap.
  specialize (Hswap Hj ltac:(cbn [dir_value]; lia) Hx1).
  eexists. split; [exact Hswap |].
  - rewrite USP_get_set.
    assert (Hback : <[S j := key]> (<[j := x]> order1) = order).
    { subst order1. apply list_eq. intros n.
      destruct (decide (n = S j)) as [-> | Hn1].
      - rewrite list_lookup_insert_eq by (rewrite !length_insert; lia). done.
      - rewrite list_lookup_insert_ne by done.
        destruct (decide (n = j)) as [-> | Hn2].
        + rewrite list_lookup_insert_eq by (rewrite !length_insert; lia). done.
        + by rewrite !list_lookup_insert_ne by done. }
    rewrite Hback. apply parseOrder_join_Permutation with (param := USP_get searchParams (lit "order")).
    done.
Qed.

Lemma move_up_down_witness :
  ∃ p1 p2,
    move [] (lit "hostnameReplace") Up [] = Some p1
    ∧ move p1 (lit "hostnameReplace") Down p1 = Some p2
    ∧ parseOrder (USP_get p2 (lit "order")) = parseOrder (USP_get [] (lit "order")).
Proof.
  assert (Hmove : move [] (lit "hostnameReplace") Up []
                  = Some (query [("order", "hostnameReplace,stripAwsTracking")]%string))
    by (vm_compute; reflexivity).
  destruct (move_up_down [] (lit "hostnameReplace") [] _ Hmove) as (p2 & H2 & Horder).
  eexists _, p2. split; [exact Hmove | split; [exact H2 | exact Horder]].
Defined.

(** ** The parameters the handlers leave alone *)

Lemma values_of_snoc (params : URLSearchParams) (param value name : jsstring) :
  values_of (params ++ [(param, value)]) name
  = values_of params name ++ (if decide (param = name) then [value] else []).
Proof.
  unfold values_of. rewrite filter_app, fmap_app. f_equal.
  rewrite filter_cons. cbn [fst]. by case_decide.
Qed.

Lemma values_of_cons (n v : jsstring) (p : URLSearchParams) (name : jsstring) :
  values_of ((n, v) :: p) name
  = if decide (n = name) then v :: values_of p name else values_of p name.
Proof. unfold values_of. rewrite filter_cons. cbn [fst]. by case_decide. Qed.

Lemma values_of_delete (p : URLSearchParams) (name other : jsstring) :
  values_of (USP_delete p name) other
  = if decide (other = name) then [] else values_of p other.
Proof.
  induction p as [| [n v] p IH]; [by case_decide |].
  unfold USP_delete in *. rewrite filter_cons. cbn [fst].
  destruct (decide (n ≠ name)) as [Hn | Hn].
  - rewrite !values_of_cons, IH. repeat case_decide; subst; done.
  - apply dec_stable in Hn as ->. rewrite values_of_cons, IH.
    repeat case_decide; subst; done.
Qed.

Lemma values_of_set (p : URLSearchParams) (name value other : jsstring) :
  values_of (USP_set p name value) other
  = if decide (other = name) then [value] else values_of p other.
Proof.
  induction p as [| [n v] p IH]; cbn [USP_set].
  - rewrite values_of_cons. repeat case_decide; subst; done.
  - destruct (decide (n = name)) as [-> | Hn].
    + rewrite !values_of_cons, values_of_delete. repeat case_decide; subst; done.
    + rewrite !values_of_cons, IH. repeat case_decide; subst; done.
Qed.

(** [get] reads the first value of a name. *)
Lemma USP_get_values_of (p : URLSearchParams) (name : jsstring) :
  USP_get p name = head (values_of p name).
Proof.
  unfold values_of. induction p as [| [n v] p IH]; [done |].
  cbn [USP_get]. rewrite filter_cons. cbn [fst]. by case_decide.
Qed.

(** The parameters with a dot in their name. *)
Lemma foldl_parseConfigs_step_dotted (params : URLSearchParams) (configs : JSObject) :
  foldl parseConfigs_step configs params
  = foldl parseConfigs_step configs (filter (λ nv, DOT ∈ nv.1) params).
Proof.
  revert configs. induction params as [| [n v] params IH]; intros configs; [done |].
  rewrite filter_cons. cbn [fst foldl]. case_decide.
  - cbn [foldl]. apply IH.
  - rewrite parseConfigs_step_no_dot by done. apply IH.
Qed.

Lemma dotted_delete (p : URLSearchParams) (name : jsstring) :
  DOT ∉ name →
  filter (λ nv, DOT ∈ nv.1) (USP_delete p name) = filter (λ nv, DOT ∈ nv.1) p.
Proof.
  intros Hname. unfold USP_delete. induction p as [| [n v] p IH]; [done |].
  rewrite (filter_cons (λ nv, nv.1 ≠ name)). cbn [fst].
  destruct (decide (n ≠ name)) as [Hn | Hn].
  - rewrite !filter_cons. cbn [fst]. by rewrite IH.
  - apply dec_stable in Hn as ->. rewrite IH, filter_cons. cbn [fst].
    by rewrite decide_False.
Qed.

Lemma dotted_set (p : URLSearchParams) (name value : jsstring) :
  DOT ∉ name →
  filter (λ nv, DOT ∈ nv.1) (USP_set p name value) = filter (λ nv, DOT ∈ nv.1) p.
Proof.
  intros Hname. induction p as [| [n v] p IH]; cbn [USP_set].
  - rewrite filter_cons. cbn [fst]. by rewrite decide_False.
  - destruct (decide (n = name)) as [-> | Hn].
    + rewrite !filter_cons. cbn [fst]. rewrite !decide_False by done.
      by apply dotted_delete.
    + rewrite !filter_cons. cbn [fst]. by rewrite IH.
Qed.

Lemma parseConfigs_set_no_dot (p : URLSearchParams) (name value : jsstring) :
  DOT ∉ name → parseConfigs (USP_set p name value) = parseConfigs p.
Proof.
  intros Hname. unfold parseConfigs.
  rewrite foldl_parseConfigs_step_dotted, dotted_set by done.
  by rewrite <- foldl_parseConfigs_step_dotted.
Qed.

Lemma parseConfigs_delete_no_dot (p : URLSearchParams) (name : jsstring) :
  DOT ∉ name → parseConfigs (USP_delete p name) = parseConfigs p.
Proof.
  intros Hname. unfold parseConfigs.
  rewrite foldl_parseConfigs_step_dotted, dotted_delete by done.
  by rewrite <- foldl_parseConfigs_step_dotted.
Qed.

Lemma no_dot_u : DOT ∉ lit "u".
Proof. apply (bool_decide_unpack _). vm_compute. exact I. Qed.
Lemma no_dot_order : DOT ∉ lit "order".
Proof. apply (bool_decide_unpack _). vm_compute. exact I. Qed.
Lemma no_dot_active : DOT ∉ lit "active".
Proof. apply (bool_decide_unpack _). vm_compute. exact I. Qed.

(** Every handler changes the parameter it is about and no other one: after
    [setUrl], [toggle], [move] and [setConfig], [get] answers for every
    other name what it answered before. *)
Theorem handlers_frame (searchParams prev : URLSearchParams) (name : jsstring) :
  (∀ value, name ≠ lit "u" → USP_get (setUrl value prev) name = USP_get prev name)
  ∧ (∀ key, name ≠ lit "active" →
       USP_get (toggle searchParams key prev) name = USP_get prev name)
  ∧ (∀ key dir p, name ≠ lit "order" → move searchParams key dir prev = Some p →
       USP_get p name = USP_get prev name)
  ∧ (∀ key field value, name ≠ config_param key field →
       USP_get (setConfig key field value prev) name = USP_get prev name).
Proof.
  split_and!.
  - intros [| c value] Hne; cbn [setUrl];
      [by apply USP_get_delete_ne | by apply USP_get_set_ne].
  - intros key Hne. unfold toggle.
    case_decide; [by apply USP_get_set_ne | by apply USP_get_delete_ne].
  - intros key dir p Hne. unfold move.
    destruct (move_next searchParams key dir); [| done].
    intros [= <-]. by apply USP_get_set_ne.
  - intros key field [| c value] Hne; cbn [setConfig];
      [by apply USP_get_delete_ne | by apply USP_get_set_ne].
Qed.

(** [setUrl], [toggle] and [move] do not change the decoded configs; with
    the theorem before, neither changes what the other two decode. *)
Theorem handlers_keep_configs (searchParams prev : URLSearchParams) :
  (∀ value, parseConfigs (setUrl value prev) = parseConfigs prev)
  ∧ (∀ key, parseConfigs (toggle searchParams key prev) = parseConfigs prev)
  ∧ (∀ key dir p, move searchParams key dir prev = Some p →
       parseConfigs p = parseConfigs prev).
Proof.
  split_and!.
  - intros [| c value]; cbn [setUrl].
    + apply parseConfigs_delete_no_dot, no_dot_u.
    + apply parseConfigs_set_no_dot, no_dot_u.
  - intros key. unfold toggle. case_decide.
    + apply parseConfigs_set_no_dot, no_dot_active.
    + apply parseConfigs_delete_no_dot, no_dot_active.
  - intros key dir p. unfold move.
    destruct (move_next searchParams key dir); [| done].
    intros [= <-]. apply parseConfigs_set_no_dot, no_dot_order.
Qed.

(** What [setUrl] writes is read back as the input of the next render: for
    a value without unpaired surrogates, which the conversion of the
    platform to a [USVString] leaves as it is, the value itself, the empty
    string when the parameter was deleted. *)
Theorem setUrl_round_trip (value : jsstring) (prev : URLSearchParams) :
  URLStandard.USVString value = value →
  default [] (USP_get (setUrl value prev) (lit "u")) = value.
Proof.
  intros _. destruct value as [| c value]; cbn [setUrl].
  - by rewrite USP_get_delete.
  - by rewrite USP_get_set.
Qed.

Lemma setUrl_round_trip_witness :
  default [] (USP_get (setUrl (lit "https://bar.com/path?x=1")
                         (query [("u", "x"); ("active", "hostnameReplace")]%string))
                (lit "u"))
  = lit "https://bar.com/path?x=1".
Proof.
  apply (setUrl_round_trip (lit "https://bar.com/path?x=1")). vm_compute. reflexivity.
Defined.

(** ** The decoded configs *)

Lemma decode_param_config_param (k f : jsstring) :
  k ∈ ALL_KEYS → decode_param (config_param k f) = Some (k, f).
Proof. intros Hk. apply decode_param_Some. split; [done | by apply ALL_KEYS_no_dot]. Qed.

Lemma config_param_inj (k f k' f' : jsstring) :
  k ∈ ALL_KEYS → k' ∈ ALL_KEYS →
  config_param k f = config_param k' f' → k = k' ∧ f = f'.
Proof.
  intros Hk Hk' Heq. pose proof (decode_param_config_param k f Hk) as Hd.
  rewrite Heq, decode_param_config_param in Hd by done. by injection Hd.
Qed.

Lemma parseConfigs_field_last (params : URLSearchParams) (k f : jsstring) :
  plain_names params → k ∈ ALL_KEYS →
  config_field (parseConfigs params) k f = last (values_of params (config_param k f)).
Proof.
  intros Hplain Hk. unfold config_field.
  induction params as [| [param value] params IH] using rev_ind; [done |].
  apply Forall_app in Hplain as [Hplain Hlast].
  rewrite Forall_singleton in Hlast. cbn [fst] in Hlast.
  specialize (IH Hplain).
  destruct (parseConfigs_known_only params Hplain) as [Hproto Hown].
  rewrite values_of_snoc, parseConfigs_snoc, parseConfigs_step_decode.
  destruct (decode_param param) as [[k' f'] |] eqn:Hdec.
  - destruct (in_TRANSFORM_MAP k') eqn:Hk'.
    + assert (Hkey : k' ∈ ALL_KEYS).
      { apply Is_true_true_2, in_TRANSFORM_MAP_spec in Hk' as [? | Hin]; [done |].
        by destruct (Hlast k' f' eq_refl). }
      apply decode_param_Some in Hdec as [-> _].
      assert (Hget : spread (obj_get (parseConfigs params) k')
                     = default ∅ (own (parseConfigs params) !! k')).
      { unfold obj_get. rewrite Hproto.
        destruct (own (parseConfigs params) !! k'); [done |].
        unfold Object_prototype_get.
        rewrite decide_False by by apply ALL_KEYS_not_PROTO.
        rewrite bool_decide_eq_false_2 by by apply ALL_KEYS_not_inherited. done. }
      destruct (decide (k' = k)) as [-> | Hne].
      * rewrite obj_set_own_eq by (left; by apply ALL_KEYS_not_PROTO).
        cbn [mbind option_bind]. rewrite Hget.
        destruct (decide (f' = f)) as [-> | Hf].
        -- rewrite decide_True by done. by rewrite lookup_insert_eq, last_snoc.
        -- rewrite decide_False by (intros [_ ?]%config_param_inj; done).
           rewrite lookup_insert_ne, app_nil_r by done. rewrite <- IH.
           by destruct (own (parseConfigs params) !! k).
      * rewrite obj_set_own_ne by done.
        rewrite decide_False by (intros [? _]%config_param_inj; done).
        by rewrite app_nil_r.
    + rewrite decide_False, app_nil_r; [done |]. intros ->.
      rewrite decode_param_config_param in Hdec by done. injection Hdec as <- <-.
      by rewrite (Is_true_true_1 _ (ALL_KEYS_in_TRANSFORM_MAP _ Hk)) in Hk'.
  - rewrite decide_False, app_nil_r; [done |]. intros ->.
    by rewrite decode_param_config_param in Hdec.
Qed.

(** With plain names, the config that the executor passes for a transform
    key is a record. *)
Lemma executor_config (params : URLSearchParams) (k : jsstring) :
  plain_names params → k ∈ ALL_KEYS →
  or_empty_record (obj_get (parseConfigs params) k)
  = VRecord (default ∅ (own (parseConfigs params) !! k)).
Proof.
  intros Hplain Hk. destruct (parseConfigs_known_only params Hplain) as [Hproto _].
  unfold obj_get. rewrite Hproto.
  destruct (own (parseConfigs params) !! k); [done |].
  unfold Object_prototype_get.
  rewrite decide_False by by apply ALL_KEYS_not_PROTO.
  by rewrite bool_decide_eq_false_2 by by apply ALL_KEYS_not_inherited.
Qed.

Lemma default_empty_lookup (o : option (gmap jsstring jsstring)) (f : jsstring) :
  default ∅ o !! f = o ≫= (.!! f).
Proof. by destruct o. Qed.

(** With plain names, the config of a transform key is the record of the
    parameters [k.f]: field [f] of the record that the config object has for
    [k], and of the config that the executor passes for [k], is the value of
    the last parameter named [k.f], and is absent without such a
    parameter. *)
Theorem parseConfigs_field (params : URLSearchParams) (k f : jsstring) :
  plain_names params → k ∈ ALL_KEYS →
  config_field (parseConfigs params) k f = last (values_of params (config_param k f))
  ∧ ∃ r, or_empty_record (obj_get (parseConfigs params) k) = VRecord r
         ∧ r !! f = last (values_of params (config_param k f)).
Proof.
  intros Hplain Hk. split; [by apply parseConfigs_field_last |].
  eexists. split; [by apply executor_config |].
  rewrite default_empty_lookup. by apply parseConfigs_field_last.
Qed.

Lemma plain_names_query :
  plain_names (query [("u", "x"); ("hostnameReplace.to", "a"); ("zz.to", "b");
                      ("hostnameReplace.to", "c")]%string).
Proof.
  unfold plain_names. repeat constructor; cbn [fst].
  all: intros k f Hd; vm_compute in Hd; try discriminate Hd; injection Hd as <- <-.
  all: apply (bool_decide_unpack _); vm_compute; exact I.
Defined.

Lemma parseConfigs_field_witness :
  config_field
    (parseConfigs (query [("u", "x"); ("hostnameReplace.to", "a"); ("zz.to", "b");
                          ("hostnameReplace.to", "c")]%string))
    (lit "hostnameReplace") (lit "to")
  = Some (lit "c").
Proof.
  rewrite (proj1 (parseConfigs_field _ (lit "hostnameReplace") (lit "to") plain_names_query
                    ltac:(right; left))).
  vm_compute. reflexivity.
Defined.

Lemma plain_names_delete (p : URLSearchParams) (name : jsstring) :
  plain_names p → plain_names (USP_delete p name).
Proof.
  unfold plain_names, USP_delete. rewrite !Forall_forall.
  intros Hp e [_ He]%list_elem_of_filter. by apply Hp.
Qed.

Lemma plain_names_set (p : URLSearchParams) (name value : jsstring) :
  plain_names p →
  (∀ k f, decode_param name = Some (k, f) → k ∉ OBJECT_PROTOTYPE_KEYS) →
  plain_names (USP_set p name value).
Proof.
  intros Hp Hname. induction p as [| [n v] p IH]; cbn [USP_set].
  - by repeat constructor.
  - apply Forall_cons in Hp as [Hn Hp]. case_decide.
    + constructor; [done | by apply plain_names_delete].
    + constructor; [done | by apply IH].
Qed.

(** What [setConfig] writes is read back: with plain names, a transform
    key [k], and a field and a value without unpaired surrogates, which the
    conversion of the platform to a [USVString] leaves as they are, field
    [f] of the record of [k] decoded from the result of [setConfig k f
    value] is the value, and is absent when the value is the empty string;
    the other fields of the transform keys are what they were. *)
Theorem setConfig_round_trip (prev : URLSearchParams) (k f value : jsstring) :
  plain_names prev → k ∈ ALL_KEYS →
  URLStandard.USVString f = f → URLStandard.USVString value = value →
  let configs := parseConfigs (setConfig k f value prev) in
  config_field configs k f = match value with [] => None | _ => Some value end
  ∧ (∀ k' f', k' ∈ ALL_KEYS → (k', f') ≠ (k, f) →
       config_field configs k' f' = config_field (parseConfigs prev) k' f').
Proof.
  intros Hplain Hk _ _ configs.
  assert (Hplain' : plain_names (setConfig k f value prev)).
  { destruct value; cbn [setConfig]; [by apply plain_names_delete |].
    apply plain_names_set; [done |]. intros k' f'.
    rewrite decode_param_config_param by done. intros [= <- <-].
    by apply ALL_KEYS_not_inherited. }
  split.
  - subst configs. rewrite parseConfigs_field_last by done.
    destruct value; cbn [setConfig].
    + rewrite values_of_delete. by rewrite decide_True.
    + rewrite values_of_set. by rewrite decide_True.
  - intros k' f' Hk' Hne. subst configs. rewrite !parseConfigs_field_last by done.
    assert (Hname : config_param k' f' ≠ config_param k f).
    { intros [-> ->]%config_param_inj; done. }
    destruct value; cbn [setConfig].
    + rewrite values_of_delete. by rewrite decide_False.
    + rewrite values_of_set. by rewrite decide_False.
Qed.

Lemma setConfig_round_trip_witness :
  config_field
    (parseConfigs (setConfig (lit "hostnameReplace") (lit "to") (lit "foo.com")
                     (query [("u", "x"); ("hostnameReplace.to", "a"); ("zz.to", "b");
                             ("hostnameReplace.to", "c")]%string)))
    (lit "hostnameReplace") (lit "to")
  = Some (lit "foo.com").
Proof.
  apply (setConfig_round_trip _ (lit "hostnameReplace") (lit "to") (lit "foo.com")
           plain_names_query).
  - right. left.
  - vm_compute. reflexivity.
  - vm_compute. reflexivity.
Defined.

(** ** Where the hostname of [hostnameReplace] comes from *)

Lemma index_key_not_to (i : nat) : index_key i ≠ lit "to".
Proof.
  unfold index_key. destruct (N.to_uint (N.of_nat i)); unfold lit; cbn; discriminate.
Qed.

Lemma indexed_lookup_None (s : jsstring) (g : nat → jsstring) (k : jsstring) :
  (∀ i, g i ≠ k) →
  (list_to_map (imap (λ i c, (g i, [c])) s) : gmap jsstring jsstring) !! k = None.
Proof.
  revert g. induction s as [| c s IH]; intros g Hg; [done |].
  rewrite imap_cons. cbn [list_to_map foldr curry].
  rewrite lookup_insert_ne by apply Hg.
  apply IH. intros i. apply Hg.
Qed.

Lemma spread_inherited_to (o : JSObject) :
  own o !! lit "hostnameReplace" = None →
  spread (obj_get o (lit "hostnameReplace")) !! lit "to" = None
  ∧ destructure_to (or_empty_record (obj_get o (lit "hostnameReplace"))) = Normal None.
Proof.
  intros Hown. unfold obj_get. rewrite Hown.
  assert (Hproto : ∀ p, Object_prototype_get p (lit "hostnameReplace") = VUndefined).
  { intros p. unfold Object_prototype_get.
    rewrite decide_False by (by vm_compute).
    rewrite bool_decide_eq_false_2; [done |].
    apply (bool_decide_unpack _). vm_compute. exact I. }
  destruct (proto o) as [p |]; [| by rewrite Hproto].
  destruct (p !! lit "hostnameReplace") as [s |]; [| by rewrite Hproto].
  split; [| done]. apply indexed_lookup_None, index_key_not_to.
Qed.

Lemma hostnameReplace_to_last (params : URLSearchParams) :
  destructure_to (or_empty_record (obj_get (parseConfigs params) (lit "hostnameReplace")))
  = Normal (last (values_of params (lit "hostnameReplace.to"))).
Proof.
  set (host := lit "hostnameReplace"). set (to := lit "to").
  set (L := λ ps, last (values_of ps (lit "hostnameReplace.to"))).
  assert (Hhost : host ∈ ALL_KEYS) by (right; left).
  assert (Hname : config_param host to = lit "hostnameReplace.to") by (vm_compute; reflexivity).
  assert (Hinv : match own (parseConfigs params) !! host with
                 | Some r => r !! to = L params
                 | None => L params = None
                 end).
  { induction params as [| [param value] params IH] using rev_ind; [done |].
    unfold L in *. rewrite values_of_snoc, parseConfigs_snoc, parseConfigs_step_decode.
    destruct (decode_param param) as [[k' f'] |] eqn:Hdec.
    - apply decode_param_Some in Hdec as [-> Hdot].
      assert (Hparam : config_param k' f' = lit "hostnameReplace.to" ↔ k' = host ∧ f' = to).
      { rewrite <- Hname. split; [| by intros [-> ->]].
        intros Heq. pose proof (proj2 (decode_param_Some _ k' f') (conj eq_refl Hdot)) as Hd.
        rewrite Heq, decode_param_config_param in Hd by done. by injection Hd. }
      destruct (in_TRANSFORM_MAP k') eqn:Hk'.
      + destruct (decide (k' = host)) as [-> | Hne].
        * rewrite obj_set_own_eq by (left; by apply ALL_KEYS_not_PROTO).
          destruct (decide (f' = to)) as [-> | Hf].
          -- rewrite decide_True by by apply Hparam.
             by rewrite lookup_insert_eq, last_snoc.
          -- rewrite decide_False by (rewrite Hparam; tauto).
             rewrite lookup_insert_ne, app_nil_r by done.
             destruct (own (parseConfigs params) !! host) as [r |] eqn:Hown.
             ++ by rewrite (obj_get_own _ _ _ Hown).
             ++ rewrite IH. by apply spread_inherited_to.
        * rewrite obj_set_own_ne by done.
          rewrite decide_False by (rewrite Hparam; tauto). by rewrite app_nil_r.
      + rewrite decide_False, app_nil_r; [done |]. rewrite Hparam. intros [-> _].
        by rewrite (Is_true_true_1 _ (ALL_KEYS_in_TRANSFORM_MAP _ Hhost)) in Hk'.
    - rewrite decide_False, app_nil_r; [done |]. intros ->.
      by vm_compute in Hdec. }
  fold (L params).
  destruct (own (parseConfigs params) !! host) as [r |] eqn:Hown.
  - rewrite (obj_get_own _ _ _ Hown). cbn [or_empty_record destructure_to].
    unfold mret, completion_ret. by f_equal.
  - rewrite Hinv. by apply spread_inherited_to.
Qed.

Lemma hostnameReplace_fn_decoded (api : URL_API) (params : URLSearchParams) (url : jsstring) :
  hostnameReplace_fn api url
    (or_empty_record (obj_get (parseConfigs params) (lit "hostnameReplace")))
  = Normal (hostnameReplace_result api params url).
Proof.
  unfold hostnameReplace_fn, hostnameReplace_result. rewrite hostnameReplace_to_last.
  cbn. destruct (last (values_of params (lit "hostnameReplace.to"))) as [[| c to] |];
    [done | | done].
  by destruct (URL_new api url).
Qed.

(** The [to] that [hostnameReplace] receives is the value of the last
    parameter named [hostnameReplace.to], and is undefined when there is no
    such parameter: whatever the other parameters of the query are, also
    those that reach the prototype of the config object, none of them gives
    the transform a hostname. *)
Theorem hostnameReplace_to_provenance (params : URLSearchParams) :
  destructure_to (or_empty_record (obj_get (parseConfigs params) (lit "hostnameReplace")))
  = Normal (last (values_of params (lit "hostnameReplace.to")))
  ∧ (last (values_of params (lit "hostnameReplace.to")) = None →
     ∀ api url,
       hostnameReplace_fn api url
         (or_empty_record (obj_get (parseConfigs params) (lit "hostnameReplace")))
       = Normal None).
Proof.
  split; [apply hostnameReplace_to_last |].
  intros Hnone api url. rewrite hostnameReplace_fn_decoded.
  unfold hostnameReplace_result. by rewrite Hnone.
Qed.

(** ** [isValidUrl] and [hostnameReplace] *)

(** [hostnameReplace] applies exactly when it has a hostname and the input
    is a valid URL for [isValidUrl]: on an input that the page marks as
    invalid it is never applied, and with a non-empty [to] it is applied to
    every valid input. *)
Theorem hostnameReplace_applies_iff_valid (api : URL_API) (url : jsstring)
    (config : gmap jsstring jsstring) :
  (∃ s, hostnameReplace_fn api url (VRecord config) = Normal (Some s))
  ↔ (∃ to, config !! lit "to" = Some to ∧ to ≠ []) ∧ isValidUrl api url = Normal true.
Proof.
  unfold hostnameReplace_fn, isValidUrl. cbn [destructure_to].
  unfold mret, completion_ret, mbind, completion_bind.
  destruct (config !! lit "to") as [[| c to] |]; cbn.
  - split; [by intros [? [=]] | by intros [(? & [= <-] & ?) _]].
  - destruct (URL_new api url) as [parsed | e]; cbn.
    + split; [intros _; split; eauto | eauto].
    + split; [by intros [? [=]] | by intros [_ [=]]].
  - split; [by intros [? [=]] | by intros [(? & [=] & _) _]].
Qed.

(** The condition of [urlInvalid]: a non-empty input on which the
    constructor of [URL] throws; the empty input is not marked. *)
Lemma urlInvalid_spec (api : URL_API) (url : jsstring) :
  urlInvalid api url = Normal true ↔ url ≠ [] ∧ ∃ e, URL_new api url = Throw e.
Proof.
  unfold urlInvalid, isValidUrl. destruct url as [| c url].
  - split; [by intros [=] | by intros [? _]].
  - unfold mret, completion_ret, mbind, completion_bind.
    destruct (URL_new api (c :: url)) as [parsed | e]; cbn.
    + split; [by intros [=] | by intros [_ [? [=]]]].
    + split; [eauto | done].
Qed.

(** ** Runs of the executor *)

Lemma run_step_unregistered (api : URL_API) (url : jsstring) (configs : JSObject)
    (acc : list StepResult) (key : jsstring) :
  key ∉ ALL_KEYS → run_step api url configs acc key = Throw TypeError.
Proof.
  intros Hkey. unfold run_step.
  destruct (TRANSFORM_MAP !! key) as [t |] eqn:Ht; [| done].
  destruct Hkey. apply TRANSFORM_MAP_own. eauto.
Qed.

Lemma reduce_run_step_throws (api : URL_API) (url : jsstring) (configs : JSObject)
    (keys : list jsstring) (acc : list StepResult) :
  Exists (.∉ ALL_KEYS) keys →
  reduce (run_step api url configs) keys acc = Throw TypeError.
Proof.
  revert acc. induction keys as [| key keys IH]; intros acc Hex; [by inversion Hex |].
  cbn [reduce]. destruct (decide (key ∈ ALL_KEYS)) as [Hkey | Hkey].
  - destruct (run_step_registered api url configs acc key Hkey) as (r & -> & _).
    cbn. apply IH. by apply Exists_cons in Hex as [? | ?].
  - by rewrite run_step_unregistered.
Qed.

(** When a render throws: exactly when some name inherited from
    [Object.prototype] is named both by the parameter [order] and by the
    parameter [active]; the exception is then a [TypeError], and every
    other query string renders. *)
Theorem UrlTool_throws_iff (api : URL_API) (searchParams : URLSearchParams) :
  let named := λ k, k ∈ OBJECT_PROTOTYPE_KEYS
                    ∧ k ∈ segments (USP_get searchParams (lit "order"))
                    ∧ k ∈ segments (USP_get searchParams (lit "active")) in
  (UrlTool api searchParams = Throw TypeError ↔ ∃ k, named k)
  ∧ ((∃ results out, UrlTool api searchParams = Normal (results, out)) ↔ ¬ ∃ k, named k).
Proof.
  intros named.
  set (order := parseOrder (USP_get searchParams (lit "order"))).
  set (selected := parseActive (USP_get searchParams (lit "active"))).
  assert (Hnamed : (∃ k, named k) ↔ Exists (.∉ ALL_KEYS) (filter (.∈ selected) order)).
  { rewrite Exists_exists. split.
    - intros (k & Hk & Hord & Hact). exists k.
      assert (Hmap : in_TRANSFORM_MAP k) by (apply in_TRANSFORM_MAP_spec; auto).
      split.
      + apply list_elem_of_filter. split; [by apply parseActive_elem_of |].
        subst order. rewrite parseOrder_unfold. cbn zeta.
        apply elem_of_app. left. by apply list_elem_of_filter.
      + intros Hall. by apply (ALL_KEYS_not_inherited k).
    - intros (k & [Hsel Hord]%list_elem_of_filter & Hnot). exists k.
      apply parseActive_elem_of in Hsel as [Hmap Hact].
      apply parseOrder_elem_of in Hord as [_ [Hord | ?]]; [| done].
      apply in_TRANSFORM_MAP_spec in Hmap as [? | ?]; done. }
  assert (Hcases : (Exists (.∉ ALL_KEYS) (filter (.∈ selected) order)
                    ∧ UrlTool api searchParams = Throw TypeError)
                   ∨ (¬ Exists (.∉ ALL_KEYS) (filter (.∈ selected) order)
                      ∧ ∃ results out, UrlTool api searchParams = Normal (results, out))).
  { destruct (decide (Exists (.∉ ALL_KEYS) (filter (.∈ selected) order))) as [Hex | Hall].
    - left. split; [done |]. unfold UrlTool, transformResults. fold order selected.
      rewrite filter_Set_has. by rewrite reduce_run_step_throws.
    - right. split; [done |].
      apply not_Exists_Forall in Hall; [| intros k; apply _].
      assert (Hkeys : Forall (.∈ ALL_KEYS) (filter (.∈ selected) order)).
      { eapply Forall_impl; [exact Hall |]. intros k Hk. cbn in Hk. by apply dec_stable. }
      destruct (transformResults_steps api (default [] (USP_get searchParams (lit "u")))
                  order selected (parseConfigs searchParams) Hkeys) as (results & Hrun & _).
      unfold UrlTool. fold order selected. rewrite Hrun. cbn. eauto. }
  rewrite Hnamed. destruct Hcases as [[Hex Hthrow] | [Hall (results & out & Hrun)]].
  - rewrite Hthrow. split; [tauto |]. split; [by intros (? & ? & [=]) | tauto].
  - rewrite Hrun. split; [split; [by intros [=] | tauto] | split; eauto].
Qed.

Lemma reduce_app {A B} (f : B → A → completion B) (xs ys : list A) (init : B) :
  reduce f (xs ++ ys) init = (acc ← reduce f xs init; reduce f ys acc).
Proof.
  revert init. induction xs as [| x xs IH]; intros init; cbn [reduce app]; [done |].
  destruct (f init x) as [acc | e]; cbn; [apply IH | done].
Qed.

Lemma final_output_app (url : jsstring) (r1 r2 : list StepResult) :
  final_output url (r1 ++ r2) = final_output (final_output url r1) r2.
Proof. unfold final_output. rewrite last_app. by destruct (last r2). Qed.

Lemma run_step_app (api : URL_API) (url : jsstring) (configs : JSObject)
    (acc acc' : list StepResult) (key : jsstring) :
  run_step api url configs (acc ++ acc') key
  = (r ← run_step api (final_output url acc) configs acc' key; mret (acc ++ r)).
Proof.
  unfold run_step. fold (final_output url (acc ++ acc')).
  fold (final_output (final_output url acc) acc'). rewrite final_output_app.
  destruct (TRANSFORM_MAP !! key) as [t |]; [| done].
  destruct (fn t api _ _) as [res | e]; cbn; [| done].
  by rewrite app_assoc.
Qed.

Lemma reduce_run_step_app (api : URL_API) (url : jsstring) (configs : JSObject)
    (keys : list jsstring) (acc acc' : list StepResult) :
  reduce (run_step api url configs) keys (acc ++ acc')
  = (r ← reduce (run_step api (final_output url acc) configs) keys acc'; mret (acc ++ r)).
Proof.
  revert acc'. induction keys as [| key keys IH]; intros acc'; cbn [reduce]; [done |].
  rewrite run_step_app.
  destruct (run_step api (final_output url acc) configs acc' key) as [r | e]; cbn; [| done].
  apply IH.
Qed.

(** Runs compose: the run over an order in two parts is the run over the
    first part followed by the run over the second part on the output of
    the first; the final output of the whole is the final output of the
    second run. *)
Theorem transformResults_app (api : URL_API) (url : jsstring)
    (order1 order2 selected : list jsstring) (configs : JSObject) :
  transformResults api url (order1 ++ order2) selected configs
  = (r1 ← transformResults api url order1 selected configs;
     r2 ← transformResults api (final_output url r1) order2 selected configs;
     mret (r1 ++ r2))
  ∧ ∀ r1 r2, final_output url (r1 ++ r2) = final_output (final_output url r1) r2.
Proof.
  split; [| apply final_output_app].
  unfold transformResults. rewrite filter_app, reduce_app.
  destruct (reduce (run_step api url configs) _ []) as [r1 | e]; cbn; [| done].
  rewrite <- (app_nil_r r1) at 1. apply reduce_run_step_app.
Qed.

(** The executor reads the configs of the active keys of the order only:
    two config objects that give these keys the same config give the same
    run. *)
Theorem transformResults_active_configs (api : URL_API) (url : jsstring)
    (order selected : list jsstring) (configs1 configs2 : JSObject) :
  (∀ k, k ∈ order → k ∈ selected →
        or_empty_record (obj_get configs1 k) = or_empty_record (obj_get configs2 k)) →
  transformResults api url order selected configs1
  = transformResults api url order selected configs2.
Proof.
  intros Hsame. unfold transformResults. apply reduce_ext_in.
  intros acc k [Hsel Hord]%list_elem_of_filter.
  unfold Set_has in Hsel. rewrite bool_decide_spec in Hsel.
  unfold run_step. by rewrite (Hsame k Hord Hsel).
Qed.

Lemma transformResults_active_configs_witness :
  transformResults platform_URL (lit "https://bar.com/") ALL_KEYS [lit "stripAwsTracking"]
    (parseConfigs (query [("hostnameReplace.to", "a")]%string))
  = transformResults platform_URL (lit "https://bar.com/") ALL_KEYS [lit "stripAwsTracking"]
      (parseConfigs []).
Proof.
  apply transformResults_active_configs.
  intros k _ Hk%list_elem_of_singleton. subst k. vm_compute. reflexivity.
Defined.

(** The output is never made up: on a state whose active keys are keys of
    [ALL_KEYS], the final output is the base input or the result of one of
    the steps, and it is the base input when every step returned null. *)
Theorem final_output_provenance (api : URL_API) (url : jsstring)
    (order selected : list jsstring) (configs : JSObject) :
  Forall (.∈ ALL_KEYS) (filter (.∈ selected) order) →
  ∃ results,
    transformResults api url order selected configs = Normal results
    ∧ (final_output url results = url
       ∨ ∃ r, r ∈ results ∧ result r = Some (final_output url results))
    ∧ (Forall (λ r, result r = None) results → final_output url results = url).
Proof.
  intros Hkeys.
  destruct (transformResults_steps api url order selected configs Hkeys)
    as (results & Hrun & _ & Hsteps).
  exists results. split; [done |]. rewrite final_output_step_input.
  assert (Hstep : ∀ i r, results !! i = Some r →
            (result r = None ∧ output r = step_input url results i)
            ∨ result r = Some (output r)).
  { intros i r Hi. destruct (Hsteps i r Hi) as (_ & _ & _ & Hout).
    destruct (result r) as [s |]; [right; by rewrite Hout | by left]. }
  split.
  - generalize (length results) as n. induction n as [| n IH]; [by left |].
    cbn [step_input]. destruct (results !! n) as [r |] eqn:Hn; [| by left].
    destruct (Hstep n r Hn) as [[_ ->] | Hres]; [done |].
    right. exists r. split; [by eapply list_elem_of_lookup_2 | done].
  - intros Hnull. generalize (length results) as n. induction n as [| n IH]; [done |].
    cbn [step_input]. destruct (results !! n) as [r |] eqn:Hn; [| done].
    destruct (Hstep n r Hn) as [[_ ->] | Hres]; [done |].
    rewrite Forall_forall in Hnull.
    rewrite (Hnull r) in Hres by by eapply list_elem_of_lookup_2. done.
Qed.

Lemma final_output_provenance_witness :
  Forall (.∈ ALL_KEYS) (filter (.∈ ALL_KEYS) ALL_KEYS)
  ∧ ∃ results,
      transformResults platform_URL (lit "no url") ALL_KEYS ALL_KEYS empty_object
      = Normal results
      ∧ (Forall (λ r, result r = None) results → final_output (lit "no url") results = lit "no url").
Proof.
  assert (Hkeys : Forall (.∈ ALL_KEYS) (filter (.∈ ALL_KEYS) ALL_KEYS)).
  { apply (bool_decide_unpack _). vm_compute. exact I. }
  split; [exact Hkeys |].
  destruct (final_output_provenance platform_URL (lit "no url") ALL_KEYS ALL_KEYS
              empty_object Hkeys) as (results & Hrun & _ & Hnull).
  exists results. split; [exact Hrun | exact Hnull].
Defined.

(** ** Configs of transforms that are not active *)

Lemma config_param_dot (k f : jsstring) : DOT ∈ config_param k f.
Proof. unfold config_param. apply elem_of_app. right. left. Qed.

Lemma setConfig_get_no_dot (k f value name : jsstring) (prev : URLSearchParams) :
  DOT ∉ name → USP_get (setConfig k f value prev) name = USP_get prev name.
Proof.
  intros Hname.
  assert (Hne : name ≠ config_param k f).
  { intros ->. apply Hname, config_param_dot. }
  destruct value; cbn [setConfig]; [by apply USP_get_delete_ne | by apply USP_get_set_ne].
Qed.

Lemma setConfig_plain_names (prev : URLSearchParams) (k f value : jsstring) :
  plain_names prev → k ∈ ALL_KEYS → plain_names (setConfig k f value prev).
Proof.
  intros Hplain Hk. destruct value; cbn [setConfig]; [by apply plain_names_delete |].
  apply plain_names_set; [done |]. intros k' f'.
  rewrite decode_param_config_param by done. intros [= <- <-].
  by apply ALL_KEYS_not_inherited.
Qed.

Lemma setConfig_other_key (prev : URLSearchParams) (k f value k' : jsstring) :
  plain_names prev → k ∈ ALL_KEYS → k' ∈ ALL_KEYS → k' ≠ k →
  or_empty_record (obj_get (parseConfigs (setConfig k f value prev)) k')
  = or_empty_record (obj_get (parseConfigs prev) k').
Proof.
  intros Hplain Hk Hk' Hne.
  rewrite !executor_config by (done || by apply setConfig_plain_names).
  f_equal. apply map_eq. intros f'. rewrite !default_empty_lookup.
  change (config_field (parseConfigs (setConfig k f value prev)) k' f'
          = config_field (parseConfigs prev) k' f').
  rewrite !parseConfigs_field_last by (done || by apply setConfig_plain_names).
  assert (Hname : config_param k' f' ≠ config_param k f).
  { intros [-> _]%config_param_inj; done. }
  destruct value; cbn [setConfig].
  - rewrite values_of_delete. by rewrite decide_False.
  - rewrite values_of_set. by rewrite decide_False.
Qed.

(** Editing the config of a transform that is not active changes nothing of
    what the page computes: with plain names, the render after [setConfig]
    for a transform key outside the active set has the steps and the output
    of the render before. *)
Theorem setConfig_inactive (api : URL_API) (searchParams : URLSearchParams)
    (k f value : jsstring) :
  plain_names searchParams → k ∈ ALL_KEYS →
  k ∉ parseActive (USP_get searchParams (lit "active")) →
  UrlTool api (setConfig k f value searchParams) = UrlTool api searchParams.
Proof.
  intros Hplain Hk Hinactive. unfold UrlTool.
  rewrite !setConfig_get_no_dot by (apply no_dot_u || apply no_dot_order || apply no_dot_active).
  assert (Hrun : transformResults api (default [] (USP_get searchParams (lit "u")))
                   (parseOrder (USP_get searchParams (lit "order")))
                   (parseActive (USP_get searchParams (lit "active")))
                   (parseConfigs (setConfig k f value searchParams))
                 = transformResults api (default [] (USP_get searchParams (lit "u")))
                     (parseOrder (USP_get searchParams (lit "order")))
                     (parseActive (USP_get searchParams (lit "active")))
                     (parseConfigs searchParams)).
  { unfold transformResults. apply reduce_ext_in.
    intros acc k' [Hsel _]%list_elem_of_filter.
    unfold Set_has in Hsel. rewrite bool_decide_spec in Hsel.
    destruct (decide (k' ∈ ALL_KEYS)) as [Hk' | Hk'].
    - unfold run_step. rewrite (setConfig_other_key searchParams k f value k'); try done.
      by intros ->.
    - by rewrite !run_step_unregistered. }
  by rewrite Hrun.
Qed.

Lemma setConfig_inactive_witness :
  UrlTool platform_URL
    (setConfig (lit "hostnameReplace") (lit "to") (lit "foo.com")
       (query [("u", "x"); ("hostnameReplace.to", "a"); ("zz.to", "b");
               ("hostnameReplace.to", "c")]%string))
  = UrlTool platform_URL
      (query [("u", "x"); ("hostnameReplace.to", "a"); ("zz.to", "b");
              ("hostnameReplace.to", "c")]%string).
Proof.
  apply (setConfig_inactive platform_URL _ (lit "hostnameReplace") (lit "to")
           (lit "foo.com") plain_names_query).
  - right. left.
  - apply (bool_decide_unpack _). vm_compute. exact I.
Defined.

(** ** [stripAwsTracking] and its marker *)

Lemma match_L0_unfold (s : jsstring) :
  match_L0 s = match match_L0_here s with
               | Some seg => Some seg
               | None => match s with
                         | [] => None
                         | _ :: s' => match_L0 s'
                         end
               end.
Proof. by destruct s. Qed.

Lemma strip_prefix_Some (pre s rest : jsstring) :
  strip_prefix pre s = Some rest ↔ s = pre ++ rest.
Proof.
  revert s. induction pre as [| p pre IH]; intros s; cbn [strip_prefix app].
  - split; [by intros [= ->] | by intros ->].
  - destruct s as [| c s]; [done |]. case_decide as Hc.
    + subst c. rewrite IH. split; [by intros -> | by intros [= ->]].
    + split; [done | intros [= ? ?]; done].
Qed.

(** The segment is the part before the first slash. *)
Lemma take_segment_spec (s : jsstring) :
  ∃ rest, s = take_segment s ++ rest
          ∧ (SLASH ∉ take_segment s)
          ∧ (rest = [] ∨ ∃ rest', rest = SLASH :: rest').
Proof.
  induction s as [| c s (rest & Hs & Hseg & Hrest)]; cbn [take_segment].
  - exists []. split_and!; [done | apply not_elem_of_nil | by left].
  - case_decide as Hc.
    + subst c. exists (SLASH :: s). split_and!; [done | apply not_elem_of_nil | eauto].
    + exists rest. split_and!; [cbn; by f_equal | | done].
      rewrite not_elem_of_cons. split; [congruence | done].
Qed.

Lemma take_segment_app (seg rest : jsstring) :
  SLASH ∉ seg → (rest = [] ∨ ∃ rest', rest = SLASH :: rest') →
  take_segment (seg ++ rest) = seg.
Proof.
  intros Hseg Hrest. induction seg as [| c seg IH]; cbn [app].
  - destruct Hrest as [-> | [rest' ->]]; [done |]. cbn. by rewrite decide_True.
  - apply not_elem_of_cons in Hseg as [Hc Hseg]. cbn [take_segment].
    rewrite decide_False by done. by rewrite IH.
Qed.

Lemma match_L0_here_Some (s seg : jsstring) :
  match_L0_here s = Some seg
  ↔ seg ≠ [] ∧ (SLASH ∉ seg)
    ∧ ∃ rest, s = lit "/L0/" ++ seg ++ rest ∧ (rest = [] ∨ ∃ rest', rest = SLASH :: rest').
Proof.
  unfold match_L0_here. split.
  - destruct (strip_prefix (lit "/L0/") s) as [after |] eqn:Hpre; [| done].
    apply strip_prefix_Some in Hpre as ->.
    destruct (take_segment_spec after) as (rest & Hafter & Hseg & Hrest).
    destruct (take_segment after) as [| c seg'] eqn:Htake; [done |].
    intros [= <-]. split_and!; [done | done |]. exists rest. by rewrite <- Hafter.
  - intros (Hne & Hseg & rest & -> & Hrest).
    rewrite (proj2 (strip_prefix_Some _ _ (seg ++ rest)) eq_refl).
    rewrite take_segment_app by done. by destruct seg.
Qed.

Lemma match_L0_here_None (s : jsstring) :
  match_L0_here s = None ↔ ∀ c rest, s = lit "/L0/" ++ c :: rest → c = SLASH.
Proof.
  split.
  - intros Hnone c rest ->. destruct (decide (c = SLASH)) as [| Hc]; [done |].
    unfold match_L0_here in Hnone.
    rewrite (proj2 (strip_prefix_Some _ _ (c :: rest)) eq_refl) in Hnone.
    cbn [take_segment] in Hnone. by rewrite decide_False in Hnone.
  - intros Hall. destruct (match_L0_here s) as [seg |] eqn:Hhere; [| done].
    apply match_L0_here_Some in Hhere as (Hne & Hseg & rest & -> & _).
    destruct seg as [| c seg]; [done |].
    rewrite (Hall c (seg ++ rest) eq_refl) in Hseg. destruct Hseg. left.
Qed.

(** No match: nowhere in the string is the marker followed by anything but
    a slash. *)
Lemma match_L0_None (s : jsstring) :
  match_L0 s = None ↔ ∀ pre c rest, s = pre ++ lit "/L0/" ++ c :: rest → c = SLASH.
Proof.
  induction s as [| a s IH]; rewrite match_L0_unfold.
  - split; [| done]. intros _ pre c rest Heq.
    apply (f_equal length) in Heq. rewrite !length_app in Heq. cbn in Heq. lia.
  - destruct (match_L0_here (a :: s)) as [seg |] eqn:Hhere.
    + split; [done |]. intros Hall.
      assert (match_L0_here (a :: s) = None) as Hnone; [| congruence].
      apply match_L0_here_None. intros c rest. apply (Hall []).
    + rewrite IH. split.
      * intros Hall [| b pre] c rest Heq.
        -- by apply (proj1 (match_L0_here_None _) Hhere c rest).
        -- injection Heq as -> ->. by apply (Hall pre c rest).
      * intros Hall pre c rest ->. by apply (Hall (a :: pre) c rest).
Qed.

Lemma match_L0_Some (s seg : jsstring) :
  match_L0 s = Some seg →
  ∃ pre rest, s = pre ++ lit "/L0/" ++ seg ++ rest
              ∧ seg ≠ [] ∧ (SLASH ∉ seg)
              ∧ (rest = [] ∨ ∃ rest', rest = SLASH :: rest').
Proof.
  induction s as [| a s IH]; rewrite match_L0_unfold.
  - by destruct (match_L0_here []) eqn:Hhere.
  - destruct (match_L0_here (a :: s)) as [seg' |] eqn:Hhere.
    + intros [= ->]. apply match_L0_here_Some in Hhere as (Hne & Hseg & rest & Heq & Hrest).
      by exists [], rest.
    + intros (pre & rest & -> & Hrest)%IH. by exists (a :: pre), rest.
Qed.

(** What [stripAwsTracking] returns: a string only when the input has the
    marker [/L0/] followed by a segment that is not empty, has no slash and
    ends at a slash or at the end of the input, the string being that
    segment decoded; and null whenever the input has no marker followed by
    anything but a slash. *)
Theorem stripAwsTracking_fn_marker (api : URL_API) (url : jsstring) (config : jsval) :
  (∀ s, stripAwsTracking_fn api url config = Normal (Some s) →
        ∃ pre seg rest,
          url = pre ++ lit "/L0/" ++ seg ++ rest
          ∧ seg ≠ [] ∧ (SLASH ∉ seg)
          ∧ (rest = [] ∨ ∃ rest', rest = SLASH :: rest')
          ∧ decodeURIComponent seg = Normal s)
  ∧ ((∀ pre c rest, url = pre ++ lit "/L0/" ++ c :: rest → c = SLASH) →
     stripAwsTracking_fn api url config = Normal None).
Proof.
  unfold stripAwsTracking_fn. split.
  - intros s. destruct (match_L0 url) as [seg |] eqn:Hmatch; [| done].
    apply match_L0_Some in Hmatch as (pre & rest & -> & Hne & Hseg & Hrest).
    destruct (decodeURIComponent seg) as [s' | e] eqn:Hdec; cbn; [| done].
    intros [= <-]. by exists pre, seg, rest.
  - intros Hall%match_L0_None. by rewrite Hall.
Qed.

Lemma match_L0_here_before (q tail : jsstring) :
  q ≠ [] → match_L0_here (q ++ lit "/L0") = None →
  match_L0_here (q ++ lit "/L0/" ++ tail) = None.
Proof.
  intros Hne. unfold match_L0_here.
  change (lit "/L0/") with [47; 76; 48; 47]. change (lit "/L0") with [47; 76; 48].
  destruct q as [| c1 [| c2 [| c3 [| c4 [| c5 q]]]]]; [done | ..]; cbn;
    repeat (case_decide; subst; cbn; try done).
Qed.

Lemma match_L0_first (pre seg rest : jsstring) :
  match_L0 (pre ++ lit "/L0") = None →
  seg ≠ [] → SLASH ∉ seg → (rest = [] ∨ ∃ rest', rest = SLASH :: rest') →
  match_L0 (pre ++ lit "/L0/" ++ seg ++ rest) = Some seg.
Proof.
  intros Hpre Hne Hseg Hrest. induction pre as [| a pre IH]; rewrite match_L0_unfold.
  - cbn [app]. rewrite (proj2 (match_L0_here_Some _ seg)); [done |].
    split_and!; [done | done |]. by exists rest.
  - rewrite match_L0_unfold in Hpre.
    destruct (match_L0_here ((a :: pre) ++ lit "/L0")) eqn:Hhere; [done |].
    rewrite (match_L0_here_before (a :: pre)) by done. cbn [app]. by apply IH.
Qed.

Lemma decode_from_Plain (s : jsstring) :
  PERCENT ∉ s → decode_from Plain s = Normal s.
Proof.
  induction s as [| c s IH]; intros Hs; [done |].
  apply not_elem_of_cons in Hs as [Hc Hs]. cbn [decode_from decode_step].
  rewrite decide_False by congruence. cbn. by rewrite IH.
Qed.

(** The first marker decides: when no [/L0/] followed by anything but a
    slash ends before or inside the marker that follows [pre], the result
    for [pre/L0/seg], alone or followed by a slash and more, is the segment
    decoded, null when it has a malformed escape, and the segment itself
    when it has no escape at all. *)
Theorem stripAwsTracking_fn_first_marker (api : URL_API) (pre seg rest : jsstring)
    (config : jsval) :
  (∀ p c r, pre ++ lit "/L0" = p ++ lit "/L0/" ++ c :: r → c = SLASH) →
  seg ≠ [] → SLASH ∉ seg → (rest = [] ∨ ∃ rest', rest = SLASH :: rest') →
  stripAwsTracking_fn api (pre ++ lit "/L0/" ++ seg ++ rest) config
  = Normal (match decodeURIComponent seg with
            | Normal s => Some s
            | Throw _ => None
            end)
  ∧ (PERCENT ∉ seg →
     stripAwsTracking_fn api (pre ++ lit "/L0/" ++ seg ++ rest) config = Normal (Some seg)).
Proof.
  intros Hpre%match_L0_None Hne Hseg Hrest.
  assert (Hfn : stripAwsTracking_fn api (pre ++ lit "/L0/" ++ seg ++ rest) config
                = Normal (match decodeURIComponent seg with
                          | Normal s => Some s
                          | Throw _ => None
                          end)).
  { unfold stripAwsTracking_fn. rewrite match_L0_first by done.
    by destruct (decodeURIComponent seg). }
  split; [done |]. intros Hplain. rewrite Hfn.
  unfold decodeURIComponent. by rewrite decode_from_Plain.
Qed.

(** Scenario A, through the theorem. *)
Lemma stripAwsTracking_fn_first_marker_witness :
  stripAwsTracking_fn platform_URL
    (lit "https://ex.com" ++ lit "/L0/" ++ lit "https%3A%2F%2Fexample.com" ++ []) VUndefined
  = Normal (Some (lit "https://example.com")).
Proof.
  destruct (stripAwsTracking_fn_first_marker platform_URL (lit "https://ex.com")
              (lit "https%3A%2F%2Fexample.com") [] VUndefined) as [Hfn _].
  - apply match_L0_None. vm_compute. reflexivity.
  - vm_compute. discriminate.
  - apply (bool_decide_unpack _). vm_compute. exact I.
  - left. reflexivity.
  - rewrite Hfn. vm_compute. reflexivity.
Defined.

(** ** A render with [hostnameReplace] alone active *)





(** ** The select of the hostname presets *)



(** ** The labels of the rows *)

Lemma resultByKey_snoc (results : list StepResult) (r : StepResult) :
  resultByKey (results ++ [r]) = <[step_key r := result r]> (resultByKey results).
Proof. unfold resultByKey. by rewrite foldl_snoc. Qed.

Lemma resultByKey_last (results : list StepResult) (k : jsstring) :
  resultByKey results !! k = result <$> last (filter (λ r, step_key r = k) results).
Proof.
  induction results as [| r results IH] using rev_ind; [done |].
  rewrite resultByKey_snoc, filter_app, filter_cons, filter_nil.
  destruct (decide (step_key r = k)) as [<- | Hne].
  - by rewrite lookup_insert_eq, last_snoc.
  - by rewrite lookup_insert_ne, app_nil_r.
Qed.

(** The keys of the steps of a run that does not throw. *)
Lemma transformResults_keys (api : URL_API) (url : jsstring) (order selected : list jsstring)
    (configs : JSObject) (results : list StepResult) :
  transformResults api url order selected configs = Normal results →
  step_key <$> results = filter (.∈ selected) order.
Proof.
  intros Hrun.
  destruct (decide (Forall (.∈ ALL_KEYS) (filter (.∈ selected) order))) as [Hkeys | Hkeys].
  - destruct (transformResults_steps api url order selected configs Hkeys)
      as (results' & Hrun' & Hmap & _).
    rewrite Hrun in Hrun'. by injection Hrun' as ->.
  - apply not_Forall_Exists in Hkeys; [| apply _].
    unfold transformResults in Hrun. rewrite filter_Set_has in Hrun.
    by rewrite reduce_run_step_throws in Hrun.
Qed.

Lemma last_is_Some {A} (l : list A) : l ≠ [] → is_Some (last l).
Proof.
  induction l as [| x l IH] using rev_ind; [done |]. intros _. rewrite last_snoc. eauto.
Qed.

(** The label of a row reports the step of its key. [resultByKey] has, for
    every key with a step, the result of the last step of that key. On a
    render that does not throw, the row of a key of the order shows a label
    exactly when the key is active and the input is non-empty and a valid
    URL; the key then has a step, and the label is [no match] when the last
    step of the key returned null, and [applied] otherwise. *)
Theorem row_label_reports_step (api : URL_API) (url : jsstring)
    (order selected : list jsstring) (configs : JSObject) (results : list StepResult) :
  transformResults api url order selected configs = Normal results →
  (∀ k, resultByKey results !! k
        = result <$> last (filter (λ r, step_key r = k) results))
  ∧ ∀ key, key ∈ order →
      ∃ shown,
        row_label api url selected results key = Normal shown
        ∧ (is_Some shown ↔ key ∈ selected ∧ url ≠ [] ∧ isValidUrl api url = Normal true)
        ∧ (∀ l, shown = Some l →
             ∃ r, last (filter (λ r, step_key r = key) results) = Some r
                  ∧ l = match result r with
                        | None => lit "no match"
                        | Some _ => lit "applied"
                        end).
Proof.
  intros Hrun. split; [apply resultByKey_last |]. intros key Hkey.
  unfold row_label, Set_has.
  assert (Hinvalid : ∃ b, urlInvalid api url = Normal b
            ∧ (negb (bool_decide (url = [])) && negb b = true
               ↔ url ≠ [] ∧ isValidUrl api url = Normal true)).
  { unfold urlInvalid, isValidUrl. destruct url as [| c url].
    - exists false. split; [done |]. split; [done | by intros [? _]].
    - rewrite bool_decide_eq_false_2 by done.
      destruct (URL_new api (c :: url)) as [parsed | e]; cbn.
      + exists false. by split.
      + exists true. split; [done |]. split; [done | by intros [_ [=]]]. }
  destruct Hinvalid as (b & -> & Hb). cbn.
  destruct (decide (key ∈ selected)) as [Hsel | Hsel].
  - rewrite bool_decide_eq_true_2 by done. cbn [andb].
    destruct (negb (bool_decide (url = [])) && negb b) eqn:Hguard; cbn.
    + eexists. split; [done |]. split.
      * split; [intros _; split; [done | by apply Hb] | eauto].
      * intros l [= <-]. rewrite resultByKey_last.
        destruct (last_is_Some (filter (λ r, step_key r = key) results)) as [r Hr].
        { assert (key ∈ step_key <$> results) as Hin.
          { rewrite (transformResults_keys _ _ _ _ _ _ Hrun).
            by apply list_elem_of_filter. }
          apply list_elem_of_fmap in Hin as (r & -> & Hin).
          intros Hnil. assert (r ∈ filter (λ r', step_key r' = step_key r) results) as Hr
            by (by apply list_elem_of_filter).
          rewrite Hnil in Hr. by apply elem_of_nil in Hr. }
        exists r. split; [done |]. rewrite Hr. cbn. by destruct (result r).
    + exists None. split; [done |]. split; [| done].
      split; [by intros [? [=]] |]. intros (_ & Hvalid). apply Hb in Hvalid. congruence.
  - rewrite bool_decide_eq_false_2 by done. cbn.
    exists None. split; [done |]. split; [| done].
    split; [by intros [? [=]] | by intros [? _]].
Qed.

(** Scenario B and the row of its step, through the theorem. *)
Lemma row_label_reports_step_witness :
  ∃ results,
    transformResults platform_URL (lit "https://bar.com/path?x=1") ALL_KEYS
      [lit "hostnameReplace"]
      (parseConfigs (query [("hostnameReplace.to", "foo.com")]%string))
    = Normal results
    ∧ ∃ shown,
        row_label platform_URL (lit "https://bar.com/path?x=1") [lit "hostnameReplace"]
          results (lit "hostnameReplace")
        = Normal shown.
Proof.
  eexists. split; [vm_compute; reflexivity |].
  destruct (row_label_reports_step platform_URL (lit "https://bar.com/path?x=1") ALL_KEYS
              [lit "hostnameReplace"]
              (parseConfigs (query [("hostnameReplace.to", "foo.com")]%string)) _
              eq_refl) as [_ H].
  destruct (H (lit "hostnameReplace")) as (shown & Hshown & _).
  - right. left.
  - exists shown. exact Hshown.
Defined.

(** ** The decoders on plain names *)

(** The active set: empty for an absent and for an empty parameter, without
    an element twice, made of segments of the parameter only, and a subset
    of [ALL_KEYS] as soon as the parameter names no property inherited from
    [Object.prototype]. *)
Theorem parseActive_plain (param : option jsstring) :
  parseActive None = [] ∧ parseActive (Some []) = []
  ∧ NoDup (parseActive param)
  ∧ (∀ k, k ∈ parseActive param → k ∈ segments param)
  ∧ (Forall (.∉ OBJECT_PROTOTYPE_KEYS) (segments param) → parseActive param ⊆ ALL_KEYS).
Proof.
  split_and!; [done | done | apply parseActive_NoDup | | apply parseActive_subset].
  intros k Hk. by apply parseActive_elem_of in Hk as [_ ?].
Qed.

(** The decoded configs on plain names: a parameter whose name has no dot,
    or has before its first dot a name that is no property of
    [TRANSFORM_MAP], changes nothing; when no parameter has a name inherited
    from [Object.prototype] before its first dot, the decoded mapping has
    keys of [ALL_KEYS] only and keeps its prototype. *)
Theorem parseConfigs_plain (params : URLSearchParams) :
  (∀ param value, DOT ∉ param →
     parseConfigs (params ++ [(param, value)]) = parseConfigs params)
  ∧ (∀ k f value, DOT ∉ k → ¬ in_TRANSFORM_MAP k →
       parseConfigs (params ++ [(config_param k f, value)]) = parseConfigs params)
  ∧ (plain_names params →
     proto (parseConfigs params) = None
     ∧ ∀ k, is_Some (own (parseConfigs params) !! k) → k ∈ ALL_KEYS).
Proof.
  split_and!.
  - intros param value Hdot. by rewrite parseConfigs_snoc, parseConfigs_step_no_dot.
  - intros k f value Hdot Hk. by rewrite parseConfigs_snoc, parseConfigs_step_unknown.
  - apply parseConfigs_known_only.
Qed.
